(** * PEPITA-tools: image scoring and control normalisation

    A shallow embedding of the parts of [imageops.py] and [analyze.py] that
    decide how a well is scored and normalised, together with the properties
    the design document states about them.

    Conventions of the embedding:
    - a NumPy image is a list of rows of integer samples ([image]); the
      sample type ([dtype]) is carried separately where wrap-around matters;
    - Python exceptions are values of [exn] and fallible code returns
      [result];
    - calls into OpenCV, scikit-image, [re], [csv] and the file system are
      taken as inputs (section variables or record fields); the one fixed
      pattern, that of the file names, is also written out as a matcher
      ([re_xy_search]);
    - a Python [float] is [pyfloat]: a finite value (the rational it
      denotes), an infinity or NaN; the operations on doubles round their
      exact result to the nearest double ([round_double]).  Signed zeros
      are not distinguished;
    - a character of a string is its code point, taken to be below 256. *)

From Stdlib Require Import ZArith QArith Qcanon Qround Lia Ascii.
From stdpp Require Import base tactics option list numbers strings pretty gmap sorting.

Local Open Scope Z_scope.

(** ** Python exceptions and fallible computations *)

Module Py.

Inductive exn : Type :=
| IndexError
| KeyError (key : string)
| ZeroDivisionError
| ValueError
| UserError (msg : string)
| CvError.

Inductive result (A : Type) : Type :=
| Ok (a : A)
| Raise (e : exn).
Arguments Ok {A} a.
Arguments Raise {A} e.

Definition bind {A B} (r : result A) (k : A → result B) : result B :=
  match r with
  | Ok a => k a
  | Raise e => Raise e
  end.

(** [for x in xs: acc = f(acc, x)], stopping at the first exception. *)
Fixpoint foldM {A B} (f : B → A → result B) (acc : B) (xs : list A) : result B :=
  match xs with
  | [] => Ok acc
  | x :: xs' => bind (f acc x) (λ acc', foldM f acc' xs')
  end.

(** [[f(x) for x in xs]], stopping at the first exception. *)
Fixpoint traverse {A B} (f : A → result B) (xs : list A) : result (list B) :=
  match xs with
  | [] => Ok []
  | x :: xs' => bind (f x) (λ y, bind (traverse f xs') (λ ys, Ok (y :: ys)))
  end.

(** [seq[i]] on a Python list or one axis of an array: negative indices
    count from the end, anything else out of range raises [IndexError]. *)
Definition getitem {A} (l : list A) (i : Z) : result A :=
  let n := Z.of_nat (length l) in
  let j := if i <? 0 then i + n else i in
  if (0 <=? j) && (j <? n)
  then match l !! Z.to_nat j with Some a => Ok a | None => Raise IndexError end
  else Raise IndexError.

(** [range(lo, hi)] *)
Definition range (lo hi : Z) : list Z := seqZ lo (hi - lo).

(** [sum(l)] on unbounded integers. *)
Definition Zsum (l : list Z) : Z := foldr Z.add 0 l.

(** [seq[:k]] *)
Definition slice_to {A} (l : list A) (k : Z) : list A :=
  if k <? 0 then take (Z.to_nat (Z.of_nat (length l) + k)) l
  else take (Z.to_nat k) l.

(** Python and NumPy floating-point values. *)
Inductive pyfloat : Type :=
| Fin (q : Qc)
| PInf
| NInf
| NaN.

Definition Qc_ltb (x y : Qc) : bool :=
  match (x ?= y)%Qc with Lt => true | _ => false end.

(** [int(x)] for a finite [x]: truncation towards zero. *)
Definition int_of_Qc (x : Qc) : Z :=
  if Qc_ltb x 0 then Qceiling x else Qfloor x.

(** *** Double-precision arithmetic

    A finite double is the rational it denotes; an operation on doubles is
    the exact operation followed by rounding to the nearest double, ties to
    the one with an even significand (53 bits, exponents from -1074 to 971),
    and a result of magnitude [2 ** 1024] or more is an infinity.  Signed
    zeros are not distinguished. *)

(** [2 ** e] for an integer [e] of either sign. *)
Definition pow2 (e : Z) : Qc :=
  if 0 <=? e then Qc_of_Z (2 ^ e) else (/ Qc_of_Z (2 ^ (- e)))%Qc.

(** The binary exponent of a positive number: the [e] with
    [pow2 e <= x < pow2 (e + 1)]. *)
Definition ilog2 (x : Qc) : Z :=
  if Qc_ltb x 1 then - Z.log2_up (Qceiling (/ x)%Qc) else Z.log2 (Qfloor x).

(** Rounding to the nearest integer, ties to the even one. *)
Definition round_even (y : Qc) : Z :=
  let f := Qfloor y in
  let r := (y - Qc_of_Z f)%Qc in
  if Qc_ltb r (Q2Qc (1 # 2)) then f
  else if Qc_ltb (Q2Qc (1 # 2)) r then f + 1
  else if Z.even f then f else f + 1.

(** The double nearest to an exact result. *)
Definition round_double (x : Qc) : pyfloat :=
  if decide (x = 0%Qc) then Fin 0
  else
    let a := if Qc_ltb x 0 then (- x)%Qc else x in
    let e := Z.max (ilog2 a - 52) (-1074) in
    let v := (Qc_of_Z (round_even (a / pow2 e)) * pow2 e)%Qc in
    if Qc_ltb v (pow2 1024)
    then Fin (if Qc_ltb x 0 then - v else v)%Qc
    else if Qc_ltb x 0 then NInf else PInf.

Definition fsign (x : pyfloat) : Z :=
  match x with
  | Fin q => Z.sgn (Qnum q)
  | PInf => 1
  | NInf => -1
  | NaN => 0
  end.

Definition inf_of_sign (s : Z) : pyfloat :=
  if 0 <? s then PInf else if s <? 0 then NInf else NaN.

Definition fneg (x : pyfloat) : pyfloat :=
  match x with
  | Fin q => Fin (- q)
  | PInf => NInf
  | NInf => PInf
  | NaN => NaN
  end.

(** [x + y], [x - y], [x * y] on doubles. *)
Definition fadd (x y : pyfloat) : pyfloat :=
  match x, y with
  | NaN, _ | _, NaN => NaN
  | Fin a, Fin b => round_double (a + b)
  | PInf, NInf | NInf, PInf => NaN
  | PInf, _ | _, PInf => PInf
  | NInf, _ | _, NInf => NInf
  end.

Definition fsub (x y : pyfloat) : pyfloat := fadd x (fneg y).

Definition fmul (x y : pyfloat) : pyfloat :=
  match x, y with
  | NaN, _ | _, NaN => NaN
  | Fin a, Fin b => round_double (a * b)
  | _, _ => inf_of_sign (fsign x * fsign y)
  end.

(** [x / y] on NumPy doubles: a zero divisor gives an infinity or NaN and
    raises nothing. *)
Definition fdiv (x y : pyfloat) : pyfloat :=
  match x, y with
  | NaN, _ | _, NaN => NaN
  | Fin a, Fin b =>
      if decide (b = 0%Qc) then inf_of_sign (fsign x) else round_double (a / b)
  | Fin _, _ => Fin 0
  | _, Fin b => inf_of_sign (fsign x * (if Qc_ltb b 0 then -1 else 1))
  | _, _ => NaN
  end.

(** The conversion of an integer to a double. *)
Definition float_of_int (z : Z) : pyfloat := round_double (Qc_of_Z z).

(** [x < y] on doubles: false when either is NaN. *)
Definition float_lt (x y : pyfloat) : bool :=
  match x, y with
  | NaN, _ | _, NaN => false
  | Fin a, Fin b => Qc_ltb a b
  | NInf, (Fin _ | PInf) | Fin _, PInf => true
  | _, _ => false
  end.

(** NumPy's [floor_divide] on doubles (the algorithm of [npy_divmod], which
    is also that of Python's [float.__floordiv__] for a nonzero divisor):
    [fmod] is exact; the quotient of the difference is rounded, corrected by
    one where the remainder has the sign opposite to the divisor's, and
    snapped to the nearest whole number.  The difference [div - floordiv]
    lies in [[0, 1)] and is computed exactly, and so is [floordiv + 1] on
    the one path that adds it.  A zero divisor gives the IEEE quotient. *)
Definition float_floor_divide (x y : pyfloat) : pyfloat :=
  match x, y with
  | NaN, _ | _, NaN => NaN
  | Fin a, Fin b =>
      if decide (b = 0%Qc) then inf_of_sign (fsign x)
      else
        let modulus := (a - Qc_of_Z (int_of_Qc (a / b)) * b)%Qc in
        let div := fdiv (fsub (Fin a) (Fin modulus)) (Fin b) in
        let div :=
          if negb (bool_decide (modulus = 0%Qc)) && xorb (Qc_ltb b 0) (Qc_ltb modulus 0)
          then fsub div (Fin 1) else div in
        match div with
        | Fin d =>
            if decide (d = 0%Qc) then Fin 0
            else
              let floordiv := Qfloor d in
              if Qc_ltb (Q2Qc (1 # 2)) (d - Qc_of_Z floordiv)
              then Fin (Qc_of_Z (floordiv + 1)) else Fin (Qc_of_Z floordiv)
        | _ => div
        end
  | Fin a, _ =>
      if negb (bool_decide (a = 0%Qc)) && xorb (fsign y <? 0) (Qc_ltb a 0)
      then Fin (-1) else Fin 0
  | _, _ => NaN
  end.

(** [sorted(l)] on integers. *)
Definition sorted (l : list Z) : list Z := merge_sort Z.le l.

(** [sorted(l, reverse=True)] on integers. *)
Definition sorted_reverse (l : list Z) : list Z := merge_sort (flip Z.le) l.

(** [np.median] of a flat list of integer samples: the middle element of
    the sorted samples as a double, the mean of the two middle ones, added
    and halved in double precision, when their number is even, and NaN
    when there are none. *)
Definition median (l : list Z) : pyfloat :=
  let s := sorted l in
  let n := length s in
  if decide (n = 0%nat) then NaN
  else if Nat.even n
  then match s !! (n / 2 - 1)%nat, s !! (n / 2)%nat with
       | Some a, Some b => fdiv (fadd (float_of_int a) (float_of_int b)) (Fin (Qc_of_Z 2))
       | _, _ => NaN
       end
  else match s !! (n / 2)%nat with
       | Some a => float_of_int a
       | None => NaN
       end.

End Py.
Import Py.

#[global] Instance result_ret : MRet result := @Ok.
#[global] Instance result_bind : MBind result := λ A B k r, Py.bind r k.
#[global] Instance result_fmap : FMap result := λ A B f r,
  match r with
  | Ok a => Ok (f a)
  | Raise e => Raise e
  end.

(** ** imageops.py *)

Module ImageOps.

(** A two-dimensional array: [img[y][x]] is sample [x] of row [y]. *)
Abbreviation image := (list (list Z)).

(** The integer sample types the module distinguishes. *)
Inductive dtype : Type := UInt8 | UInt16 | Int32.

#[global] Instance dtype_eq_dec : EqDecision dtype.
Proof. solve_decision. Defined.

(** [np.iinfo(itype).max] *)
Definition iinfo_max (t : dtype) : Z :=
  match t with
  | UInt8 => 255
  | UInt16 => 65535
  | Int32 => 2147483647
  end.

(** [np.iinfo(itype).min] *)
Definition iinfo_min (t : dtype) : Z :=
  match t with
  | UInt8 | UInt16 => 0
  | Int32 => -2147483648
  end.

(** [img.max()]: NumPy refuses to reduce an array without elements. *)
Definition img_max (img : image) : result Z :=
  match concat img with
  | [] => Raise ValueError
  | p :: ps => Ok (foldr Z.max p ps)
  end.

(** [np.digitize(x, bins, right=True)] for increasing [bins]: the index [i]
    with [bins[i-1] < x <= bins[i]], i.e. the position of the first bin
    that is at least [x] ([len(bins)] when there is none). *)
Fixpoint digitize_right (x : Z) (bins : list Z) : nat :=
  match bins with
  | [] => 0%nat
  | b :: bins' => if x <=? b then 0%nat else S (digitize_right x bins')
  end.

Definition types : list (dtype * Z) :=
  (λ itype, (itype, iinfo_max itype)) <$> [UInt8; UInt16; Int32].

Definition _get_bit_depth (img : image) : result (dtype * Z) :=
  m ← img_max img;
  getitem types (Z.of_nat (digitize_right m (snd <$> types))).

(** *** Morphology *)

(** [np.where(img < threshold, 255, 0).astype(np.uint8)], or the image as
    it is for a negative threshold. *)
Definition binarize (img : image) (threshold : Z) : image :=
  if threshold >=? 0
  then fmap (M:=list) (fmap (M:=list) (λ p : Z, if p <? threshold then 255 else 0)) img
  else img.

(** The arguments of [cv.getStructuringElement]: the shape, the size of the
    box and the anchor. *)
Inductive kernel_shape : Type := MORPH_ELLIPSE.

Record kernel : Type := Kernel {
  shape : kernel_shape;
  ksize : Z * Z;
  anchor : Z * Z
}.

Definition _get_kernel (size : Z) : kernel :=
  {| shape := MORPH_ELLIPSE; ksize := (size * 2 + 1, size * 2 + 1); anchor := (size, size) |}.

Section Morphology.
(** [cv.erode], [cv.dilate] and [cv.morphologyEx(..., cv.MORPH_CLOSE, ...)]
    with a kernel and a number of iterations. *)
Variables cv_erode cv_dilate cv_close : image → kernel → Z → image.

Definition close (img : image) (size iterations : Z) : image :=
  if (size >? 0) && (iterations >? 0)
  then cv_close img (_get_kernel size) iterations
  else img.

Definition dilate (img : image) (size iterations : Z) : image :=
  if (size >? 0) && (iterations >? 0)
  then cv_dilate img (_get_kernel size) iterations
  else img.

Definition erode (img : image) (size iterations : Z) : image :=
  if (size >? 0) && (iterations >? 0)
  then cv_erode img (_get_kernel size) iterations
  else img.
End Morphology.

(** *** Background subtraction *)

(** Integer arithmetic of a sample type wraps around. *)
Definition wrap (t : dtype) (z : Z) : Z :=
  let span := iinfo_max t - iinfo_min t + 1 in
  (z - iinfo_min t) mod span + iinfo_min t.

Definition in_dtype (t : dtype) (z : Z) : Prop := iinfo_min t ≤ z ≤ iinfo_max t.

(** [img.shape] of a two-dimensional array. *)
Definition height (img : image) : Z := Z.of_nat (length img).
Definition width (img : image) : Z :=
  match img with
  | [] => 0
  | row :: _ => Z.of_nat (length row)
  end.

(** [img[y][x]] for a row and a column that are in range. *)
Definition sample (img : image) (y x : nat) : option Z :=
  row ← img !! y; row !! x.

(** The rows of an array all have the width of the first. *)
Definition rectangular (img : image) : Prop :=
  Forall (λ row, Z.of_nat (length row) = width img) img.

Definition same_shape (a b : image) : bool :=
  bool_decide (length <$> a = length <$> b).

(** NumPy's broadcasting of two-dimensional arrays: along an axis the two
    lengths are equal or one of them is 1, and the array of length 1 is
    repeated. *)
Definition broadcast_dim (n m : nat) : option nat :=
  if decide (n = m) then Some n
  else if decide (n = 1%nat) then Some m
  else if decide (m = 1%nat) then Some n
  else None.

Definition broadcast_to (h w : nat) (img : image) : image :=
  let rows :=
    match img with
    | [row] => replicate h row
    | _ => img
    end in
  (λ row, match row with [p] => replicate w p | _ => row end) <$> rows.

(** Elementwise binary operation on two arrays: on arrays of one shape
    sample by sample, on arrays whose shapes broadcast after broadcasting
    them; shapes that do not broadcast raise ValueError. *)
Definition elementwise {A} (f : Z → Z → A) (a b : image) : result (list (list A)) :=
  if same_shape a b then Ok (zip_with (zip_with f) a b)
  else
    match broadcast_dim (length a) (length b),
          broadcast_dim (Z.to_nat (width a)) (Z.to_nat (width b)) with
    | Some h, Some w =>
        Ok (zip_with (zip_with f) (broadcast_to h w a) (broadcast_to h w b))
    | _, _ => Raise ValueError
    end.

(** [a[mask]]: the selected samples, row by row. *)
Definition select (a : image) (mask : list (list bool)) : list Z :=
  fst <$> filter (λ pm, snd pm = true) (zip (concat a) (concat mask)).

(** [np.minimum(img, np.where(mask == 255, img_type[1], 0).astype(img_type[0]))];
    mask should have black background, white foreground. *)
Definition apply_mask (img mask : image) : result image :=
  img_type ← _get_bit_depth img;
  elementwise (λ p m, Z.min p (if m =? 255 then snd img_type else 0)) img mask.

Section Subtract.
(** [(p * (m / s)).astype(t)] for one sample [p] and the two masked medians
    [m] and [s]; NumPy computes [np_scale_sample] below. *)
Variable scale_sample : dtype → pyfloat → pyfloat → Z → Z.

(** [(minuend_image > threshold_px) & (subtrahend_image > threshold_px)]
    with [threshold_px = _get_bit_depth(minuend_image)[1] * threshold], a
    product of doubles; the samples are compared as doubles. *)
Definition intersection_mask (minuend_image subtrahend_image : image)
    (threshold : pyfloat) : result (list (list bool)) :=
  depth ← _get_bit_depth minuend_image;
  let threshold_px := fmul (float_of_int (snd depth)) threshold in
  let above := λ p : Z, float_lt threshold_px (float_of_int p) in
  elementwise (λ p q, above p && above q) minuend_image subtrahend_image.

(** The body of [if scale:]: the subtrahend scaled by the quotient of the
    medians of the two images over the pixels that exceed the threshold in
    both, converted back to the sample type [t]. *)
Definition scale_subtrahend (t : dtype) (minuend_image subtrahend_image : image)
    (threshold : pyfloat) : result image :=
  intersection_mask ← intersection_mask minuend_image subtrahend_image threshold;
  let minuend_masked_median := median (select minuend_image intersection_mask) in
  let subtrahend_masked_median := median (select subtrahend_image intersection_mask) in
  Ok (fmap (M:=list)
        (fmap (M:=list)
           (scale_sample t minuend_masked_median subtrahend_masked_median))
        subtrahend_image).

(** NOTE in the source: the two images are assumed to have the same bit
    depth; [t] is the sample type of both. *)
Definition subtract (t : dtype) (minuend_image subtrahend_image : image)
    (scale : bool) (threshold : pyfloat) : result image :=
  subtrahend_image ←
    (if scale then scale_subtrahend t minuend_image subtrahend_image threshold
     else Ok subtrahend_image);
  (* subtract without underflow *)
  elementwise (λ m s, if m <? s then 0 else wrap t (m - s))
    minuend_image subtrahend_image.
End Subtract.

(** The default of [threshold], the double nearest to 0.005. *)
Definition default_threshold : pyfloat := round_double (Q2Qc (5 # 1000)).

(** [x.astype(t)] for a double [x]: the value truncated towards zero where
    that lies in the range of [t].  What the conversion makes of NaN, of an
    infinity and of a value outside the range is not defined by C and is
    left to the compiler and the processor: [cast]. *)
Definition astype (cast : dtype → pyfloat → Z) (t : dtype) (x : pyfloat) : Z :=
  match x with
  | Fin q =>
      let z := int_of_Qc q in
      if (iinfo_min t <=? z) && (z <=? iinfo_max t) then z else cast t x
  | _ => cast t x
  end.

(** [(p * (m / s)).astype(t)]: the quotient of the medians is a double, the
    sample is converted to a double and multiplied by it, and the product,
    a double again, is converted to the sample type. *)
Definition np_scale_sample (cast : dtype → pyfloat → Z) (t : dtype) (m s : pyfloat)
    (p : Z) : Z :=
  astype cast t (fmul (float_of_int p) (fdiv m s)).

(** One conversion of the operands that C leaves open, for the examples:
    the truncated value reduced into the range of [t] the way the integer
    arithmetic of [t] reduces it, and 0 for NaN and the infinities. *)
Definition wrapping_cast (t : dtype) (x : pyfloat) : Z :=
  match x with
  | Fin q => wrap t (int_of_Qc q)
  | _ => wrap t 0
  end.

(** *** Scoring *)

(** 64-bit signed integers wrap around. *)
Definition wrap64 (z : Z) : Z := (z + 2 ^ 63) mod 2 ^ 64 - 2 ^ 63.

(** [img[y][x]] *)
Definition pixel (img : image) (y x : Z) : result Z :=
  row ← getitem img y;
  getitem row x.

(** The positions [(x, y)] the two nested loops of [score] keep for the
    maximum at row [coord_y], column [coord_x], in the order they visit
    them. *)
Definition circle_positions (radius height width coord_y coord_x : Z) : list (Z * Z) :=
  let x_min := Z.max (coord_x - radius) 0 in
  let x_max := Z.min (coord_x + radius) width in (* bounding box *)
  let y_min := Z.max (coord_y - radius) 0 in
  let y_max := Z.min (coord_y + radius) height in
  x ← range x_min (x_max + 1);
  y ← range y_min (y_max + 1);
  if (x - coord_x) ^ 2 + (y - coord_y) ^ 2 >? radius ^ 2 (* Pythagorean theorem *)
  then []
  else [(x, y)].

(** The list [points] at the end of the two loops. *)
Definition points (img : image) (radius coord_y coord_x : Z) : result (list Z) :=
  traverse (λ xy, pixel img xy.2 xy.1)
    (circle_positions radius (height img) (width img) coord_y coord_x).

(** [sorted(points, reverse=True)[:int(len(points)*threshold_pct)]] *)
Definition relevant_points (threshold_pct : Qc) (points : list Z) : list Z :=
  slice_to (sorted_reverse points)
    (int_of_Qc (Qc_of_Z (Z.of_nat (length points)) * threshold_pct)%Qc).

(** [np.sum(l, dtype=np.int64)] *)
Definition np_sum_int64 (l : list Z) : Z :=
  foldl (λ acc p, wrap64 (acc + p)) 0 l.

(** One iteration of the loop over [coordinates]. *)
Definition score_step (img : image) (radius : Z) (threshold_pct : Qc)
    (total : Z) (coordinate : Z * Z) : result Z :=
  let '(coord_y, coord_x) := coordinate in
  pts ← points img radius coord_y coord_x;
  Ok (wrap64 (total + np_sum_int64 (relevant_points threshold_pct pts))).

Definition score_from (img : image) (radius : Z) (threshold_pct : Qc)
    (coordinates : list (Z * Z)) : result Z :=
  foldM (score_step img radius threshold_pct) 0 coordinates.

Definition default_threshold_pct : Qc := Q2Qc (1 # 20).
Definition default_threshold_rel : Qc := Q2Qc (1 # 10).

Section Score.
(** [skimage.feature.peak_local_max(img, min_distance, num_peaks,
    threshold_rel)]: the (row, column) pairs of the detected maxima. *)
Variable peak_local_max : image → Z → Z → Qc → list (Z * Z).

Definition _get_local_maxima (img : image) (count spacing : Z) (threshold_rel : Qc)
    : list (Z * Z) :=
  peak_local_max img spacing count threshold_rel.

Definition score (img : image) (count radius : Z) (threshold_pct : Qc) : result Z :=
  let coordinates := _get_local_maxima img count radius default_threshold_rel in
  score_from img radius threshold_pct coordinates.
End Score.

(** A 17×17 image that is dark except for a peak of 2000 at its centre,
    row 8 and column 8, and a sample of 1000 in the same row at column 16,
    eight pixels away.  The centre is the only pixel that lies eight pixels
    inside every border, and it is the largest sample. *)
Definition rim_image : image :=
  imap (λ y row,
      imap (λ x _,
          if decide ((y, x) = (8, 8)%nat) then 2000
          else if decide ((y, x) = (8, 16)%nat) then 1000 else 0) row)
    (replicate 17 (replicate 17 0)).

(** The detector on a fixed image, as a function that ignores its
    arguments. *)
Definition detected (coordinates : list (Z * Z)) : image → Z → Z → Qc → list (Z * Z) :=
  λ _ _ _ _, coordinates.

(** *** Aspect-ratio mask *)

(** A contour as OpenCV reports it, the list of its points [(x, y)], with
    what OpenCV computes from it: the axes [cv.fitEllipse] returns for it
    when it has the points to fit an ellipse to (the source names them
    [(minor, major)]) and the pixels [(x, y)] that drawing it with
    [cv.FILLED] covers. *)
Record contour : Type := Contour {
  points_of : list (Z * Z);
  ellipse_axes : Qc * Qc;
  filled : list (Z * Z)
}.

(** The axes of [cv.fitEllipse(contour)]: OpenCV raises [cv2.error] for a
    contour of fewer than five points. *)
Definition fitEllipse (c : contour) : result (Qc * Qc) :=
  if (length (points_of c) <? 5)%nat then Raise CvError else Ok (ellipse_axes c).

(** Python's [a / b] on finite floats, up to the rounding of the quotient. *)
Definition truediv (a b : Qc) : result Qc :=
  if decide (b = 0%Qc) then Raise ZeroDivisionError else Ok (a / b)%Qc.

(** [[c for c in cs if p(c)]] for a predicate that may raise. *)
Fixpoint filterM {A} (p : A → result bool) (cs : list A) : result (list A) :=
  match cs with
  | [] => Ok []
  | c :: cs' =>
      keep ← p c;
      rest ← filterM p cs';
      Ok (if keep : bool then c :: rest else rest)
  end.

(** [np.ones(shape, dtype=np.uint8) * 255] *)
Definition ones_times_255 (img : image) : image :=
  fmap (M:=list) (fmap (M:=list) (λ _, 255)) img.

(** [cv.drawContours(canvas, contours, -1, color, cv.FILLED)] on a
    single-channel canvas: every pixel covered by one of the contours is
    set to the first component of [color]; OpenCV ignores the remaining
    components when the image has one channel. *)
Definition drawContours (canvas : image) (contours : list contour) (color : Z * Z * Z)
    : image :=
  imap (λ y row,
      imap (λ x p,
          if bool_decide (Exists (λ c, (Z.of_nat x, Z.of_nat y) ∈ filled c) contours)
          then color.1.1 else p) row)
    canvas.

Section AspectMask.
(** [cv.findContours(img, cv.RETR_EXTERNAL, cv.CHAIN_APPROX_SIMPLE)] *)
Variable findContours : image → list contour.
(** The rounding of an exact result to the double that represents it. *)
Variable rounded : Qc → Qc.

Definition _aspect_is_between (c : contour) (upper lower : Qc) : result bool :=
  '(minor, major) ← fitEllipse c;
  aspect_ratio ← rounded <$> truediv major minor;
  Ok (Qc_ltb aspect_ratio upper && Qc_ltb lower aspect_ratio).

Definition get_aspect_mask (img : image) (target_ratio error_bound : Qc)
    : result image :=
  let contours := findContours img in
  lower ← rounded <$> truediv target_ratio (rounded (1 + error_bound))%Qc;
  let upper := rounded (target_ratio * rounded (1 + error_bound))%Qc in
  contours ← filterM (λ c, _aspect_is_between c upper lower) contours;
  Ok (drawContours (ones_times_255 img) contours (0, 255, 0)).
End AspectMask.

(** An example: a 4×12 image with a bright 2×10 blob, and the one contour
    OpenCV reports for it, the four corners of the blob, which cover the
    blob when filled.  Four points are too few for [cv.fitEllipse]. *)
Definition blob_image : image :=
  imap (λ y row,
      imap (λ x _,
          if bool_decide (1 ≤ y ≤ 2 ∧ 1 ≤ x ≤ 10)%nat then 255 else 0) row)
    (replicate 4 (replicate 12 0)).

Definition blob_contour : contour :=
  {| points_of := [(1, 1); (1, 2); (10, 2); (10, 1)];
     ellipse_axes := (Qc_of_Z 2, Qc_of_Z 10);
     filled := x ← range 1 11; y ← range 1 3; [(x, y)] |}.

(** A second example: a 7×55 image with a bright hexagonal blob, rows 1 to
    5, which spans columns 1 to 53 in row 3 and one column less at either
    end with every row away from it.  Its contour has six points, the
    corners of the hexagon, and filling it covers the blob.  The six points
    lie on the ellipse with centre (27, 3) and axes 10.4 and 52,
    [(x - 27)² / 26² + (y - 3)² / 5.2² = 1], which is therefore the ellipse
    fitted to them. *)
Definition hexagon_row (y : Z) : list Z :=
  range (1 + Z.abs (y - 3)) (54 - Z.abs (y - 3)).

Definition hexagon_image : image :=
  imap (λ y row,
      imap (λ x _,
          if bool_decide (1 ≤ Z.of_nat y ≤ 5 ∧ Z.of_nat x ∈ hexagon_row (Z.of_nat y))
          then 255 else 0) row)
    (replicate 7 (replicate 55 0)).

Definition hexagon_contour : contour :=
  {| points_of := [(3, 1); (1, 3); (3, 5); (51, 5); (53, 3); (51, 1)];
     ellipse_axes := (Q2Qc (52 # 5), Qc_of_Z 52);
     filled := y ← range 1 6; x ← hexagon_row y; [(x, y)] |}.

(** *** The mask pipelines *)

(** [seq[k:]] *)
Definition slice_from {A} (l : list A) (k : Z) : list A :=
  if k <? 0 then drop (Z.to_nat (Z.of_nat (length l) + k)) l
  else drop (Z.to_nat k) l.

(** [seq[i] = a], with the index read as in [getitem]. *)
Definition setitem {A} (l : list A) (i : Z) (a : A) : result (list A) :=
  let n := Z.of_nat (length l) in
  let j := if i <? 0 then i + n else i in
  if (0 <=? j) && (j <? n) then Ok (<[Z.to_nat j := a]> l) else Raise IndexError.

(** [img[y][x] = v] *)
Definition set_pixel (img : image) (y x v : Z) : result image :=
  row ← getitem img y;
  row ← setitem row x v;
  setitem img y row.

(** [np.zeros_like(img)] *)
Definition zeros_like (img : image) : image :=
  fmap (M:=list) (fmap (M:=list) (λ _, 0)) img.

(** [img.min()] *)
Definition img_min (img : image) : result Z :=
  match concat img with
  | [] => Raise ValueError
  | p :: ps => Ok (foldr Z.min p ps)
  end.

(** [np.subtract(_get_bit_depth(img)[1], img)] on samples of type [t]. *)
Definition invert (t : dtype) (img : image) : result image :=
  img_type ← _get_bit_depth img;
  Ok (fmap (M:=list) (fmap (M:=list) (λ p, wrap t (snd img_type - p))) img).

Section Pipelines.
(** The library calls of the pipelines: [peak_local_max] as in [Section
    Score]; the three morphological operations as in [Section Morphology];
    [cv.findContours(img, cv.RETR_EXTERNAL, cv.CHAIN_APPROX_NONE)];
    [cv.contourArea]. *)
Variable peak_local_max : image → Z → Z → Qc → list (Z * Z).
Variables cv_erode cv_dilate cv_close : image → kernel → Z → image.
Variable findContours_none : image → list contour.
Variable contourArea : contour → Qc.
(** The floating-point steps, sample by sample: [scale_sample] as in
    [Section Subtract] (NumPy's is [np_scale_sample]), and
    [(d * (img_type[1] / img.max())).astype(img_type[0])] for a difference
    [d] of a sample and the minimum. *)
Variable scale_sample : dtype → pyfloat → pyfloat → Z → Z.
Variable rescale_sample : dtype * Z → Z → Z → Z.

Definition circle_local_maxima (img : image) (count discard : Z) (min_pct : Qc)
    (radius : Z) : result image :=
  let coordinates :=
    _get_local_maxima peak_local_max img (count + discard) radius min_pct in
  maxima ←
    foldM (λ maxima coordinate, set_pixel maxima coordinate.1 coordinate.2 255)
      (zeros_like img) (slice_from coordinates discard);
  Ok (dilate cv_dilate maxima radius 1).

Definition get_contours_by_area (img : image) (threshold lower upper : Z)
    : list contour :=
  let binarized_img := binarize img threshold in
  let contours := findContours_none binarized_img in
  filter (λ c, Qc_ltb (Qc_of_Z lower) (contourArea c)
               && Qc_ltb (contourArea c) (Qc_of_Z upper) = true) contours.

(** [_get_mask]: the steps in turn.  The images [show] writes when asked to
    are not part of the embedding, but the masked image of the last [show]
    is computed whether it is shown or not. *)
Definition _get_mask (img : image) (steps : list (image → result image))
    : result image :=
  img_i ← foldM (λ img_i step, step img_i) img steps;
  _ ← apply_mask img img_i;
  Ok img_i.

Definition get_size_mask (img : image) (erosions threshold lower upper : Z)
    : result image :=
  let contours := get_contours_by_area img threshold lower upper in
  _get_mask img
    [ λ img_i, Ok (drawContours (ones_times_255 img_i) contours (0, 255, 0));
      λ img_i, Ok (erode cv_erode img_i 4 erosions) ].

(** [rescale_brightness] on samples of type [t]. *)
Definition rescale_brightness (t : dtype) (img : image) : result image :=
  img_type ← _get_bit_depth img;
  lowest ← img_min img;
  highest ← img_max img;
  Ok (fmap (M:=list)
        (fmap (M:=list) (λ p, rescale_sample img_type highest (wrap t (p - lowest))))
        img).

(** [get_fish_mask] for images of sample type [t] (both callers read them
    as [np.uint16]).  [mask_file] holds the mask read from [mask_filename]
    when that names a file; [subtr_img] is empty when there is no image to
    subtract. *)
Definition get_fish_mask (t : dtype) (bf_img fl_img : image) (particles : bool)
    (mask_file : option image) (subtr_img : image) : result image :=
  fl_img ←
    (if decide (subtr_img ≠ [])
     then subtract scale_sample t fl_img subtr_img true default_threshold
     else Ok fl_img);
  let particle_steps : list (image → result image) :=
    [ λ img_i, apply_mask fl_img img_i;
      λ img_i, circle_local_maxima img_i 10 5 (Q2Qc (5 # 100)) 8 ] in
  let steps : list (image → result image) :=
    match mask_file with
    | Some mask_img =>
        if particles
        then [ λ img_i, apply_mask fl_img mask_img;
               λ img_i, circle_local_maxima img_i 10 5 (Q2Qc (5 # 100)) 8 ]
        else [ λ img_i, Ok mask_img ]
    | None =>
        [ rescale_brightness t;
          λ img_i, Ok (binarize img_i (2 ^ 14));
          λ img_i,
            size_mask ← get_size_mask bf_img 10 (2 ^ 12) (2 ^ 15) (2 ^ 32);
            apply_mask img_i size_mask;
          λ img_i, Ok (close cv_close img_i 6 16);
          λ img_i, Ok (dilate cv_dilate img_i 5 6);
          λ img_i, get_size_mask img_i 4 (-1) (2 ^ 15) (2 ^ 19);
          invert UInt8 ]
        ++ (if particles then particle_steps else [])
    end in
  mask ← _get_mask bf_img steps;
  _ ← apply_mask fl_img mask;
  Ok mask.
End Pipelines.

End ImageOps.

(** ** analyze.py *)

Module Analyze.
Import ImageOps.

(** What [Image.get_raw_value] caches in [self.value]: a positive score (a
    [numpy.int64]) or [np.nan] (a Python [float]). *)
Inductive raw_value : Type :=
| Score (s : Z)
| Missing.

(** The fields of an [Image] record that normalisation reads and writes.
    The lazily loaded images and mask are files on disk; what the scoring
    pipeline makes of them is [Section Pipeline]'s [image_score]. *)
Record Image : Type := mkImage {
  fl_filename : string;
  plate : string;
  xy : Z;
  group : string;
  normalized_value : option pyfloat
}.

Definition set_normalized_value (img : Image) (v : pyfloat) : Image :=
  {| fl_filename := fl_filename img; plate := plate img; xy := xy img;
     group := group img; normalized_value := Some v |}.

(** A line of the report on standard output. *)
Inductive line : Type :=
| ErrorLine (plate group : string) (value : raw_value) (control : pyfloat).

Definition no_control_wells : string :=
  "No control wells found. Please supply a --plate-control, or modify the given value.".

Definition missing_xy (filename : string) : string :=
  "Filename " +:+ filename +:+ " missing needed xy information".

(** [score if score > 0 else np.nan] *)
Definition raw_of_score (score : Z) : raw_value :=
  if score >? 0 then Score score else Missing.

(** [raw * 100 // control].

    For a [numpy.int64] score the product is a wrapping [int64] product; it
    is converted to a double and divided by NumPy's [floor_divide] on
    doubles, which never raises: a zero divisor gives the IEEE quotient.
    For [np.nan], a Python float, both operations are Python's, and Python's
    floor division raises on a zero divisor before looking at the
    dividend. *)
Definition floordiv_100 (raw : raw_value) (control : pyfloat) : result pyfloat :=
  match raw with
  | Missing =>
      match control with
      | Fin q => if decide (q = 0%Qc) then Raise ZeroDivisionError else Ok NaN
      | _ => Ok NaN
      end
  | Score s => Ok (float_floor_divide (float_of_int (wrap64 (s * 100))) control)
  end.

(** [val < cap] for a float [val] and an integer [cap]. *)
Definition float_lt_int (val : pyfloat) (cap : Z) : bool :=
  match val with
  | Fin q => Qc_ltb q (Qc_of_Z cap)
  | PInf => false
  | NInf => true
  | NaN => false
  end.

(** [val >= cap], the comparison in which the cap test is usually worded;
    the source evaluates [val < cap], which is not its negation for NaN. *)
Definition float_ge_int (val : pyfloat) (cap : Z) : bool :=
  match val with
  | Fin q => negb (Qc_ltb q (Qc_of_Z cap))
  | PInf => true
  | NInf => false
  | NaN => false
  end.

(** [np.nanmedian] of raw values: the median of those that are not NaN,
    NaN when there is none. *)
Definition nanmedian (l : list raw_value) : pyfloat :=
  median (omap (λ r, match r with Score s => Some s | Missing => None end) l).

(** [list(dict.fromkeys(l))]: duplicates removed, first occurrences kept in
    order. *)
Fixpoint dedup (l : list string) : list string :=
  match l with
  | [] => []
  | x :: l' => x :: filter (λ y, y ≠ x) (dedup l')
  end.

(** [str.isprintable] for one character.  A character of a label is its
    code point, and the code points of a label are taken to lie below 256
    (the plate file is decoded before it is cleaned).  Of these the
    printable ones are the ASCII characters from the space to the tilde and
    the characters from 161 on except the soft hyphen, 173; the no-break
    space, 160, is not printable. *)
Definition isprintable (c : Ascii.ascii) : bool :=
  let n := Ascii.nat_of_ascii c in
  (32 <=? n)%nat && (n <? 127)%nat
  || (161 <=? n)%nat && negb (n =? 173)%nat.

Fixpoint lstrip (l : list Ascii.ascii) : list Ascii.ascii :=
  match l with
  | c :: l' => if decide (c = Ascii.Space) then lstrip l' else l
  | [] => []
  end.

(** [''.join(c for c in s if c.isprintable()).strip()]: of the printable
    characters below 256 only the space is white space. *)
Definition _clean (s : string) : string :=
  let printable := filter (λ c, isprintable c = true) (String.list_ascii_of_string s) in
  String.string_of_list_ascii (reverse (lstrip (reverse (lstrip printable)))).

(** [del l[0]] *)
Definition del_first {A} (l : list A) : result (list A) :=
  match l with
  | [] => Raise IndexError
  | _ :: l' => Ok l'
  end.

Definition count_cells (schematic : list (list string)) : Z :=
  foldr Z.add 0 ((λ row, Z.of_nat (length row)) <$> schematic).

Definition mismatch (count target_count : Z) : string :=
  "Schematic does not have same number of cells (" +:+ pretty count +:+
  ") as images provided (" +:+ pretty target_count +:+ ")".

(** What [get_schematic] returns: one list of labels, or the rows. *)
Inductive schematic : Type :=
| Flat (wells : list string)
| Grid (rows : list (list string)).

(** [plate_ignore] after [if '' not in plate_ignore: plate_ignore.append('')] *)
Definition with_empty (plate_ignore : list string) : list string :=
  if decide ("" ∈ plate_ignore) then plate_ignore else plate_ignore ++ [""].

(** [[[_clean(well) for well in row if well not in plate_ignore] for row in rows]] *)
Definition read_rows (plate_ignore : list string) (rows : list (list string))
    : list (list string) :=
  (λ row : list string, _clean <$> filter (λ well, well ∉ plate_ignore) row) <$> rows.

Section Schematic.
(** [keyence.LAYOUT_DEFAULT]: the labels of the default layout, one per
    well. *)
Variable LAYOUT_DEFAULT : list string.

(** [platefile] is [None] when no file is given and otherwise holds the
    rows [csv.reader] yields for the file. *)
Definition get_schematic (platefile : option (list (list string))) (target_count : Z)
    (plate_ignore : list string) (flat : bool) : result schematic :=
  match platefile with
  | None => Ok (Flat LAYOUT_DEFAULT)
  | Some rows =>
      let plate_ignore := with_empty plate_ignore in
      let schematic := read_rows plate_ignore rows in
      let count := count_cells schematic in
      schematic ←
        (if decide (count ≠ target_count) then
           (* try removing first row and first column, see if then it matches up *)
           schematic ← del_first schematic;
           schematic ← traverse del_first schematic;
           let count := count_cells schematic in
           if decide (count ≠ target_count)
           then Raise (UserError (mismatch count target_count))
           else Ok schematic
         else Ok schematic);
      Ok (if flat then Flat (concat schematic) else Grid schematic)
  end.
End Schematic.

(** The plate and position of the file names of an example, listed by hand:
    an instance of [Section Pipeline]'s [xy_search] for examples. *)
Definition xy_table (table : list (string * (string * Z))) (filename : string)
    : option (string * Z) :=
  match list_find (λ entry, entry.1 = filename) table with
  | Some (_, (_, found)) => Some found
  | None => None
  end.

(** The scores of the files of an example, listed by hand (zero for a file
    that is not listed): an instance of [Section Pipeline]'s [image_score]. *)
Definition score_table (table : list (string * Z)) (filename : string) : Z :=
  match list_find (λ entry, entry.1 = filename) table with
  | Some (_, (_, found)) => found
  | None => 0
  end.

Section Pipeline.
(** [re.search(r'([a-zA-Z0-9]+)_XY([0-9][0-9])_', filename)]: the plate
    name and the position when the file name has them. *)
Variable xy_search : string → option (string * Z).
(** [imageops.score(imageops.apply_mask(fl_img, mask))] for the images
    stored under a file name. *)
Variable image_score : string → Z.
(** [re.compile(group_regex).search(group)], as a truth value. *)
Variable pattern_search : string → bool.

(** [Image.__init__] *)
Definition new_Image (filename group : string) : result Image :=
  match xy_search filename with
  | None => Raise (UserError (missing_xy filename))
  | Some (plate, xy) =>
      Ok {| fl_filename := filename; plate := plate; xy := xy; group := group;
            normalized_value := None |}
  end.

(** [Image.get_raw_value], from the score of the images of the record.
    The source loads the images, builds the mask and scores them when the
    raw value is first asked for, and keeps the result; [raw_value_of]
    below is that computation.  Here the score is given with the file
    name, so the embedding of the run starts where loading and scoring have
    returned; what they can raise is not part of it. *)
Definition get_raw_value (img : Image) : raw_value :=
  raw_of_score (image_score (fl_filename img)).

(** [Image.normalize]: the updated record and what was printed. *)
Definition normalize (img : Image) (control_values : gmap string pyfloat) (cap : Z)
    : result (Image * list line) :=
  match control_values !! plate img with
  | None => Raise (KeyError (plate img))
  | Some control =>
      match floordiv_100 (get_raw_value img) control with
      | Ok val =>
          if cap >? 0
          then Ok (set_normalized_value img (if float_lt_int val cap then val else NaN), [])
          else Ok (set_normalized_value img val, [])
      | Raise ZeroDivisionError =>
          Ok (set_normalized_value img NaN,
              [ErrorLine (plate img) (group img) (get_raw_value img) control])
      | Raise e => Raise e
      end
  end.

Definition _calculate_control_values (images : list Image) (plate_control : list string)
    : result (gmap string pyfloat) :=
  let ctrl_imgs := filter (λ img, group img ∈ plate_control) images in
  let ctrl_vals :=
    foldl (λ (ctrl_vals : gmap string pyfloat) p,
        let ctrl_results :=
          get_raw_value <$> filter (λ img, plate img = p) ctrl_imgs in
        <[p := nanmedian ctrl_results]> ctrl_vals)
      ∅ (remove_dups (plate <$> ctrl_imgs)) in
  if decide (ctrl_vals = ∅) then Raise (UserError no_control_wells) else Ok ctrl_vals.

Definition included (plate_control : list string) (group : string) : bool :=
  bool_decide (group ∈ plate_control) || pattern_search group.

Definition quantify (imagefiles : list string) (plate_control : list string) (cap : Z)
    (schematic : list string) : result (list Image * list line) :=
  images ←
    traverse (λ fg, new_Image fg.1 fg.2)
      (filter (λ fg, included plate_control fg.2 = true) (zip imagefiles schematic));
  control_values ← _calculate_control_values images plate_control;
  normalized ← traverse (λ image, normalize image control_values cap) images;
  Ok (fst <$> normalized, concat (snd <$> normalized)).

(** [main] with [silent=True] and without a chart file: the result set, in
    the order the groups first occur in the schematic, and what the
    normalisation printed.  [get_schematic] is called with [flat=True], so
    the schematic is a flat list of labels. *)
Definition main (LAYOUT_DEFAULT : list string) (imagefiles : list string) (cap : Z)
    (platefile : option (list (list string))) (plate_control plate_ignore : list string)
    : result (list (string * list (option pyfloat)) * list line) :=
  schematic ←
    get_schematic LAYOUT_DEFAULT platefile (Z.of_nat (length imagefiles)) plate_ignore true;
  let schematic :=
    match schematic with
    | Flat wells => wells
    | Grid rows => concat rows
    end in
  let groups := dedup schematic in
  quantified ← quantify imagefiles plate_control cap schematic;
  let images : list Image := quantified.1 in
  let printed : list line := quantified.2 in
  Ok ((λ g, (g, normalized_value <$> filter (λ img, group img = g) images))
        <$> filter (λ g, included plate_control g = true) groups,
      printed).
End Pipeline.

(** *** The file name pattern *)

(** [[a-zA-Z0-9]] and [[0-9]]: explicit ranges, so ASCII letters and digits
    only. *)
Definition is_alnum (c : Ascii.ascii) : bool :=
  let n := Ascii.nat_of_ascii c in
  ((97 <=? n)%nat && (n <=? 122)%nat) || ((65 <=? n)%nat && (n <=? 90)%nat)
  || ((48 <=? n)%nat && (n <=? 57)%nat).

Definition is_digit (c : Ascii.ascii) : bool :=
  let n := Ascii.nat_of_ascii c in (48 <=? n)%nat && (n <=? 57)%nat.

Definition digit_value (c : Ascii.ascii) : Z := Z.of_nat (Ascii.nat_of_ascii c) - 48.

(** [_XY([0-9][0-9])_] at the head of [s], with [int] of the two digits. *)
Definition match_xy (s : list Ascii.ascii) : option Z :=
  match s with
  | u1 :: cx :: cy :: d1 :: d2 :: u2 :: _ =>
      if bool_decide (u1 = "_"%char ∧ cx = "X"%char ∧ cy = "Y"%char ∧ u2 = "_"%char)
         && is_digit d1 && is_digit d2
      then Some (10 * digit_value d1 + digit_value d2)
      else None
  | _ => None
  end.

(** The whole pattern at the head of [s]: the run of [[a-zA-Z0-9]+] is
    greedy, so the longest run is tried first and a shorter one only when
    the rest of the pattern does not follow the longer. *)
Fixpoint match_here (s : list Ascii.ascii) : option (list Ascii.ascii * Z) :=
  match s with
  | c :: s' =>
      if is_alnum c
      then match match_here s' with
           | Some (run, xy) => Some (c :: run, xy)
           | None =>
               match match_xy s' with
               | Some xy => Some ([c], xy)
               | None => None
               end
           end
      else None
  | [] => None
  end.

(** [re.search]: the match at the leftmost position that has one. *)
Fixpoint search (s : list Ascii.ascii) : option (list Ascii.ascii * Z) :=
  match match_here s with
  | Some m => Some m
  | None =>
      match s with
      | _ :: s' => search s'
      | [] => None
      end
  end.

(** [re.search(r'([a-zA-Z0-9]+)_XY([0-9][0-9])_', filename)] with
    [match.group(1)] and [int(match.group(2))]. *)
Definition re_xy_search (filename : string) : option (string * Z) :=
  (λ m : list Ascii.ascii * Z, (String.string_of_list_ascii m.1, m.2))
    <$> search (String.list_ascii_of_string filename).

(** ['{:02d}'.format(n)] *)
Definition format_02d (n : Z) : string :=
  let s := pretty n in
  if (String.length s <? 2)%nat then String "0" s else s.

(** The [v_file_prefix] that [Image.get_mask] passes on for the names of
    the images written to the log directory:
    ['{}_XY{:02d}'.format(self.plate, self.xy)]. *)
Definition v_file_prefix (img : Image) : string :=
  plate img +:+ "_XY" +:+ format_02d (xy img).

(** *** The raw value of a record from its images *)

Section RawValue.
(** The detector of [Section Score]. *)
Variable peak_local_max : image → Z → Z → Qc → list (Z * Z).

(** What [Image.get_raw_value] computes the first time it is called, for
    the fluorescence image and the mask of the record. *)
Definition raw_value_of (fl_img mask : image) : result raw_value :=
  fl_img_masked ← apply_mask fl_img mask;
  score ← score peak_local_max fl_img_masked 10 8 default_threshold_pct;
  Ok (raw_of_score score).
End RawValue.

End Analyze.

(** * Properties *)

Module FloatProps.
Import Py.

(** ** Double-precision arithmetic *)

Lemma Qc_ltb_lt (x y : Qc) : Qc_ltb x y = true ↔ (x < y)%Qc.
Proof.
  unfold Qc_ltb. rewrite Qclt_alt. by destruct (x ?= y)%Qc.
Qed.

Lemma Qc_ltb_ge (x y : Qc) : Qc_ltb x y = false ↔ (y ≤ x)%Qc.
Proof.
  rewrite <- not_true_iff_false, Qc_ltb_lt. split.
  - apply Qcnot_lt_le.
  - apply Qcle_not_lt.
Qed.

Lemma Qc_of_Z_pos (z : Z) : 0 < z → (0 < Qc_of_Z z)%Qc.
Proof. intros Hz. rewrite <- Z2Qc_inj_0. by apply (proj1 (Z2Qc_inj_lt 0 z)). Qed.

Lemma pow2_nonneg (e : Z) : 0 ≤ e → pow2 e = Qc_of_Z (2 ^ e).
Proof. intros He. unfold pow2. by replace (0 <=? e) with true by lia. Qed.

Lemma pow2_neg (e : Z) : e < 0 → pow2 e = (/ Qc_of_Z (2 ^ (- e)))%Qc.
Proof. intros He. unfold pow2. by replace (0 <=? e) with false by lia. Qed.

Lemma pow2_pos (e : Z) : (0 < pow2 e)%Qc.
Proof.
  destruct (Z.le_gt_cases 0 e).
  - rewrite pow2_nonneg by done. apply Qc_of_Z_pos. by apply Z.pow_pos_nonneg.
  - rewrite pow2_neg by done. apply Qcinv_pos, Qc_of_Z_pos.
    apply Z.pow_pos_nonneg; lia.
Qed.

Lemma pow2_ne_0 (e : Z) : pow2 e ≠ 0%Qc.
Proof. intros H. symmetry in H. revert H. apply Qclt_not_eq, pow2_pos. Qed.

Lemma Qc_of_Z_ne_0 (z : Z) : z ≠ 0 → Qc_of_Z z ≠ 0%Qc.
Proof. intros Hz H0. rewrite <- Z2Qc_inj_0 in H0. by apply Z2Qc_inj in H0. Qed.

Lemma Qc_mul_cancel_r (x y c : Qc) : c ≠ 0%Qc → (x * c = y * c)%Qc → x = y.
Proof.
  intros Hc Heq.
  assert (x = (x * c * / c)%Qc) as -> by (field; done).
  rewrite Heq. field. done.
Qed.

Lemma pow2_scale (e k : Z) :
  0 ≤ k → 0 ≤ e + k → (pow2 e * Qc_of_Z (2 ^ k))%Qc = Qc_of_Z (2 ^ (e + k)).
Proof.
  intros Hk Hek. destruct (Z.le_gt_cases 0 e).
  - rewrite pow2_nonneg by done. by rewrite <- Z2Qc_inj_mul, <- Z.pow_add_r.
  - rewrite pow2_neg by done.
    replace k with (- e + (e + k)) at 1 by lia.
    rewrite Z.pow_add_r by lia. rewrite Z2Qc_inj_mul.
    assert (Qc_of_Z (2 ^ (- e)) ≠ 0%Qc) as Hne.
    { apply Qc_of_Z_ne_0. assert (0 < 2 ^ (- e)) by (apply Z.pow_pos_nonneg; lia). lia. }
    revert Hne. generalize (Qc_of_Z (2 ^ (- e))) (Qc_of_Z (2 ^ (e + k))).
    intros A B HA. field. done.
Qed.

Lemma pow2_add (a b : Z) : pow2 (a + b) = (pow2 a * pow2 b)%Qc.
Proof.
  pose proof (Z.abs_nonneg a) as Ha. pose proof (Z.abs_nonneg b) as Hb.
  assert (0 ≤ a + Z.abs a) as Ha' by lia. assert (0 ≤ b + Z.abs b) as Hb' by lia.
  revert Ha Hb Ha' Hb'. generalize (Z.abs a) (Z.abs b). intros ka kb Ha Hb Ha' Hb'.
  assert (Qc_of_Z (2 ^ (ka + kb)) ≠ 0%Qc) as Hne.
  { apply Qc_of_Z_ne_0.
    assert (0 < 2 ^ (ka + kb)) by (apply Z.pow_pos_nonneg; lia). lia. }
  apply (Qc_mul_cancel_r _ _ (Qc_of_Z (2 ^ (ka + kb))) Hne).
  rewrite (pow2_scale (a + b) (ka + kb)) by lia.
  rewrite (Z.pow_add_r 2 ka kb) by lia. rewrite Z2Qc_inj_mul.
  assert (pow2 a * pow2 b * (Qc_of_Z (2 ^ ka) * Qc_of_Z (2 ^ kb))
          = (pow2 a * Qc_of_Z (2 ^ ka)) * (pow2 b * Qc_of_Z (2 ^ kb)))%Qc as ->
    by ring.
  rewrite (pow2_scale a ka), (pow2_scale b kb) by lia.
  rewrite <- Z2Qc_inj_mul, <- Z.pow_add_r by lia. f_equal. f_equal. lia.
Qed.

Lemma pow2_le (a b : Z) : a ≤ b → (pow2 a ≤ pow2 b)%Qc.
Proof.
  intros Hab. replace b with (a + (b - a)) by lia. rewrite pow2_add.
  rewrite <- (Qcmult_1_r (pow2 a)) at 1.
  apply Qcmult_le_mono_nonneg_l; [apply Qclt_le_weak, pow2_pos|].
  rewrite pow2_nonneg by lia. rewrite <- Z2Qc_inj_1.
  apply (proj1 (Z2Qc_inj_le _ _)).
  assert (0 < 2 ^ (b - a)) by (apply Z.pow_pos_nonneg; lia). lia.
Qed.


Lemma pow2_lt_inv (a b : Z) : (pow2 a < pow2 b)%Qc → a < b.
Proof.
  intros Hlt. destruct (Z.lt_ge_cases a b) as [|Hge]; [done|].
  apply pow2_le in Hge. by apply Qcle_not_lt in Hge.
Qed.


(** Floors of rationals. *)
Lemma Qc_floor_le (x : Qc) : (Qc_of_Z (Qfloor x) ≤ x)%Qc.
Proof.
  exact (Qfloor_le x).
Qed.

Lemma Qc_lt_floor (x : Qc) : (x < Qc_of_Z (Qfloor x + 1))%Qc.
Proof.
  exact (Qlt_floor x).
Qed.

Lemma Qc_floor_Z (z : Z) : Qfloor (Qc_of_Z z) = z.
Proof.
  exact (Qfloor_Z z).
Qed.

Lemma Qc_floor_ge (x : Qc) (z : Z) : (Qc_of_Z z ≤ x)%Qc → z ≤ Qfloor x.
Proof.
  intros Hz. rewrite <- (Qc_floor_Z z). by apply Qfloor_resp_le.
Qed.


Lemma Qc_half_pos : (0 < Q2Qc (1 # 2))%Qc.
Proof. done. Qed.

Lemma round_even_Z (z : Z) : round_even (Qc_of_Z z) = z.
Proof.
  unfold round_even. rewrite Qc_floor_Z.
  assert (Qc_of_Z z - Qc_of_Z z = 0)%Qc as -> by ring.
  done.
Qed.




Lemma Qc_inv_le_swap (x b : Qc) : (0 < x)%Qc → (0 < b)%Qc → (/ x ≤ b)%Qc → (/ b ≤ x)%Qc.
Proof.
  intros Hx Hb Hle.
  assert (x ≠ 0%Qc) as Hx0 by (intros ->; by apply (Qclt_not_eq 0 0)).
  assert (b ≠ 0%Qc) as Hb0 by (intros ->; by apply (Qclt_not_eq 0 0)).
  apply (Qcmult_le_mono_pos_l _ _ x Hx) in Hle.
  rewrite Qcmult_inv_r in Hle by done.
  apply (Qcmult_le_mono_pos_r _ _ (/ b)%Qc (Qcinv_pos _ Hb)) in Hle.
  assert (x * b * / b = x)%Qc as Heq by (field; done).
  rewrite Heq, Qcmult_1_l in Hle. done.
Qed.

Lemma Qc_inv_lt_swap (x b : Qc) : (0 < x)%Qc → (0 < b)%Qc → (b < / x)%Qc → (x < / b)%Qc.
Proof.
  intros Hx Hb Hlt.
  assert (x ≠ 0%Qc) as Hx0 by (intros ->; by apply (Qclt_not_eq 0 0)).
  assert (b ≠ 0%Qc) as Hb0 by (intros ->; by apply (Qclt_not_eq 0 0)).
  apply (Qcmult_lt_mono_pos_l _ _ x Hx) in Hlt.
  rewrite Qcmult_inv_r in Hlt by done.
  apply (Qcmult_lt_mono_pos_r _ _ (/ b)%Qc (Qcinv_pos _ Hb)) in Hlt.
  assert (x * b * / b = x)%Qc as Heq by (field; done).
  rewrite Heq, Qcmult_1_l in Hlt. done.
Qed.

(** The exponent brackets the number. *)
Lemma ilog2_spec (x : Qc) :
  (0 < x)%Qc → (pow2 (ilog2 x) ≤ x)%Qc ∧ (x < pow2 (ilog2 x + 1))%Qc.
Proof.
  intros Hx. unfold ilog2. destruct (Qc_ltb x 1) eqn:Hone.
  - apply Qc_ltb_lt in Hone.
    set (c := Qceiling (/ x)%Qc).
    assert (/ x ≤ Qc_of_Z c)%Qc as Hc1 by exact (Qle_ceiling (/ x)%Qc).
    assert (Qc_of_Z (c - 1) < / x)%Qc as Hc2 by exact (Qceiling_lt (/ x)%Qc).
    assert (1 < / x)%Qc as Hinv.
    { pose proof (proj1 (Qcmult_lt_mono_pos_r x 1 (/ x) (Qcinv_pos x Hx)) Hone) as H.
      rewrite Qcmult_inv_r, Qcmult_1_l in H; [done|].
      intros ->. by apply (Qclt_not_eq 0 0). }
    assert (1 < c) as Hc.
    { apply (proj2 (Z2Qc_inj_lt 1 c)). rewrite Z2Qc_inj_1.
      by eapply Qclt_le_trans. }
    destruct (Z.log2_up_spec c Hc) as [Hlo Hhi].
    pose proof (Z.log2_up_pos c Hc) as Hj.
    set (j := Z.log2_up c) in *.
    split.
    + rewrite pow2_neg by lia. rewrite Z.opp_involutive.
      apply Qc_inv_le_swap; [done|apply Qc_of_Z_pos; apply Z.pow_pos_nonneg; lia|].
      eapply Qcle_trans; [exact Hc1|]. by apply (proj1 (Z2Qc_inj_le _ _)).
    + destruct (decide (j = 1)) as [->|Hj1].
      * change (x < 1)%Qc. done.
      * rewrite pow2_neg by lia.
        replace (- (- j + 1)) with (Z.pred j) by lia.
        apply Qc_inv_lt_swap; [done|apply Qc_of_Z_pos; apply Z.pow_pos_nonneg; lia|].
        eapply Qcle_lt_trans; [|exact Hc2].
        apply (proj1 (Z2Qc_inj_le _ _)). lia.
  - apply Qc_ltb_ge in Hone.
    assert (1 ≤ Qfloor x) as Hfloor by (apply Qc_floor_ge; by rewrite Z2Qc_inj_1).
    destruct (Z.log2_spec (Qfloor x)) as [Hlo Hhi]; [lia|].
    pose proof (Z.log2_nonneg (Qfloor x)) as HL.
    split.
    + rewrite pow2_nonneg by done.
      eapply Qcle_trans; [|apply Qc_floor_le]. by apply (proj1 (Z2Qc_inj_le _ _)).
    + rewrite pow2_nonneg by lia.
      eapply Qclt_le_trans; [apply Qc_lt_floor|].
      apply (proj1 (Z2Qc_inj_le _ _)). rewrite <- Z.add_1_r in Hhi. lia.
Qed.

Lemma Qc_div_pow2 (x : Qc) (a b : Z) : (x * pow2 a / pow2 b)%Qc = (x * pow2 (a - b))%Qc.
Proof.
  replace a with (a - b + b) at 1 by lia. rewrite pow2_add.
  pose proof (pow2_ne_0 b). field. done.
Qed.


(** Rounding a positive number: the significand and what comes of it. *)
Lemma round_double_pos (x : Qc) :
  (0 < x)%Qc →
  round_double x
  = let e := Z.max (ilog2 x - 52) (-1074) in
    let v := (Qc_of_Z (round_even (x / pow2 e)) * pow2 e)%Qc in
    if Qc_ltb v (pow2 1024) then Fin v else PInf.
Proof.
  intros Hx. unfold round_double.
  rewrite decide_False by (intros ->; by apply (Qclt_not_eq 0 0)).
  assert (Qc_ltb x 0 = false) as -> by by apply Qc_ltb_ge, Qclt_le_weak.
  done.
Qed.

(** A number with a significand of at most 53 bits and an exponent in range
    is a double: rounding leaves it as it is. *)
Lemma round_double_exact (m e : Z) :
  0 < m < 2 ^ 53 → -1074 ≤ e ≤ 971 →
  round_double (Qc_of_Z m * pow2 e) = Fin (Qc_of_Z m * pow2 e).
Proof.
  intros Hm He. set (x := (Qc_of_Z m * pow2 e)%Qc).
  assert (0 < x)%Qc as Hx.
  { apply Qcmult_pos_pos; [apply Qc_of_Z_pos; lia|apply pow2_pos]. }
  assert (x < pow2 (53 + e))%Qc as Hupper.
  { unfold x. rewrite pow2_add. apply Qcmult_lt_mono_pos_r; [apply pow2_pos|].
    rewrite pow2_nonneg by lia. apply (proj1 (Z2Qc_inj_lt _ _)). lia. }
  rewrite round_double_pos by done. cbv zeta.
  destruct (ilog2_spec x Hx) as [Hlo _].
  assert (ilog2 x < 53 + e) as HL.
  { apply pow2_lt_inv. by eapply Qcle_lt_trans. }
  set (e' := Z.max (ilog2 x - 52) (-1074)).
  assert (e' ≤ e) as He' by (unfold e'; lia).
  assert (x / pow2 e' = Qc_of_Z (m * 2 ^ (e - e')))%Qc as Hy.
  { unfold x. rewrite Qc_div_pow2, pow2_nonneg by lia. by rewrite Z2Qc_inj_mul. }
  rewrite Hy, round_even_Z.
  assert (Qc_of_Z (m * 2 ^ (e - e')) * pow2 e' = x)%Qc as ->.
  { rewrite Z2Qc_inj_mul, <- pow2_nonneg by lia. unfold x.
    rewrite <- Qcmult_assoc, <- pow2_add. do 2 f_equal. lia. }
  assert (Qc_ltb x (pow2 1024) = true) as ->; [|done].
  apply Qc_ltb_lt. eapply Qclt_le_trans; [exact Hupper|]. apply pow2_le. lia.
Qed.


Lemma pow2_0 : pow2 0 = 1%Qc.
Proof. rewrite pow2_nonneg by done. exact Z2Qc_inj_1. Qed.

Lemma round_double_0 : round_double 0 = Fin 0.
Proof. done. Qed.

Lemma Qc_opp_pos (x : Qc) : (x < 0)%Qc → (0 < - x)%Qc.
Proof.
  intros Hx. apply (proj1 (Qclt_minus_iff x 0)) in Hx.
  by rewrite Qcplus_0_l in Hx.
Qed.

Lemma Qc_opp_neg (x : Qc) : (0 < x)%Qc → (- x < 0)%Qc.
Proof.
  intros Hx. apply (proj2 (Qclt_minus_iff (- x) 0)).
  by rewrite Qcplus_0_l, Qcopp_involutive.
Qed.

Lemma round_double_opp (x : Qc) : round_double (- x) = fneg (round_double x).
Proof.
  unfold round_double.
  destruct (decide (x = 0%Qc)) as [->|Hx].
  { by rewrite decide_True by done. }
  rewrite decide_False.
  2:{ intros H0. apply Hx. rewrite <- (Qcopp_involutive x), H0. done. }
  destruct (Qc_ltb x 0) eqn:Hneg.
  - apply Qc_ltb_lt in Hneg.
    assert (Qc_ltb (- x) 0 = false) as ->.
    { apply Qc_ltb_ge, Qclt_le_weak. by apply Qc_opp_pos. }
    destruct (Qc_ltb _ (pow2 1024)); [|done].
    cbn [fneg]. by rewrite Qcopp_involutive.
  - apply Qc_ltb_ge in Hneg.
    assert (Qc_ltb (- x) 0 = true) as ->.
    { apply Qc_ltb_lt. apply Qc_opp_neg.
      apply Qcle_lt_or_eq in Hneg as [|Heq]; [done|]. by destruct Hx. }
    rewrite Qcopp_involutive.
    by destruct (Qc_ltb _ (pow2 1024)).
Qed.





(** Integers below [2 ** 53] in magnitude are doubles. *)
Lemma float_of_int_exact (z : Z) :
  - 2 ^ 53 < z < 2 ^ 53 → float_of_int z = Fin (Qc_of_Z z).
Proof.
  intros Hz. unfold float_of_int.
  assert (∀ m, 0 < m < 2 ^ 53 → round_double (Qc_of_Z m) = Fin (Qc_of_Z m)) as Hpos.
  { intros m Hm. rewrite <- (Qcmult_1_r (Qc_of_Z m)), <- pow2_0.
    apply round_double_exact; lia. }
  destruct (Z.lt_trichotomy z 0) as [Hneg|[->|Hpos']].
  - replace z with (- - z) by lia. rewrite Z2Qc_inj_opp, round_double_opp.
    rewrite Hpos by lia. done.
  - rewrite Z2Qc_inj_0. exact round_double_0.
  - apply Hpos. lia.
Qed.


Lemma round_double_exact_nonneg (m e : Z) :
  0 ≤ m < 2 ^ 53 → -1074 ≤ e ≤ 971 →
  round_double (Qc_of_Z m * pow2 e) = Fin (Qc_of_Z m * pow2 e).
Proof.
  intros Hm He. destruct (decide (m = 0)) as [->|].
  - rewrite Z2Qc_inj_0, Qcmult_0_l. exact round_double_0.
  - apply round_double_exact; lia.
Qed.

Lemma Qc_nonneg_ltb (x : Qc) : (0 ≤ x)%Qc → Qc_ltb x 0 = false.
Proof. apply Qc_ltb_ge. Qed.

(** In the range of the scores of 16-bit images the floor division of
    doubles is the exact one: for a dividend below [2 ** 52] and a divisor
    that is a positive whole or half number, the result is the floor of the
    exact quotient. *)
Lemma float_floor_divide_exact (a k : Z) :
  0 ≤ a < 2 ^ 52 → 0 < k →
  float_floor_divide (Fin (Qc_of_Z a)) (Fin (Qc_of_Z k / Qc_of_Z 2))
  = Fin (Qc_of_Z (Qfloor (Qc_of_Z a / (Qc_of_Z k / Qc_of_Z 2))%Qc)).
Proof.
  intros Ha Hk.
  set (q := (Qc_of_Z k / Qc_of_Z 2)%Qc).
  assert (Qc_of_Z 2 ≠ 0%Qc) as H2 by (apply Qc_of_Z_ne_0; lia).
  assert (q = Qc_of_Z k * pow2 (-1))%Qc as Hq.
  { unfold q. rewrite pow2_neg by lia. done. }
  assert (0 < q)%Qc as Hqpos.
  { rewrite Hq. apply Qcmult_pos_pos; [apply Qc_of_Z_pos; lia|apply pow2_pos]. }
  assert (q ≠ 0%Qc) as Hq0 by (intros H0; rewrite H0 in Hqpos; by apply (Qclt_not_eq 0 0)).
  set (t := (Qc_of_Z a / q)%Qc).
  assert (0 ≤ t)%Qc as Ht.
  { unfold t, Qcdiv. apply Qcmult_nonneg_nonneg.
    - rewrite <- Z2Qc_inj_0. apply (proj1 (Z2Qc_inj_le _ _)). lia.
    - by apply Qclt_le_weak, Qcinv_pos. }
  set (n := Qfloor t).
  assert (0 ≤ n) as Hn by (apply Qc_floor_ge; by rewrite Z2Qc_inj_0).
  assert (Qc_of_Z n * q ≤ Qc_of_Z a)%Qc as Hnq.
  { pose proof (Qc_floor_le t) as Hle. fold n in Hle.
    apply (Qcmult_le_mono_pos_r _ _ q Hqpos) in Hle.
    assert (t * q = Qc_of_Z a)%Qc as Htq by (unfold t; field; done).
    by rewrite Htq in Hle. }
  assert (n * k ≤ 2 * a) as Hnk.
  { apply (proj2 (Z2Qc_inj_le _ _)).
    apply (Qcmult_le_mono_pos_r _ _ (Qc_of_Z 2)) in Hnq; [|apply Qc_of_Z_pos; lia].
    rewrite !Z2Qc_inj_mul.
    assert (Qc_of_Z n * q * Qc_of_Z 2 = Qc_of_Z n * Qc_of_Z k)%Qc as Heq
      by (unfold q; field; done).
    rewrite Heq in Hnq. by rewrite (Qcmult_comm (Qc_of_Z 2)). }
  assert (n ≤ 2 * a) as Hn2 by nia.
  unfold float_floor_divide. rewrite decide_False by done. fold t.
  assert (int_of_Qc t = n) as ->.
  { unfold int_of_Qc. by rewrite Qc_nonneg_ltb. }
  set (modulus := (Qc_of_Z a - Qc_of_Z n * q)%Qc).
  assert (0 ≤ modulus)%Qc as Hmod.
  { unfold modulus. apply (proj1 (Qcle_minus_iff _ _)) in Hnq. done. }
  assert (fsub (Fin (Qc_of_Z a)) (Fin modulus) = Fin (Qc_of_Z n * q)) as ->.
  { unfold fsub. cbn [fneg fadd].
    assert (Qc_of_Z a + - modulus = Qc_of_Z (n * k) * pow2 (-1))%Qc as ->.
    { unfold modulus. rewrite Hq, Z2Qc_inj_mul. ring. }
    rewrite round_double_exact_nonneg by lia.
    f_equal. rewrite Hq, Z2Qc_inj_mul. ring. }
  assert (fdiv (Fin (Qc_of_Z n * q)) (Fin q) = Fin (Qc_of_Z n)) as ->.
  { cbn [fdiv]. rewrite decide_False by done.
    assert (Qc_of_Z n * q / q = Qc_of_Z n)%Qc as -> by (field; done).
    apply float_of_int_exact. lia. }
  rewrite (Qc_nonneg_ltb q) by by apply Qclt_le_weak.
  rewrite (Qc_nonneg_ltb modulus) by done.
  rewrite andb_false_r.
  destruct (decide (Qc_of_Z n = 0%Qc)) as [H0|H0].
  - rewrite <- Z2Qc_inj_0 in H0. apply Z2Qc_inj in H0.
    rewrite H0. by rewrite Z2Qc_inj_0.
  - rewrite Qc_floor_Z.
    assert (Qc_of_Z n - Qc_of_Z n = 0)%Qc as -> by ring.
    done.
Qed.




(** The median of samples below [2 ** 52] is exact. *)
Lemma median_exact (l : list Z) :
  Forall (λ x, 0 ≤ x < 2 ^ 52) l →
  median l
  = let s := sorted l in
    let n := length s in
    if decide (n = 0%nat) then NaN
    else if Nat.even n
    then match s !! (n / 2 - 1)%nat, s !! (n / 2)%nat with
         | Some a, Some b => Fin ((Qc_of_Z a + Qc_of_Z b) / Qc_of_Z 2)
         | _, _ => NaN
         end
    else match s !! (n / 2)%nat with
         | Some a => Fin (Qc_of_Z a)
         | None => NaN
         end.
Proof.
  intros Hall. unfold median, sorted. cbv zeta.
  pose proof (merge_sort_Permutation Z.le l) as Hperm.
  set (s := merge_sort Z.le l) in *.
  assert (Forall (λ x, 0 ≤ x < 2 ^ 52) s) as Hs by by rewrite Hperm.
  assert (∀ i a, s !! i = Some a → 0 ≤ a < 2 ^ 52) as Hin
    by (intros i a Ha; exact (Forall_lookup_1 _ _ _ _ Hs Ha)).
  destruct (decide (length s = 0%nat)); [done|].
  destruct (Nat.even (length s)).
  - destruct (s !! (length s / 2 - 1)%nat) as [a|] eqn:Ha; [|done].
    destruct (s !! (length s / 2)%nat) as [b|] eqn:Hb; [|done].
    pose proof (Hin _ _ Ha). pose proof (Hin _ _ Hb).
    rewrite !float_of_int_exact by lia. cbn [fadd].
    rewrite <- Z2Qc_inj_add.
    fold (float_of_int (a + b)). rewrite float_of_int_exact by lia.
    cbn [fdiv]. rewrite decide_False by (apply Qc_of_Z_ne_0; lia).
    assert (Qc_of_Z (a + b) / Qc_of_Z 2 = Qc_of_Z (a + b) * pow2 (-1))%Qc as Hhalf.
    { rewrite pow2_neg by lia. done. }
    rewrite Hhalf, round_double_exact_nonneg by lia. by rewrite <- Hhalf.
  - destruct (s !! (length s / 2)%nat) as [a|] eqn:Ha; [|done].
    pose proof (Hin _ _ Ha). by rewrite float_of_int_exact by lia.
Qed.


End FloatProps.

Module ImageOpsProps.
Import ImageOps FloatProps.

(** ** The bit-depth resolver *)

(** The assertions of [_test] in the source. *)
Example test_bit_depth_5 : _get_bit_depth [[1; 2; 3; 4; 5]] = Ok (UInt8, 255).
Proof. reflexivity. Qed.
Example test_bit_depth_255 : _get_bit_depth [[1; 2; 3; 4; 255]] = Ok (UInt8, 255).
Proof. reflexivity. Qed.
Example test_bit_depth_256 : _get_bit_depth [[1; 2; 3; 4; 256]] = Ok (UInt16, 65535).
Proof. reflexivity. Qed.
Example test_bit_depth_65536 :
  _get_bit_depth [[1; 2; 3; 4; 65536]] = Ok (Int32, 2147483647).
Proof. reflexivity. Qed.

Lemma get_bit_depth_of_max (img : image) (v : Z) :
  img_max img = Ok v →
  _get_bit_depth img =
    getitem types (Z.of_nat (digitize_right v [255; 65535; 2147483647])).
Proof. intros Hmax. unfold _get_bit_depth. rewrite Hmax. reflexivity. Qed.

(** C5. For an image whose largest sample [v] is at most 2147483647 the
    resolver returns the sample type with the least maximum that is at
    least [v] (uint8 up to 255, uint16 from 256 to 65535, int32 above);
    for a larger [v] the lookup in the table of types raises [IndexError]
    instead of falling back to some type. *)
Theorem get_bit_depth_minimal_boundary (img : image) (v : Z) :
  img_max img = Ok v →
  (v ≤ 2147483647 →
     ∃ t, _get_bit_depth img = Ok (t, iinfo_max t) ∧
          v ≤ iinfo_max t ∧
          (∀ t', v ≤ iinfo_max t' → iinfo_max t ≤ iinfo_max t') ∧
          t = (if v <=? 255 then UInt8 else if v <=? 65535 then UInt16 else Int32))
  ∧ (2147483647 < v → _get_bit_depth img = Raise IndexError).
Proof.
  intros Hmax. rewrite (get_bit_depth_of_max _ _ Hmax). cbn [digitize_right].
  split.
  - intros Hle.
    destruct (v <=? 255) eqn:H8; [|destruct (v <=? 65535) eqn:H16].
    + exists UInt8. repeat split; [cbn; lia|]. intros []; cbn; lia.
    + exists UInt16. repeat split; [cbn; lia|]. intros []; cbn; lia.
    + exists Int32. replace (v <=? 2147483647) with true by lia.
      repeat split; [cbn; lia|]. intros []; cbn; lia.
  - intros Hgt.
    replace (v <=? 255) with false by lia.
    replace (v <=? 65535) with false by lia.
    replace (v <=? 2147483647) with false by lia.
    reflexivity.
Qed.

Lemma get_bit_depth_minimal_boundary_witness :
  img_max [[1; 2; 3; 4; 256]] = Ok 256 ∧
  _get_bit_depth [[1; 2; 3; 4; 256]] = Ok (UInt16, 65535).
Proof.
  split; [reflexivity|].
  destruct (get_bit_depth_minimal_boundary [[1; 2; 3; 4; 256]] 256 eq_refl)
    as [Hle _].
  destruct (Hle ltac:(lia)) as (t & Hres & _ & _ & Ht).
  rewrite Hres, Ht. reflexivity.
Defined.

(** ** Background subtraction *)





(** Where the truncated value lies in the range of the sample type, the
    conversion is the truncation, whatever the platform. *)
Lemma astype_in_range (cast : dtype → pyfloat → Z) (t : dtype) (q : Qc) :
  in_dtype t (int_of_Qc q) → astype cast t (Fin q) = int_of_Qc q.
Proof.
  intros [Hlo Hhi]. unfold astype. cbv zeta.
  destruct ((iinfo_min t <=? int_of_Qc q) && (int_of_Qc q <=? iinfo_max t)) eqn:Hin;
    [done|].
  apply andb_false_iff in Hin as [Hin|Hin]; lia.
Qed.

Example elementwise_broadcasts :
  elementwise Z.add [[1; 2; 3]; [4; 5; 6]] [[10; 20; 30]]
  = Ok [[11; 22; 33]; [14; 25; 36]] ∧
  elementwise Z.add [[1; 2; 3]; [4; 5; 6]] [[10]; [20]]
  = Ok [[11; 12; 13]; [24; 25; 26]] ∧
  elementwise Z.add [[1; 2; 3]] [[10]; [20]]
  = Ok [[11; 12; 13]; [21; 22; 23]] ∧
  elementwise Z.add [[1; 2; 3]; [4; 5; 6]] [[10; 20]; [30; 40]] = Raise ValueError.
Proof. vm_compute. done. Qed.

Lemma same_shape_spec (a b : image) :
  same_shape a b = true ↔ length <$> a = length <$> b.
Proof. unfold same_shape. apply bool_decide_eq_true. Qed.


Lemma foldr_max_le (M p : Z) (ps : list Z) :
  p ≤ M → Forall (λ q, q ≤ M) ps → foldr Z.max p ps ≤ M.
Proof. intros Hp. induction 1; cbn; lia. Qed.

Lemma img_max_total (img : image) (M : Z) :
  concat img ≠ [] →
  Forall (Forall (λ q, q ≤ M)) img →
  ∃ v, img_max img = Ok v ∧ v ≤ M.
Proof.
  intros Hne Hall. unfold img_max.
  assert (Forall (λ q, q ≤ M) (concat img)) as Hc by by apply Forall_concat.
  destruct (concat img) as [|p ps]; [done|].
  inversion Hc; subst. eexists. split; [done|]. by apply foldr_max_le.
Qed.

Lemma get_bit_depth_total (img : image) (v : Z) :
  img_max img = Ok v → v ≤ 2147483647 →
  ∃ t, _get_bit_depth img = Ok (t, iinfo_max t).
Proof.
  intros Hmax Hle. rewrite (get_bit_depth_of_max _ _ Hmax). cbn [digitize_right].
  destruct (v <=? 255) eqn:H8; [by exists UInt8|].
  destruct (v <=? 65535) eqn:H16; [by exists UInt16|].
  replace (v <=? 2147483647) with true by lia. by exists Int32.
Qed.

Lemma sample_zip_with (f : Z → Z → Z) (a b : image) (y x : nat) :
  sample (zip_with (zip_with f) a b) y x =
  pa ← sample a y x; pb ← sample b y x; Some (f pa pb).
Proof.
  unfold sample. rewrite lookup_zip_with.
  destruct (a !! y) as [ra|]; [|done].
  destruct (b !! y) as [rb|].
  - change (zip_with f ra rb !! x = pa ← ra !! x; pb ← rb !! x; Some (f pa pb)).
    apply lookup_zip_with.
  - change (None = pa ← ra !! x; pb ← None; Some (f pa pb)).
    by destruct (ra !! x).
Qed.

Lemma sample_fmap (f : Z → Z) (b : image) (y x : nat) :
  sample (fmap (M:=list) (fmap (M:=list) f) b) y x = f <$> sample b y x.
Proof.
  unfold sample. rewrite list_lookup_fmap.
  destruct (b !! y) as [rb|]; [|done]. cbn. by rewrite list_lookup_fmap.
Qed.

Lemma sample_Forall (P : Z → Prop) (img : image) (y x : nat) (p : Z) :
  Forall (Forall P) img → sample img y x = Some p → P p.
Proof.
  unfold sample. intros Hall Hs.
  destruct (img !! y) as [row|] eqn:Hrow; [|done]. cbn in Hs.
  eapply Forall_lookup_1; [|exact Hs].
  eapply (Forall_lookup_1 (Forall P)); [exact Hall|exact Hrow].
Qed.

Lemma sample_same_shape (a b : image) (y x : nat) (pa : Z) :
  same_shape a b = true → sample a y x = Some pa → is_Some (sample b y x).
Proof.
  rewrite same_shape_spec. unfold sample. intros Hshape Hs.
  destruct (a !! y) as [ra|] eqn:Ha; [|done]. cbn in Hs.
  assert ((length <$> a) !! y = Some (length ra)) as Hl
    by by rewrite list_lookup_fmap, Ha.
  rewrite Hshape, list_lookup_fmap in Hl.
  destruct (b !! y) as [rb|]; [|done]. cbn in *.
  apply lookup_lt_is_Some. injection Hl as Hl. rewrite Hl.
  by eapply lookup_lt_Some.
Qed.



(** The same two images, evaluated: only the first pixel exceeds
    0.5% of 65535 in both images, the medians are 1000 and 400, and the
    subtrahend is scaled by 2.5 to [[1000; 500; 50]], whatever the platform
    makes of the conversions C leaves open. *)
Example subtract_scaled (cast : dtype → pyfloat → Z) :
  intersection_mask [[1000; 900; 10]] [[400; 200; 20]] default_threshold
  = Ok [[true; false; false]] ∧
  scale_subtrahend (np_scale_sample cast) UInt16
    [[1000; 900; 10]] [[400; 200; 20]] default_threshold
  = Ok [[1000; 500; 50]] ∧
  subtract (np_scale_sample cast) UInt16
    [[1000; 900; 10]] [[400; 200; 20]] true default_threshold
  = Ok [[0; 400; 0]].
Proof. vm_compute. done. Qed.

(** The quotient of the medians is rounded before it is multiplied: with
    medians 13 and 3 the sample 27 is scaled to 116, not to
    [27 * 13 // 3 = 117]. *)
Example subtract_scaled_rounds (cast : dtype → pyfloat → Z) :
  scale_subtrahend (np_scale_sample cast) UInt8
    [[13; 13; 13; 120]] [[3; 3; 3; 27]] default_threshold
  = Ok [[13; 13; 13; 116]] ∧
  subtract (np_scale_sample cast) UInt8
    [[13; 13; 13; 120]] [[3; 3; 3; 27]] true default_threshold
  = Ok [[0; 0; 0; 4]].
Proof. vm_compute. done. Qed.

(** A product outside the range of the sample type is converted as the
    platform converts it; the difference is still clamped at zero and taken
    without wrapping. *)
Example subtract_scaled_out_of_range :
  scale_subtrahend (np_scale_sample wrapping_cast) UInt8
    [[200; 200; 200]] [[2; 2; 3]] default_threshold
  = Ok [[200; 200; 44]] ∧
  subtract (np_scale_sample wrapping_cast) UInt8
    [[200; 200; 200]] [[2; 2; 3]] true default_threshold
  = Ok [[0; 0; 156]].
Proof. vm_compute. done. Qed.


(** ** Scoring *)

Lemma int_of_twentieth (n : Z) :
  0 ≤ n → int_of_Qc (Qc_of_Z n * default_threshold_pct)%Qc = n / 20.
Proof.
  intros Hn. unfold int_of_Qc.
  assert ((Qc_of_Z n * default_threshold_pct)%Qc == n # 20)%Q as Heq.
  { unfold default_threshold_pct, Qcmult, Q2Qc, Qc_of_Z. cbn [this].
    rewrite !Qred_correct. unfold Qeq, Qmult, inject_Z. cbn. lia. }
  assert (Qc_ltb (Qc_of_Z n * default_threshold_pct)%Qc 0 = false) as ->.
  { unfold Qc_ltb, Qccompare. rewrite Heq.
    unfold Qcompare. cbn. by destruct n. }
  rewrite Heq. reflexivity.
Qed.

Lemma elem_of_range (lo hi k : Z) : k ∈ range lo hi ↔ lo ≤ k < hi.
Proof. unfold range. rewrite elem_of_seqZ. lia. Qed.

Lemma elem_of_circle_positions (radius h w cy cx x y : Z) :
  (x, y) ∈ circle_positions radius h w cy cx ↔
  Z.max (cx - radius) 0 ≤ x ≤ Z.min (cx + radius) w ∧
  Z.max (cy - radius) 0 ≤ y ≤ Z.min (cy + radius) h ∧
  (x - cx) ^ 2 + (y - cy) ^ 2 ≤ radius ^ 2.
Proof.
  unfold circle_positions. rewrite list_elem_of_bind. split.
  - intros (x' & Hin & Hx'). apply list_elem_of_bind in Hin as (y' & Hin & Hy').
    apply elem_of_range in Hx', Hy'.
    destruct (_ >? _) eqn:Hd; [by apply elem_of_nil in Hin|].
    apply list_elem_of_singleton in Hin. injection Hin as -> ->. lia.
  - intros (Hx & Hy & Hd). exists x. split; [|apply elem_of_range; lia].
    apply list_elem_of_bind. exists y. split; [|apply elem_of_range; lia].
    replace (_ >? _) with false by lia. apply list_elem_of_singleton. done.
Qed.

Lemma NoDup_range (lo hi : Z) : NoDup (range lo hi).
Proof. apply NoDup_seqZ. Qed.

Lemma NoDup_circle_positions (radius h w cy cx : Z) :
  NoDup (circle_positions radius h w cy cx).
Proof.
  unfold circle_positions. apply NoDup_bind; [| |apply NoDup_range].
  - intros x1 x2 [x y] _ _ H1 H2.
    apply list_elem_of_bind in H1 as (y1 & H1 & _).
    apply list_elem_of_bind in H2 as (y2 & H2 & _).
    destruct (_ >? _) in H1; [by apply elem_of_nil in H1|].
    destruct (_ >? _) in H2; [by apply elem_of_nil in H2|].
    apply list_elem_of_singleton in H1, H2. congruence.
  - intros x _. apply NoDup_bind; [| |apply NoDup_range].
    + intros y1 y2 [x' y] _ _ H1 H2.
      destruct (_ >? _) in H1; [by apply elem_of_nil in H1|].
      destruct (_ >? _) in H2; [by apply elem_of_nil in H2|].
      apply list_elem_of_singleton in H1, H2. congruence.
    + intros y _. destruct (_ >? _); [constructor|apply NoDup_singleton].
Qed.

Lemma length_bind_le {A B} (f : A → list B) (l : list A) (m : nat) :
  (∀ x, length (f x) ≤ m)%nat → (length (l ≫= f) ≤ length l * m)%nat.
Proof.
  intros Hf. induction l as [|x l IH]; csimpl; [lia|].
  rewrite length_app. specialize (Hf x). lia.
Qed.

Lemma length_range (lo hi : Z) : length (range lo hi) = Z.to_nat (hi - lo).
Proof. apply length_seqZ. Qed.

(** The loops visit at most the (2·radius+1)² positions of the bounding box. *)
Lemma length_circle_positions (radius h w cy cx : Z) :
  0 ≤ radius →
  Z.of_nat (length (circle_positions radius h w cy cx)) ≤ (2 * radius + 1) ^ 2.
Proof.
  intros Hr. unfold circle_positions.
  set (xs := range _ _). set (ys := range _ _).
  assert (length xs ≤ Z.to_nat (2 * radius + 1))%nat as Hxs
    by (unfold xs; rewrite length_range; lia).
  assert (length ys ≤ Z.to_nat (2 * radius + 1))%nat as Hys
    by (unfold ys; rewrite length_range; lia).
  etrans; [apply inj_le, (length_bind_le _ _ (Z.to_nat (2 * radius + 1)))|].
  - intros x. etrans; [apply (length_bind_le _ _ 1)|lia].
    intros y. destruct (_ >? _); cbn; lia.
  - nia.
Qed.

Lemma getitem_in_range {A} (l : list A) (i : Z) :
  0 ≤ i < Z.of_nat (length l) →
  ∃ a, getitem l i = Ok a ∧ l !! Z.to_nat i = Some a.
Proof.
  intros Hi. unfold getitem.
  replace (i <? 0) with false by lia.
  replace (0 <=? i) with true by lia.
  replace (i <? Z.of_nat (length l)) with true by lia. cbn.
  destruct (lookup_lt_is_Some_2 l (Z.to_nat i)) as [a Ha]; [lia|].
  rewrite Ha. by exists a.
Qed.

Lemma getitem_past_end {A} (l : list A) : getitem l (Z.of_nat (length l)) = Raise IndexError.
Proof.
  unfold getitem. cbv zeta.
  destruct (Z.ltb_spec (Z.of_nat (length l)) 0); [lia|].
  rewrite Z.ltb_irrefl. by rewrite andb_false_r.
Qed.

Lemma pixel_in_bounds (img : image) (y x : Z) :
  rectangular img → 0 ≤ y < height img → 0 ≤ x < width img →
  ∃ p, pixel img y x = Ok p ∧ sample img (Z.to_nat y) (Z.to_nat x) = Some p.
Proof.
  intros Hrect Hy Hx. unfold pixel, sample.
  destruct (getitem_in_range img y Hy) as (row & -> & Hrow). rewrite Hrow. cbn.
  pose proof (Forall_lookup_1 _ _ _ _ Hrect Hrow) as Hlen. cbn in Hlen.
  destruct (getitem_in_range row x) as (p & -> & Hp); [lia|]. by exists p.
Qed.

Lemma traverse_total {A B} (f : A → result B) (l : list A) :
  Forall (λ x, ∃ y, f x = Ok y) l →
  ∃ ys, traverse f l = Ok ys ∧ Forall2 (λ x y, f x = Ok y) l ys.
Proof.
  induction 1 as [|x l [y Hy] _ (ys & IH & Hall)]; cbn.
  - exists []. by split.
  - exists (y :: ys). rewrite Hy, IH. cbn. split; [done|by constructor].
Qed.

Lemma traverse_Ok_length {A B} (f : A → result B) (l : list A) (ys : list B) :
  traverse f l = Ok ys → length ys = length l.
Proof.
  revert ys. induction l as [|x l IH]; intros ys; cbn.
  - by intros [= <-].
  - destruct (f x) as [y|]; [|done]. cbn.
    destruct (traverse f l) as [ys'|]; [|done]. cbn.
    intros [= <-]. cbn. f_equal. by apply IH.
Qed.

#[local] Instance flip_le_total : Total (flip Z.le).
Proof. intros x y. unfold flip. lia. Qed.

#[local] Instance flip_le_trans : Transitive (flip Z.le).
Proof. intros x y z. unfold flip. lia. Qed.

(** What [sorted(points, reverse=True)[:len(points) // 20]] keeps: a
    twentieth of the points, rounded down, none of them smaller than a point
    it leaves out. *)
Lemma relevant_points_brightest (pts : list Z) :
  ∃ rest,
    pts ≡ₚ relevant_points default_threshold_pct pts ++ rest ∧
    Z.of_nat (length (relevant_points default_threshold_pct pts))
      = Z.of_nat (length pts) / 20 ∧
    Forall (λ k, Forall (λ r, r ≤ k) rest) (relevant_points default_threshold_pct pts).
Proof.
  unfold relevant_points. rewrite int_of_twentieth by lia. unfold slice_to.
  replace (_ <? 0) with false by (pose proof (Z.div_pos (Z.of_nat (length pts)) 20); lia).
  set (k := Z.to_nat (Z.of_nat (length pts) / 20)).
  assert (sorted_reverse pts ≡ₚ pts) as Hperm by apply merge_sort_Permutation.
  exists (drop k (sorted_reverse pts)). split; [by rewrite take_drop|]. split.
  - rewrite length_take, (Permutation_length Hperm). unfold k.
    pose proof (Z.div_pos (Z.of_nat (length pts)) 20).
    assert (Z.of_nat (length pts) / 20 ≤ Z.of_nat (length pts))
      by (apply Z.div_le_upper_bound; lia).
    lia.
  - assert (StronglySorted (flip Z.le) (sorted_reverse pts)) as Hsorted
      by apply (StronglySorted_merge_sort _).
    rewrite <- (take_drop k (sorted_reverse pts)) in Hsorted.
    apply Forall_forall. intros a Ha. apply Forall_forall. intros b Hb.
    apply (StronglySorted_app_1_elem_of _ _ _ _ _ Hsorted Ha Hb).
Qed.

Lemma Zsum_cons (p : Z) (l : list Z) : Zsum (p :: l) = p + Zsum l.
Proof. reflexivity. Qed.

Lemma Zsum_app (l k : list Z) : Zsum (l ++ k) = Zsum l + Zsum k.
Proof. induction l as [|p l IH]; [done|]. cbn [app]. rewrite !Zsum_cons. lia. Qed.

Lemma Zsum_nonneg (l : list Z) : Forall (λ p, 0 ≤ p) l → 0 ≤ Zsum l.
Proof. induction 1 as [|p l Hp _ IH]; [done|]. rewrite Zsum_cons. lia. Qed.

Lemma Zsum_bounds (B : Z) (l : list Z) :
  Forall (λ p, 0 ≤ p < B) l → 0 ≤ Zsum l ≤ Z.of_nat (length l) * B.
Proof.
  induction 1 as [|p l Hp _ IH]; [done|].
  rewrite Zsum_cons. cbn [length]. lia.
Qed.

Lemma wrap64_small (z : Z) : - 2 ^ 63 ≤ z < 2 ^ 63 → wrap64 z = z.
Proof. intros Hz. unfold wrap64. rewrite Z.mod_small; lia. Qed.

Lemma foldl_wrap64_exact (l : list Z) (acc : Z) :
  Forall (λ p, 0 ≤ p) l → 0 ≤ acc → acc + Zsum l < 2 ^ 63 →
  foldl (λ acc p, wrap64 (acc + p)) acc l = acc + Zsum l.
Proof.
  intros Hall. revert acc.
  induction Hall as [|p l Hp Hl IH]; intros acc Hacc Hsum.
  - cbn. lia.
  - rewrite Zsum_cons in *. cbn [foldl].
    pose proof (Zsum_nonneg l Hl).
    rewrite wrap64_small by lia. rewrite IH; lia.
Qed.

Lemma np_sum_int64_exact (l : list Z) :
  Forall (λ p, 0 ≤ p) l → Zsum l < 2 ^ 63 → np_sum_int64 l = Zsum l.
Proof. intros. unfold np_sum_int64. rewrite foldl_wrap64_exact; [lia|done|lia|lia]. Qed.

Lemma getitem_Ok_elem_of {A} (l : list A) (i : Z) (a : A) : getitem l i = Ok a → a ∈ l.
Proof.
  unfold getitem. cbv zeta. destruct (_ && _); [|done].
  destruct (l !! _) as [a'|] eqn:Hl; [|done].
  intros [= <-]. by eapply list_elem_of_lookup_2.
Qed.

Lemma pixel_Ok_Forall (P : Z → Prop) (img : image) (y x p : Z) :
  Forall (Forall P) img → pixel img y x = Ok p → P p.
Proof.
  intros Hall. unfold pixel.
  destruct (getitem img y) as [row|] eqn:Hrow; [|done]. cbn. intros Hp.
  apply getitem_Ok_elem_of in Hrow, Hp.
  rewrite Forall_forall in Hall. specialize (Hall row Hrow).
  rewrite Forall_forall in Hall. by apply Hall.
Qed.

Lemma within_radius (dx dy radius : Z) :
  0 ≤ radius → dx * dx + dy * dy ≤ radius * radius →
  - radius ≤ dx ≤ radius ∧ - radius ≤ dy ≤ radius.
Proof.
  intros Hr Hd.
  pose proof (Z.square_nonneg dx). pose proof (Z.square_nonneg dy).
  repeat split.
  - destruct (Z.le_gt_cases (- radius) dx); [done|]. nia.
  - destruct (Z.le_gt_cases dx radius); [done|]. nia.
  - destruct (Z.le_gt_cases (- radius) dy); [done|]. nia.
  - destruct (Z.le_gt_cases dy radius); [done|]. nia.
Qed.

(** The points collected around a maximum that lies at least [radius] inside
    the lower and right borders: the samples at the positions of the image
    whose distance from the maximum is at most [radius]. *)
Lemma points_of_disc (img : image) (radius cy cx : Z) :
  rectangular img → 0 ≤ radius →
  0 ≤ cy → cy + radius < height img → 0 ≤ cx → cx + radius < width img →
  ∃ positions pts,
    points img radius cy cx = Ok pts ∧
    NoDup positions ∧
    (∀ x y, (x, y) ∈ positions ↔
       0 ≤ x < width img ∧ 0 ≤ y < height img ∧
       (x - cx) ^ 2 + (y - cy) ^ 2 ≤ radius ^ 2) ∧
    Forall2 (λ xy p, pixel img xy.2 xy.1 = Ok p) positions pts ∧
    Z.of_nat (length pts) ≤ (2 * radius + 1) ^ 2.
Proof.
  intros Hrect Hr Hcy0 Hcy1 Hcx0 Hcx1.
  set (positions := circle_positions radius (height img) (width img) cy cx).
  assert (∀ x y, (x, y) ∈ positions ↔
       0 ≤ x < width img ∧ 0 ≤ y < height img ∧
       (x - cx) ^ 2 + (y - cy) ^ 2 ≤ radius ^ 2) as Hpos.
  { intros x y. unfold positions. rewrite elem_of_circle_positions.
    rewrite !Z.pow_2_r. split; [intros (Hx & Hy & Hd); repeat split; lia|].
    intros (Hx & Hy & Hd).
    pose proof (within_radius _ _ _ Hr Hd) as [? ?].
    repeat split; lia. }
  destruct (traverse_total (λ xy, pixel img xy.2 xy.1) positions) as (pts & Hpts & Hall).
  { apply Forall_forall. intros [x y] Hin. apply Hpos in Hin as (Hx & Hy & _).
    destruct (pixel_in_bounds img y x Hrect Hy Hx) as (p & Hp & _). by exists p. }
  exists positions, pts. split; [done|]. split; [apply NoDup_circle_positions|].
  split; [done|]. split; [done|].
  rewrite (traverse_Ok_length _ _ _ Hpts). by apply length_circle_positions.
Qed.

Lemma traverse_pixel_past_border (img : image) (positions : list (Z * Z)) :
  rectangular img →
  Forall (λ xy, 0 ≤ xy.1 ≤ width img ∧ 0 ≤ xy.2 ≤ height img) positions →
  Exists (λ xy, xy.1 = width img ∨ xy.2 = height img) positions →
  traverse (λ xy, pixel img xy.2 xy.1) positions = Raise IndexError.
Proof.
  intros Hrect Hin Hout.
  induction positions as [|[x y] positions IH]; [by apply Exists_nil in Hout|].
  inversion Hin as [|? ? [Hx Hy] Hin']; subst. cbn in Hx, Hy.
  cbn [traverse fst snd].
  destruct (decide (y = height img)) as [->|Hy'].
  { unfold pixel, height. by rewrite getitem_past_end. }
  destruct (decide (x = width img)) as [->|Hx'].
  { unfold pixel.
    destruct (getitem_in_range img y) as (row & -> & Hrow); [unfold height in *; lia|].
    cbn.
    pose proof (Forall_lookup_1 _ _ _ _ Hrect Hrow) as Hlen. cbn in Hlen.
    rewrite <- Hlen. by rewrite getitem_past_end. }
  destruct (pixel_in_bounds img y x Hrect) as (p & -> & _); [lia|lia|]. cbn.
  rewrite IH; [done|done|].
  apply Exists_cons in Hout as [[?|?]|?]; cbn in *; [lia|lia|done].
Qed.

Lemma points_raise_past_border (img : image) (radius cy cx : Z) :
  rectangular img → 0 ≤ radius →
  0 ≤ cy < height img → 0 ≤ cx < width img →
  width img ≤ cx + radius ∨ height img ≤ cy + radius →
  points img radius cy cx = Raise IndexError.
Proof.
  intros Hrect Hr Hcy Hcx Hborder. unfold points.
  apply traverse_pixel_past_border; [done| |].
  - apply Forall_forall. intros [x y] Hxy.
    apply elem_of_circle_positions in Hxy. cbn. lia.
  - apply Exists_exists. destruct Hborder as [Hw|Hh].
    + exists (width img, cy). split; [|by left].
      apply elem_of_circle_positions. rewrite !Z.pow_2_r.
      repeat split; try lia. nia.
    + exists (cx, height img). split; [|by right].
      apply elem_of_circle_positions. rewrite !Z.pow_2_r.
      repeat split; try lia. nia.
Qed.

(** A maximum within [radius] of the right or of the lower border: the
    bounding box is clipped to [width] and [height], not to the last column
    and row, so the loops reach column [width] or row [height] at a position
    that lies within the radius, and the access raises [IndexError]. *)
Lemma points_past_border (img : image) (radius cy cx : Z) :
  rectangular img → 0 ≤ radius →
  0 ≤ cy < height img → 0 ≤ cx < width img →
  width img ≤ cx + radius ∨ height img ≤ cy + radius →
  points img radius cy cx = Raise IndexError.
Proof. apply points_raise_past_border. Qed.

Lemma score_from_exact (img : image) (radius : Z) (coordinates : list (Z * Z)) (total : Z) :
  rectangular img → 0 ≤ radius →
  Forall (Forall (λ p, 0 ≤ p < 2 ^ 32)) img →
  Forall (λ c, 0 ≤ c.1 ∧ c.1 + radius < height img ∧
               0 ≤ c.2 ∧ c.2 + radius < width img) coordinates →
  0 ≤ total →
  total + Z.of_nat (length coordinates) * ((2 * radius + 1) ^ 2 * 2 ^ 32) < 2 ^ 63 →
  ∃ kept : list (list Z),
    foldM (score_step img radius default_threshold_pct) total coordinates
      = Ok (total + Zsum (Zsum <$> kept)) ∧
    0 ≤ Zsum (Zsum <$> kept)
      ≤ Z.of_nat (length coordinates) * ((2 * radius + 1) ^ 2 * 2 ^ 32) ∧
    Forall2 (λ c k, ∃ positions pts rest,
        NoDup positions ∧
        (∀ x y, (x, y) ∈ positions ↔
           0 ≤ x < width img ∧ 0 ≤ y < height img ∧
           (x - c.2) ^ 2 + (y - c.1) ^ 2 ≤ radius ^ 2) ∧
        Forall2 (λ xy p, pixel img xy.2 xy.1 = Ok p) positions pts ∧
        pts ≡ₚ k ++ rest ∧
        Z.of_nat (length k) = Z.of_nat (length pts) / 20 ∧
        Forall (λ b, Forall (λ r, r ≤ b) rest) k)
      coordinates kept.
Proof.
  intros Hrect Hr Hrange Hcoords. revert total.
  induction Hcoords as [|[cy cx] coordinates (Hcy0 & Hcy1 & Hcx0 & Hcx1) _ IH];
    intros total Htotal Hfits.
  - exists []. cbn. split; [f_equal; lia|]. split; [lia|constructor].
  - cbn [fst snd] in *. cbn [length] in Hfits.
    destruct (points_of_disc img radius cy cx Hrect Hr Hcy0 Hcy1 Hcx0 Hcx1)
      as (positions & pts & Hpts & Hnodup & Hpos & Hvals & Hlen).
    destruct (relevant_points_brightest pts) as (rest & Hperm & Hk & Hord).
    set (k := relevant_points default_threshold_pct pts) in *.
    assert (Forall (λ p, 0 ≤ p < 2 ^ 32) pts) as Hpts_range.
    { clear -Hvals Hrange. induction Hvals as [|[x y] p ? ? Hp _ IHv]; constructor; [|done].
      by apply (pixel_Ok_Forall _ _ _ _ _ Hrange Hp). }
    assert (Forall (λ p, 0 ≤ p < 2 ^ 32) k) as Hk_range.
    { rewrite Hperm in Hpts_range. by apply Forall_app in Hpts_range as [? _]. }
    assert (0 ≤ Z.of_nat (length pts) / 20 ≤ Z.of_nat (length pts)) as Hdiv.
    { split; [apply Z.div_pos; lia|apply Z.div_le_upper_bound; lia]. }
    pose proof (Zsum_bounds _ _ Hk_range) as Hsum.
    assert (0 ≤ Zsum k ≤ (2 * radius + 1) ^ 2 * 2 ^ 32) as Hsum' by nia.
    assert (0 < (2 * radius + 1) ^ 2 * 2 ^ 32) as Hpos' by (rewrite Z.pow_2_r; nia).
    destruct (IH (total + Zsum k)) as (kept & Hfold & Hbound & Hall); [lia|nia|].
    exists (k :: kept). split; [|split].
    + cbn [foldM]. unfold score_step at 1. rewrite Hpts. cbn. fold k.
      rewrite np_sum_int64_exact; [|eapply Forall_impl; [exact Hk_range|]; cbn; lia|nia].
      rewrite wrap64_small by nia.
      rewrite Hfold. f_equal. fold (Zsum (Zsum <$> kept)). lia.
    + rewrite fmap_cons, Zsum_cons. cbn [length]. nia.
    + constructor; [|done]. exists positions, pts, rest. split_and!; done.
Qed.

(** C1, as stated, fails: the pixel of [rim_image] in row 8 and column 16
    lies at distance exactly 8 from the maximum at (8, 8), not strictly
    within the radius, and is collected all the same.  It is the second
    brightest of the 197 collected points, so it is among the nine that are
    kept, and the score is 3000, although the samples strictly within the
    radius add up to 2000. *)
Lemma score_collects_pixels_at_the_radius :
  (16, 8) ∈ circle_positions 8 (height rim_image) (width rim_image) 8 8 ∧
  ¬ ((16 - 8) ^ 2 + (8 - 8) ^ 2 < 8 ^ 2) ∧
  pixel rim_image 8 16 = Ok 1000 ∧
  score (detected [(8, 8)]) rim_image 10 8 default_threshold_pct = Ok 3000 ∧
  Zsum <$> traverse (λ xy, pixel rim_image xy.2 xy.1)
    (filter (λ xy, (xy.1 - 8) ^ 2 + (xy.2 - 8) ^ 2 < 8 ^ 2)
       (circle_positions 8 (height rim_image) (width rim_image) 8 8))
  = Ok 2000.
Proof.
  split_and!.
  - apply elem_of_circle_positions. vm_compute. repeat split; discriminate.
  - vm_compute. discriminate.
  - reflexivity.
  - vm_compute. reflexivity.
  - vm_compute. reflexivity.
Qed.

(** C1, amended. Take an image with samples below 2^32 and at most ten
    detected maxima (count = 10, spacing = radius = 8), each at least 8
    pixels from the lower and right borders, as the detector's border
    exclusion leaves them.  For every maximum the scorer collects exactly the
    pixels of the image whose Euclidean distance from the maximum is at most
    the radius (the pixels at distance exactly 8 included), each once; it
    keeps a twentieth of them, rounded down, none less bright than one it
    drops; and the score is the sum, over the maxima, of the sums of the kept
    pixels: an exact sum, the 64-bit additions never wrap. *)
Theorem score_sums_brightest_of_each_disc
    (peak_local_max : image → Z → Z → Qc → list (Z * Z)) (img : image) :
  rectangular img →
  Forall (Forall (λ p, 0 ≤ p < 2 ^ 32)) img →
  (length (_get_local_maxima peak_local_max img 10 8 default_threshold_rel) ≤ 10)%nat →
  Forall (λ c, 0 ≤ c.1 ∧ c.1 + 8 < height img ∧ 0 ≤ c.2 ∧ c.2 + 8 < width img)
    (_get_local_maxima peak_local_max img 10 8 default_threshold_rel) →
  ∃ kept : list (list Z),
    score peak_local_max img 10 8 default_threshold_pct = Ok (Zsum (Zsum <$> kept)) ∧
    0 ≤ Zsum (Zsum <$> kept) < 2 ^ 63 ∧
    Forall2 (λ c k, ∃ positions pts rest,
        NoDup positions ∧
        (∀ x y, (x, y) ∈ positions ↔
           0 ≤ x < width img ∧ 0 ≤ y < height img ∧
           (x - c.2) ^ 2 + (y - c.1) ^ 2 ≤ 8 ^ 2) ∧
        Forall2 (λ xy p, pixel img xy.2 xy.1 = Ok p) positions pts ∧
        pts ≡ₚ k ++ rest ∧
        Z.of_nat (length k) = Z.of_nat (length pts) / 20 ∧
        Forall (λ b, Forall (λ r, r ≤ b) rest) k)
      (_get_local_maxima peak_local_max img 10 8 default_threshold_rel) kept.
Proof.
  intros Hrect Hrange Hcount Hmargin. unfold score, score_from.
  set (coordinates := _get_local_maxima peak_local_max img 10 8 default_threshold_rel) in *.
  destruct (score_from_exact img 8 coordinates 0 Hrect ltac:(lia) Hrange Hmargin)
    as (kept & Hscore & Hbound & Hall); [lia|lia|].
  exists kept. rewrite Hscore. split; [f_equal; lia|]. split; [lia|done].
Qed.

Lemma score_sums_brightest_of_each_disc_witness :
  ∃ kept : list (list Z),
    score (detected [(8, 8)]) rim_image 10 8 default_threshold_pct
      = Ok (Zsum (Zsum <$> kept)) ∧
    0 ≤ Zsum (Zsum <$> kept) < 2 ^ 63 ∧
    Forall2 (λ c k, ∃ positions pts rest,
        NoDup positions ∧
        (∀ x y, (x, y) ∈ positions ↔
           0 ≤ x < width rim_image ∧ 0 ≤ y < height rim_image ∧
           (x - c.2) ^ 2 + (y - c.1) ^ 2 ≤ 8 ^ 2) ∧
        Forall2 (λ xy p, pixel rim_image xy.2 xy.1 = Ok p) positions pts ∧
        pts ≡ₚ k ++ rest ∧
        Z.of_nat (length k) = Z.of_nat (length pts) / 20 ∧
        Forall (λ b, Forall (λ r, r ≤ b) rest) k)
      [(8, 8)] kept.
Proof.
  apply (score_sums_brightest_of_each_disc (detected [(8, 8)]) rim_image).
  - apply (bool_decide_unpack _). vm_compute. exact I.
  - apply (bool_decide_unpack _). vm_compute. exact I.
  - cbn. lia.
  - repeat constructor; vm_compute; discriminate.
Defined.

(** ** The aspect-ratio mask *)

Lemma filterM_total {A} (p : A → result bool) (q : A → bool) (cs : list A) :
  Forall (λ c, p c = Ok (q c)) cs →
  filterM p cs = Ok (filter (λ c, q c = true) cs).
Proof.
  induction 1 as [|c cs Hc _ IH]; [done|].
  cbn [filterM]. rewrite Hc, IH.
  destruct (q c) eqn:Hq.
  - by rewrite filter_cons_True.
  - by rewrite filter_cons_False by by rewrite Hq.
Qed.

Lemma sample_drawContours (canvas : image) (contours : list contour) (color : Z * Z * Z)
    (y x : nat) :
  sample (drawContours canvas contours color) y x
  = (λ p, if bool_decide (Exists (λ c, (Z.of_nat x, Z.of_nat y) ∈ filled c) contours)
          then color.1.1 else p) <$> sample canvas y x.
Proof.
  unfold sample, drawContours. rewrite list_lookup_imap.
  destruct (canvas !! y) as [row|]; [|done]. cbn.
  by rewrite list_lookup_imap.
Qed.

Lemma aspect_is_between_fitted (rounded : Qc → Qc) (c : contour) (upper lower : Qc) :
  (5 ≤ length (points_of c))%nat → (ellipse_axes c).1 ≠ 0%Qc →
  _aspect_is_between rounded c upper lower
  = Ok (Qc_ltb (rounded ((ellipse_axes c).2 / (ellipse_axes c).1)%Qc) upper
        && Qc_ltb lower (rounded ((ellipse_axes c).2 / (ellipse_axes c).1)%Qc)).
Proof.
  intros Hpoints Hminor. unfold _aspect_is_between, fitEllipse.
  replace (length (points_of c) <? 5)%nat with false by (symmetry; apply Nat.ltb_ge; lia).
  destruct c as [pts [minor major] ?]. cbn in *. unfold truediv.
  by rewrite decide_False by done.
Qed.

(** C9, amended. When every external contour of the image has at least
    five points, so that an ellipse is fitted to it, and no division by
    zero occurs ([1 + error_bound] is not 0 and no fitted ellipse has a
    zero first axis), [get_aspect_mask] keeps exactly the contours whose
    axis ratio lies strictly between [target_ratio / (1 + error_bound)] and
    [target_ratio * (1 + error_bound)], all three as the floating-point
    operations deliver them, and returns a mask of the shape of the image
    in which every pixel covered by a kept contour is 0 and every other
    pixel is 255: the kept contours are drawn with the first component of
    the colour (0, 255, 0) on the all-255 canvas. *)
Theorem get_aspect_mask_draws_kept_contours
    (findContours : image → list contour) (rounded : Qc → Qc)
    (img : image) (target_ratio error_bound : Qc) :
  rounded (1 + error_bound)%Qc ≠ 0%Qc →
  Forall (λ c, (5 ≤ length (points_of c))%nat) (findContours img) →
  Forall (λ c, (ellipse_axes c).1 ≠ 0%Qc) (findContours img) →
  ∃ mask,
    get_aspect_mask findContours rounded img target_ratio error_bound = Ok mask ∧
    ∀ y x,
      sample mask y x
      = (λ _ : Z,
           if bool_decide
                (Exists (λ c, (Z.of_nat x, Z.of_nat y) ∈ filled c)
                   (filter (λ c,
                        (rounded (target_ratio / rounded (1 + error_bound))
                         < rounded ((ellipse_axes c).2 / (ellipse_axes c).1)
                         < rounded (target_ratio * rounded (1 + error_bound)))%Qc)
                      (findContours img)))
           then 0 else 255) <$> sample img y x.
Proof.
  intros Heb Hpoints Haxes. unfold get_aspect_mask, truediv.
  rewrite decide_False by done. cbn.
  set (lower := rounded (target_ratio / rounded (1 + error_bound))%Qc).
  set (upper := rounded (target_ratio * rounded (1 + error_bound))%Qc).
  rewrite (filterM_total _
    (λ c, Qc_ltb (rounded ((ellipse_axes c).2 / (ellipse_axes c).1)%Qc) upper
          && Qc_ltb lower (rounded ((ellipse_axes c).2 / (ellipse_axes c).1)%Qc))).
  2:{ apply Forall_forall. intros c Hc.
      rewrite Forall_forall in Hpoints. rewrite Forall_forall in Haxes.
      apply aspect_is_between_fitted; auto. }
  cbn. eexists. split; [done|]. intros y x.
  rewrite sample_drawContours. unfold ones_times_255. rewrite sample_fmap.
  rewrite <- option_fmap_compose. cbn [fst snd].
  assert (∀ l : list contour,
    filter (λ c, Qc_ltb (rounded ((ellipse_axes c).2 / (ellipse_axes c).1)%Qc) upper
                 && Qc_ltb lower (rounded ((ellipse_axes c).2 / (ellipse_axes c).1)%Qc)
                 = true) l
    = filter (λ c, (lower < rounded ((ellipse_axes c).2 / (ellipse_axes c).1)
                    < upper)%Qc) l)
    as ->; [|done].
  intros l. apply list_filter_iff. intros c.
  rewrite andb_true_iff, !Qc_ltb_lt. tauto.
Qed.

Lemma get_aspect_mask_draws_kept_contours_witness :
  ∃ mask,
    get_aspect_mask (λ _, [hexagon_contour]) id hexagon_image (Qc_of_Z 5) (Q2Qc (1 # 2))
      = Ok mask ∧
    ∀ y x,
      sample mask y x
      = (λ _ : Z,
           if bool_decide
                (Exists (λ c, (Z.of_nat x, Z.of_nat y) ∈ filled c)
                   (filter (λ c,
                        (id (Qc_of_Z 5 / id (1 + Q2Qc (1 # 2)))
                         < id ((ellipse_axes c).2 / (ellipse_axes c).1)
                         < id (Qc_of_Z 5 * id (1 + Q2Qc (1 # 2))))%Qc)
                      [hexagon_contour]))
           then 0 else 255) <$> sample hexagon_image y x.
Proof.
  apply (get_aspect_mask_draws_kept_contours (λ _, [hexagon_contour]) id hexagon_image
           (Qc_of_Z 5) (Q2Qc (1 # 2))).
  - vm_compute. discriminate.
  - repeat constructor; vm_compute; discriminate.
  - repeat constructor; vm_compute; discriminate.
Defined.

(** C9, as stated, fails where it puts the kept contours at 255.  The
    contour of [hexagon_image] has six points and an axis ratio of 5,
    strictly between 10/3 and 15/2 (none of the operations involved needs
    rounding to matter), so it is kept; the mask is 0 on the hexagon it
    covers, as at its centre in row 3 and column 27, and 255 around it: it
    is the image with black and white exchanged. *)
Lemma get_aspect_mask_kept_contour_is_black :
  (5 ≤ length (points_of hexagon_contour))%nat ∧
  (Qc_of_Z 5 / (1 + Q2Qc (1 # 2)) < Qc_of_Z 52 / Q2Qc (52 # 5)
   < Qc_of_Z 5 * (1 + Q2Qc (1 # 2)))%Qc ∧
  (27, 3) ∈ filled hexagon_contour ∧
  sample hexagon_image 3 27 = Some 255 ∧
  ∃ mask,
    get_aspect_mask (λ _, [hexagon_contour]) id hexagon_image (Qc_of_Z 5) (Q2Qc (1 # 2))
    = Ok mask ∧
    sample mask 3 27 = Some 0 ∧
    sample mask 0 0 = Some 255 ∧
    mask = fmap (M:=list) (fmap (M:=list) (λ p, 255 - p)) hexagon_image.
Proof.
  split; [cbn; lia|].
  split; [split; by apply Qc_ltb_lt|]. split.
  - apply (bool_decide_unpack _). vm_compute. exact I.
  - split; [reflexivity|]. eexists. split; [vm_compute; reflexivity|].
    split; [reflexivity|]. split; [reflexivity|]. vm_compute. reflexivity.
Qed.

Lemma filterM_first_failure {A} (p : A → result bool) (before after : list A) (c : A)
    (e : exn) :
  Forall (λ c', ∃ keep, p c' = Ok keep) before → p c = Raise e →
  filterM p (before ++ c :: after) = Raise e.
Proof.
  intros Hbefore Hc. induction Hbefore as [|c' before [keep Hkeep] _ IH].
  - cbn [app filterM]. by rewrite Hc.
  - cbn [app filterM]. rewrite Hkeep, IH. done.
Qed.

(** A contour of fewer than five points stops [get_aspect_mask] with the
    error of [cv.fitEllipse], when the contours before it were fitted and
    [1 + error_bound] is not 0. *)
Lemma get_aspect_mask_few_points
    (findContours : image → list contour) (rounded : Qc → Qc)
    (img : image) (target_ratio error_bound : Qc)
    (before after : list contour) (c : contour) :
  rounded (1 + error_bound)%Qc ≠ 0%Qc →
  findContours img = before ++ c :: after →
  Forall (λ c', (5 ≤ length (points_of c'))%nat ∧ (ellipse_axes c').1 ≠ 0%Qc) before →
  (length (points_of c) < 5)%nat →
  get_aspect_mask findContours rounded img target_ratio error_bound = Raise CvError.
Proof.
  intros Heb Hcontours Hbefore Hfew. unfold get_aspect_mask, truediv.
  rewrite decide_False by done. cbn. rewrite Hcontours.
  rewrite (filterM_first_failure _ before after c CvError); [done| |].
  - eapply Forall_impl; [exact Hbefore|]. intros c' [Hpoints Haxis].
    eexists. by apply aspect_is_between_fitted.
  - unfold _aspect_is_between, fitEllipse.
    by replace (length (points_of c) <? 5)%nat with true by (symmetry; apply Nat.ltb_lt; lia).
Qed.

(** The rectangle of [blob_image] has a contour of four points. *)
Lemma get_aspect_mask_few_points_witness :
  get_aspect_mask (λ _, [blob_contour]) id blob_image (Qc_of_Z 5) (Q2Qc (1 # 2))
  = Raise CvError.
Proof.
  apply (get_aspect_mask_few_points (λ _, [blob_contour]) id blob_image
           (Qc_of_Z 5) (Q2Qc (1 # 2)) [] [] blob_contour).
  - vm_compute. discriminate.
  - reflexivity.
  - constructor.
  - cbn. lia.
Defined.

(** ** Small neighbourhoods *)

Lemma relevant_points_few (pts : list Z) :
  (length pts < 20)%nat → relevant_points default_threshold_pct pts = [].
Proof.
  intros Hfew. unfold relevant_points. rewrite int_of_twentieth by lia.
  rewrite Z.div_small by lia. reflexivity.
Qed.

Lemma score_step_few (img : image) (radius total : Z) (c : Z * Z) (pts : list Z) :
  points img radius c.1 c.2 = Ok pts → (length pts < 20)%nat →
  - 2 ^ 63 ≤ total < 2 ^ 63 →
  score_step img radius default_threshold_pct total c = Ok total.
Proof.
  intros Hpts Hfew Htotal. destruct c as [cy cx]. unfold score_step.
  cbn [fst snd] in Hpts. rewrite Hpts.
  change (Ok ?x ≫= ?f) with (f x). cbv beta.
  rewrite relevant_points_few by done.
  change (np_sum_int64 []) with 0. rewrite Z.add_0_r. by rewrite wrap64_small.
Qed.

Lemma score_from_few (img : image) (radius : Z) (coordinates : list (Z * Z)) (total : Z) :
  Forall (λ c, ∃ pts, points img radius c.1 c.2 = Ok pts ∧ (length pts < 20)%nat)
    coordinates →
  - 2 ^ 63 ≤ total < 2 ^ 63 →
  foldM (score_step img radius default_threshold_pct) total coordinates = Ok total.
Proof.
  intros Hall Htotal. induction Hall as [|c coordinates (pts & Hpts & Hfew) _ IH]; [done|].
  cbn [foldM]. rewrite (score_step_few _ _ _ _ _ Hpts Hfew Htotal). apply IH.
Qed.

(** The quarter of the disc of radius 8 below and to the right of a
    position has 58 points, and they are read whenever the disc is read
    without an exception. *)
Lemma points_radius_8_many (img : image) (cy cx : Z) (pts : list Z) :
  rectangular img → 0 ≤ cy < height img → 0 ≤ cx < width img →
  points img 8 cy cx = Ok pts →
  (58 ≤ length pts)%nat ∧
  (2 ≤ length (relevant_points default_threshold_pct pts))%nat.
Proof.
  intros Hrect Hcy Hcx Hpts.
  destruct (decide (width img ≤ cx + 8 ∨ height img ≤ cy + 8)) as [Hborder|Hinside].
  { by rewrite (points_raise_past_border img 8 cy cx Hrect) in Hpts by (done || lia). }
  assert (58 ≤ length pts)%nat as Hmany.
  { rewrite (traverse_Ok_length _ _ _ Hpts).
    set (quarter := (λ ij : Z * Z, (cx + ij.1, cy + ij.2)) <$> circle_positions 8 9 9 0 0).
    change 58%nat with (length (circle_positions 8 9 9 0 0)).
    rewrite <- (length_fmap (λ ij : Z * Z, (cx + ij.1, cy + ij.2))). fold quarter.
    apply submseteq_length, NoDup_submseteq.
    - apply NoDup_fmap_2; [|apply NoDup_circle_positions].
      intros [i j] [i' j']. cbn. intros [= ? ?]. f_equal; lia.
    - intros [x y] ([i j] & [= -> ->] & Hij)%list_elem_of_fmap.
      apply elem_of_circle_positions in Hij. apply elem_of_circle_positions.
      cbn [fst snd]. rewrite !Z.pow_2_r in *.
      replace (cx + i - cx) with (i - 0) by lia.
      replace (cy + j - cy) with (j - 0) by lia.
      repeat split; lia. }
  split; [done|].
  destruct (relevant_points_brightest pts) as (_ & _ & Hkept & _).
  assert (2 ≤ Z.of_nat (length pts) / 20) by (apply Z.div_le_lower_bound; lia).
  lia.
Qed.

Lemma foldM_app {A B} (f : B → A → result B) (acc : B) (l1 l2 : list A) :
  foldM f acc (l1 ++ l2) = foldM f acc l1 ≫= λ acc', foldM f acc' l2.
Proof.
  revert acc. induction l1 as [|x l1 IH]; intros acc; [done|].
  cbn [foldM app]. destruct (f acc x) as [acc'|e]; [apply IH|done].
Qed.

Lemma wrap64_range (z : Z) : - 2 ^ 63 ≤ wrap64 z < 2 ^ 63.
Proof. unfold wrap64. pose proof (Z.mod_pos_bound (z + 2 ^ 63) (2 ^ 64)). lia. Qed.

Lemma score_step_range (img : image) (radius : Z) (threshold_pct : Qc)
    (total total' : Z) (c : Z * Z) :
  score_step img radius threshold_pct total c = Ok total' →
  - 2 ^ 63 ≤ total' < 2 ^ 63.
Proof.
  destruct c as [cy cx]. unfold score_step.
  destruct (points img radius cy cx) as [pts|e]; [|done].
  intros [= <-]. apply wrap64_range.
Qed.

Lemma foldM_score_step_range (img : image) (radius : Z) (threshold_pct : Qc)
    (coordinates : list (Z * Z)) (total total' : Z) :
  - 2 ^ 63 ≤ total < 2 ^ 63 →
  foldM (score_step img radius threshold_pct) total coordinates = Ok total' →
  - 2 ^ 63 ≤ total' < 2 ^ 63.
Proof.
  revert total. induction coordinates as [|c coordinates IH]; intros total Htotal.
  - by intros [= <-].
  - cbn [foldM].
    destruct (score_step img radius threshold_pct total c) as [t|e] eqn:Hstep; [|done].
    apply IH. by eapply score_step_range.
Qed.

Lemma Zsum_pos (l : list Z) (p : Z) :
  Forall (λ q, 0 ≤ q) l → p ∈ l → 0 < p → 0 < Zsum l.
Proof.
  intros Hall Hin Hp. induction Hall as [|q l Hq Hl IH]; [by apply elem_of_nil in Hin|].
  rewrite Zsum_cons. pose proof (Zsum_nonneg l Hl).
  apply elem_of_cons in Hin as [->|Hin]; [lia|]. specialize (IH Hin). lia.
Qed.

(** The brightest points of a neighbourhood add up to more than zero when
    one of the points is positive, none is negative and one at least is
    kept. *)
Lemma kept_points_positive (pts k rest : list Z) (p : Z) :
  pts ≡ₚ k ++ rest → Forall (λ q, 0 ≤ q) pts → p ∈ pts → 0 < p →
  (1 ≤ length k)%nat → Forall (λ b, Forall (λ r, r ≤ b) rest) k →
  0 < Zsum k.
Proof.
  intros Hperm Hnonneg Hin Hp Hlen Hord.
  rewrite Hperm in Hnonneg, Hin. apply Forall_app in Hnonneg as [Hk _].
  apply elem_of_app in Hin as [Hin|Hin]; [by eapply Zsum_pos|].
  destruct k as [|b k]; [cbn in Hlen; lia|].
  apply (Zsum_pos _ b); [done|by left|].
  inversion Hord as [|? ? Hb _]; subst.
  rewrite Forall_forall in Hb. specialize (Hb p Hin). lia.
Qed.

(** A disc of radius 8 whose lower right quarter lies within the image has
    58 positions or more. *)
Lemma disc_positions_many (img : image) (cy cx : Z) (positions : list (Z * Z)) :
  0 ≤ cy → cy + 8 < height img → 0 ≤ cx → cx + 8 < width img →
  (∀ x y, (x, y) ∈ positions ↔
     0 ≤ x < width img ∧ 0 ≤ y < height img ∧
     (x - cx) ^ 2 + (y - cy) ^ 2 ≤ 8 ^ 2) →
  (58 ≤ length positions)%nat.
Proof.
  intros Hcy0 Hcy1 Hcx0 Hcx1 Hpos.
  set (quarter := (λ ij : Z * Z, (cx + ij.1, cy + ij.2)) <$> circle_positions 8 9 9 0 0).
  change 58%nat with (length (circle_positions 8 9 9 0 0)).
  rewrite <- (length_fmap (λ ij : Z * Z, (cx + ij.1, cy + ij.2))). fold quarter.
  apply submseteq_length, NoDup_submseteq.
  - apply NoDup_fmap_2; [|apply NoDup_circle_positions].
    intros [i j] [i' j']. cbn. intros [= ? ?]. f_equal; lia.
  - intros [x y] ([i j] & [= -> ->] & Hij)%list_elem_of_fmap.
    apply elem_of_circle_positions in Hij. apply Hpos.
    cbn [fst snd]. rewrite !Z.pow_2_r in *.
    replace (cx + i - cx) with (i - 0) by lia.
    replace (cy + j - cy) with (j - 0) by lia.
    repeat split; lia.
Qed.

(** With the radius of 8, a detected maximum whose sample is positive makes
    the score positive: on an image without negative samples, with at most
    ten maxima that lie 8 pixels inside the lower and right borders, the
    maximum itself is among the points collected around it, two points at
    least are kept, and none of the kept ones is below it. *)
Lemma score_positive_at_radius_8
    (peak_local_max : image → Z → Z → Qc → list (Z * Z)) (img : image) :
  rectangular img →
  Forall (Forall (λ p, 0 ≤ p < 2 ^ 32)) img →
  _get_local_maxima peak_local_max img 10 8 default_threshold_rel ≠ [] →
  (length (_get_local_maxima peak_local_max img 10 8 default_threshold_rel) ≤ 10)%nat →
  Forall (λ c, 0 ≤ c.1 ∧ c.1 + 8 < height img ∧ 0 ≤ c.2 ∧ c.2 + 8 < width img)
    (_get_local_maxima peak_local_max img 10 8 default_threshold_rel) →
  Forall (λ c, ∃ p, pixel img c.1 c.2 = Ok p ∧ 0 < p)
    (_get_local_maxima peak_local_max img 10 8 default_threshold_rel) →
  ∃ total, score peak_local_max img 10 8 default_threshold_pct = Ok total ∧ 0 < total.
Proof.
  intros Hrect Hrange Hne Hcount Hmargin Hpeak. unfold score, score_from.
  set (coordinates := _get_local_maxima peak_local_max img 10 8 default_threshold_rel) in *.
  destruct (score_from_exact img 8 coordinates 0 Hrect ltac:(lia) Hrange Hmargin)
    as (kept & Hscore & _ & Hall); [lia|lia|].
  exists (0 + Zsum (Zsum <$> kept)). split; [done|].
  assert (Forall2 (λ c k, 0 < Zsum k) coordinates kept) as Hpos.
  { clear Hscore Hne Hcount.
    induction Hall as [|c k coordinates kept Hck _ IH]; [constructor|].
    inversion Hmargin as [|? ? (Hcy0 & Hcy1 & Hcx0 & Hcx1) Hmargin']; subst.
    inversion Hpeak as [|? ? (p & Hp & Hp0) Hpeak']; subst.
    constructor; [|by apply IH].
    destruct Hck as (positions & pts & rest & _ & Hdisc & Hvals & Hperm & Hlen & Hord).
    assert (Forall (λ q, 0 ≤ q) pts) as Hnonneg.
    { apply Forall_forall. intros q Hq.
      apply list_elem_of_lookup in Hq as [i Hq].
      destruct (Forall2_lookup_r _ _ _ _ _ Hvals Hq) as (xy & _ & Hxy).
      exact (proj1 (pixel_Ok_Forall _ _ _ _ _ Hrange Hxy)). }
    assert (p ∈ pts) as Hin.
    { assert ((c.2, c.1) ∈ positions) as Hcentre.
      { apply Hdisc. rewrite !Z.sub_diag. cbn. lia. }
      apply list_elem_of_lookup in Hcentre as [i Hi].
      destruct (Forall2_lookup_l _ _ _ _ _ Hvals Hi) as (q & Hq & Hpixel).
      cbn [fst snd] in Hpixel. rewrite Hp in Hpixel. injection Hpixel as <-.
      by eapply list_elem_of_lookup_2. }
    apply (kept_points_positive pts k rest p); [done..| |done].
    pose proof (disc_positions_many img c.1 c.2 positions Hcy0 Hcy1 Hcx0 Hcx1 Hdisc)
      as Hmany.
    rewrite (Forall2_length _ _ _ Hvals) in Hmany.
    assert (2 ≤ Z.of_nat (length pts) / 20) by (apply Z.div_le_lower_bound; lia).
    lia. }
  clear -Hpos Hne.
  assert (coordinates ≠ [] → 0 < Zsum (Zsum <$> kept)) as H; [|specialize (H Hne); lia].
  clear Hne. induction Hpos as [|c k coordinates kept Hk Hrest IH]; [done|].
  intros _. cbn [fmap list_fmap]. rewrite Zsum_cons.
  destruct coordinates as [|c' coordinates].
  - inversion Hrest; subst. cbn. lia.
  - assert (0 < Zsum (Zsum <$> kept)) by by apply IH. lia.
Qed.

(** A maximum with fewer than 20 points can be left out of the list of
    maxima, wherever it stands in it, without changing the score. *)
Lemma score_from_without_few (img : image) (radius : Z) (before after : list (Z * Z))
    (c : Z * Z) (pts : list Z) :
  points img radius c.1 c.2 = Ok pts → (length pts < 20)%nat →
  score_from img radius default_threshold_pct (before ++ c :: after)
  = score_from img radius default_threshold_pct (before ++ after).
Proof.
  intros Hpts Hfew. unfold score_from. rewrite !foldM_app.
  destruct (foldM (score_step img radius default_threshold_pct) 0 before)
    as [total|e] eqn:Hbefore; [|done].
  change (Ok ?x ≫= ?f) with (f x). cbv beta. cbn [foldM].
  rewrite (score_step_few img radius total c pts Hpts Hfew); [done|].
  eapply foldM_score_step_range; [|exact Hbefore]. lia.
Qed.

(** With the radius of 8 that [score] is called with, the neighbourhood of
    a maximum inside the image is never small: whenever its points are
    collected without an exception, the quarter of the disc below and to
    the right of the maximum lies within the image, and that alone is 58
    points; so at least two points are kept. *)
Lemma points_default_radius_many (img : image) (cy cx : Z) (pts : list Z) :
  rectangular img → 0 ≤ cy < height img → 0 ≤ cx < width img →
  points img 8 cy cx = Ok pts →
  (58 ≤ length pts)%nat ∧
  (2 ≤ length (relevant_points default_threshold_pct pts))%nat.
Proof. apply points_radius_8_many. Qed.

(** ** Morphology *)

(** A size or an iteration count of zero (or less) leaves the image as it
    is, for each of the three operations. *)
Lemma morphology_no_op (cv_erode cv_dilate cv_close : image → kernel → Z → image)
    (img : image) (size iterations : Z) :
  size ≤ 0 ∨ iterations ≤ 0 →
  erode cv_erode img size iterations = img ∧
  dilate cv_dilate img size iterations = img ∧
  close cv_close img size iterations = img.
Proof.
  intros Hzero. unfold erode, dilate, close.
  assert ((size >? 0) && (iterations >? 0) = false) as ->; [|done].
  apply andb_false_iff. destruct Hzero; [left|right]; lia.
Qed.

Lemma morphology_no_op_witness :
  erode (λ _ _ _, []) [[1; 2]; [3; 4]] 0 16 = [[1; 2]; [3; 4]] ∧
  dilate (λ _ _ _, []) [[1; 2]; [3; 4]] 0 16 = [[1; 2]; [3; 4]] ∧
  close (λ _ _ _, []) [[1; 2]; [3; 4]] 0 16 = [[1; 2]; [3; 4]].
Proof.
  apply (morphology_no_op (λ _ _ _, []) (λ _ _ _, []) (λ _ _ _, []) [[1; 2]; [3; 4]] 0 16).
  left. lia.
Defined.

(** With a threshold that is not negative, [binarize] yields a mask: 255
    where the sample is below the threshold and 0 elsewhere. *)
Lemma binarize_mask (img : image) (threshold : Z) (y x : nat) :
  0 ≤ threshold →
  sample (binarize img threshold) y x
  = (λ p : Z, if p <? threshold then 255 else 0) <$> sample img y x.
Proof.
  intros Hthreshold. unfold binarize.
  replace (threshold >=? 0) with true by lia. apply sample_fmap.
Qed.

(** ** Applying a mask *)

Lemma foldr_max_ge (p : Z) (ps : list Z) :
  p ≤ foldr Z.max p ps ∧ Forall (λ q, q ≤ foldr Z.max p ps) ps.
Proof.
  induction ps as [|q ps [IHp IHps]]; cbn; [by split|].
  split; [lia|]. constructor; [lia|].
  eapply Forall_impl; [exact IHps|]. cbn. lia.
Qed.

Lemma img_max_ge (img : image) (v : Z) (y x : nat) (p : Z) :
  img_max img = Ok v → sample img y x = Some p → p ≤ v.
Proof.
  unfold img_max, sample. intros Hmax Hp.
  destruct (img !! y) as [row|] eqn:Hrow; [|done]. cbn in Hp.
  assert (p ∈ concat img) as Hin.
  { apply list_elem_of_In, in_concat. exists row.
    split; apply list_elem_of_In; by eapply list_elem_of_lookup_2. }
  destruct (concat img) as [|q qs]; [done|]. injection Hmax as <-.
  destruct (foldr_max_ge q qs) as [Hq Hqs].
  apply elem_of_cons in Hin as [->|Hin]; [done|].
  rewrite Forall_forall in Hqs. by apply Hqs.
Qed.

(** On an image with samples from 0 to 2147483647 and a mask of its shape,
    [apply_mask] keeps the samples under the white (255) pixels of the mask
    and sets all others to 0. *)
Lemma apply_mask_keeps_foreground (img mask : image) :
  concat img ≠ [] →
  Forall (Forall (λ p, 0 ≤ p ≤ 2147483647)) img →
  same_shape img mask = true →
  ∃ masked,
    apply_mask img mask = Ok masked ∧
    ∀ y x p, sample img y x = Some p →
      ∃ m, sample mask y x = Some m ∧
           sample masked y x = Some (if m =? 255 then p else 0).
Proof.
  intros Hne Hrange Hshape.
  destruct (img_max_total img 2147483647 Hne) as (v & Hv & Hle).
  { eapply Forall_impl; [exact Hrange|]. intros row Hrow.
    eapply Forall_impl; [exact Hrow|]. cbn. lia. }
  destruct (get_bit_depth_total img v Hv Hle) as (t & Hdepth).
  assert (v ≤ iinfo_max t) as Hbound.
  { rewrite (get_bit_depth_of_max _ _ Hv) in Hdepth. cbn [digitize_right] in Hdepth.
    destruct (v <=? 255) eqn:H8; [injection Hdepth as <-; cbn; lia|].
    destruct (v <=? 65535) eqn:H16; [injection Hdepth as <-; cbn; lia|].
    destruct (v <=? 2147483647) eqn:H32; [injection Hdepth as <-; cbn; lia|done]. }
  unfold apply_mask. rewrite Hdepth. cbn. unfold elementwise. rewrite Hshape.
  eexists. split; [done|]. intros y x p Hp.
  destruct (sample_same_shape img mask y x p Hshape Hp) as [m Hm].
  exists m. split; [done|].
  pose proof (img_max_ge img v y x p Hv Hp).
  pose proof (sample_Forall _ _ _ _ _ Hrange Hp) as [Hp0 _].
  rewrite sample_zip_with, Hp, Hm. cbn. f_equal.
  destruct (m =? 255); lia.
Qed.

Lemma apply_mask_keeps_foreground_witness :
  ∃ masked,
    apply_mask [[10; 300]; [7; 0]] [[255; 0]; [0; 255]] = Ok masked ∧
    ∀ y x p, sample [[10; 300]; [7; 0]] y x = Some p →
      ∃ m, sample [[255; 0]; [0; 255]] y x = Some m ∧
           sample masked y x = Some (if m =? 255 then p else 0).
Proof.
  apply (apply_mask_keeps_foreground [[10; 300]; [7; 0]] [[255; 0]; [0; 255]]).
  - discriminate.
  - repeat constructor; vm_compute; discriminate.
  - reflexivity.
Defined.

(** ** Instances of the facts about the borders and the default radius *)

Lemma points_past_border_witness :
  points (replicate 17 (replicate 17 0)) 8 8 9 = Raise IndexError.
Proof.
  apply (points_past_border (replicate 17 (replicate 17 0)) 8 8 9).
  - apply (bool_decide_unpack _). vm_compute. exact I.
  - lia.
  - vm_compute. split; [discriminate|reflexivity].
  - vm_compute. split; [discriminate|reflexivity].
  - left. vm_compute. discriminate.
Defined.

Lemma points_default_radius_many_witness :
  ∃ pts,
    points (replicate 17 (replicate 17 0)) 8 8 8 = Ok pts ∧
    (58 ≤ length pts)%nat ∧
    (2 ≤ length (relevant_points default_threshold_pct pts))%nat.
Proof.
  eexists. split; [vm_compute; reflexivity|].
  apply (points_default_radius_many (replicate 17 (replicate 17 0)) 8 8).
  - apply (bool_decide_unpack _). vm_compute. exact I.
  - vm_compute. split; [discriminate|reflexivity].
  - vm_compute. split; [discriminate|reflexivity].
  - vm_compute. reflexivity.
Defined.

(** ** The mask pipelines *)

Lemma get_bit_depth_Ok (img : image) :
  concat img ≠ [] → Forall (Forall (λ p, p ≤ 2147483647)) img →
  ∃ t, _get_bit_depth img = Ok (t, iinfo_max t).
Proof.
  intros Hne Hrange.
  destruct (img_max_total img 2147483647 Hne Hrange) as (v & Hv & Hle).
  by apply (get_bit_depth_total img v).
Qed.

Lemma get_bit_depth_8bit (img : image) :
  concat img ≠ [] → Forall (Forall (λ p, p ≤ 255)) img →
  _get_bit_depth img = Ok (UInt8, 255).
Proof.
  intros Hne Hrange.
  destruct (img_max_total img 255 Hne Hrange) as (v & Hv & Hle).
  rewrite (get_bit_depth_of_max _ _ Hv). cbn [digitize_right].
  by replace (v <=? 255) with true by lia.
Qed.

Lemma apply_mask_Ok (img mask : image) :
  concat img ≠ [] → Forall (Forall (λ p, p ≤ 2147483647)) img →
  same_shape img mask = true →
  ∃ masked, apply_mask img mask = Ok masked.
Proof.
  intros Hne Hrange Hshape.
  destruct (get_bit_depth_Ok img Hne Hrange) as (t & Hdepth).
  unfold apply_mask. rewrite Hdepth. cbn. unfold elementwise. rewrite Hshape.
  by eexists.
Qed.

Lemma concat_fmap_fmap (f : Z → Z) (img : image) :
  concat (fmap (M:=list) (fmap (M:=list) f) img) = f <$> concat img.
Proof.
  induction img as [|row img IH]; [done|].
  cbn [concat]. rewrite fmap_cons. cbn [concat]. by rewrite IH, fmap_app.
Qed.

Lemma fmap_fmap_ext (P : Z → Prop) (f : Z → Z) (img : image) :
  (∀ p, P p → f p = p) → Forall (Forall P) img →
  fmap (M:=list) (fmap (M:=list) f) img = img.
Proof.
  intros Hf. induction 1 as [|row img Hrow _ IH]; [done|].
  rewrite fmap_cons, IH. f_equal.
  induction Hrow as [|p row Hp _ IHrow]; [done|].
  by rewrite fmap_cons, IHrow, Hf.
Qed.

Lemma Forall_fmap_fmap (P : Z → Prop) (f : Z → Z) (img : image) :
  Forall (Forall (λ p, P (f p))) img →
  Forall (Forall P) (fmap (M:=list) (fmap (M:=list) f) img).
Proof.
  intros Hall. apply Forall_fmap. eapply Forall_impl; [exact Hall|].
  intros row Hrow. by apply Forall_fmap.
Qed.

(** On an 8-bit image, [invert] replaces every sample [p] by [255 - p], and
    inverting the result gives the image back. *)
Lemma invert_involution (img : image) :
  concat img ≠ [] →
  Forall (Forall (λ p, 0 ≤ p ≤ 255)) img →
  ∃ inverted,
    invert UInt8 img = Ok inverted ∧
    (∀ y x, sample inverted y x = (λ p, 255 - p) <$> sample img y x) ∧
    invert UInt8 inverted = Ok img.
Proof.
  intros Hne Hrange.
  assert (∀ p, 0 ≤ p ≤ 255 → wrap UInt8 (255 - p) = 255 - p) as Hwrap.
  { intros p Hp. unfold wrap. cbn. rewrite Z.mod_small; lia. }
  assert (Forall (Forall (λ p, p ≤ 255)) img) as Hle.
  { eapply Forall_impl; [exact Hrange|]. intros row Hrow.
    eapply Forall_impl; [exact Hrow|]. cbn. lia. }
  unfold invert at 1. rewrite (get_bit_depth_8bit img Hne Hle). cbn.
  eexists. split; [done|]. split.
  - intros y x. rewrite sample_fmap.
    destruct (sample img y x) as [p|] eqn:Hp; [|done]. cbn. f_equal.
    apply Hwrap. exact (sample_Forall _ _ _ _ _ Hrange Hp).
  - unfold invert. rewrite get_bit_depth_8bit.
    + cbn. f_equal. rewrite <- list_fmap_compose.
      erewrite (list_fmap_ext _ (fmap (M:=list) (λ p, wrap UInt8 (255 - wrap UInt8 (255 - p))))).
      2:{ intros i row _. cbn. by rewrite <- list_fmap_compose. }
      apply (fmap_fmap_ext (λ p, 0 ≤ p ≤ 255)); [|done].
      intros p Hp. rewrite (Hwrap p Hp), Hwrap; lia.
    + rewrite concat_fmap_fmap. destruct (concat img); [done|]. by rewrite fmap_cons.
    + apply Forall_fmap_fmap. eapply Forall_impl; [exact Hrange|]. intros row Hrow.
      eapply Forall_impl; [exact Hrow|]. cbn. intros p Hp. rewrite Hwrap; lia.
Qed.

Lemma invert_involution_witness :
  ∃ inverted,
    invert UInt8 [[0; 255]; [255; 7]] = Ok inverted ∧
    (∀ y x, sample inverted y x = (λ p, 255 - p) <$> sample [[0; 255]; [255; 7]] y x) ∧
    invert UInt8 inverted = Ok [[0; 255]; [255; 7]].
Proof.
  apply (invert_involution [[0; 255]; [255; 7]]).
  - discriminate.
  - repeat constructor; vm_compute; discriminate.
Defined.

Lemma setitem_in_range {A} (l : list A) (i : Z) (a : A) :
  0 ≤ i < Z.of_nat (length l) → setitem l i a = Ok (<[Z.to_nat i := a]> l).
Proof.
  intros Hi. unfold setitem.
  replace (i <? 0) with false by lia.
  replace (0 <=? i) with true by lia.
  by replace (i <? Z.of_nat (length l)) with true by lia.
Qed.

Lemma set_pixel_in_bounds (img : image) (y x v : Z) :
  0 ≤ y → 0 ≤ x → is_Some (sample img (Z.to_nat y) (Z.to_nat x)) →
  ∃ img',
    set_pixel img y x v = Ok img' ∧
    ∀ y' x',
      sample img' y' x'
      = (λ p, if bool_decide ((Z.of_nat y', Z.of_nat x') = (y, x)) then v else p)
          <$> sample img y' x'.
Proof.
  intros Hy Hx [p Hp]. unfold sample in Hp.
  destruct (img !! Z.to_nat y) as [row|] eqn:Hrow; [|done]. cbn in Hp.
  pose proof (lookup_lt_Some _ _ _ Hrow) as Hylt.
  pose proof (lookup_lt_Some _ _ _ Hp) as Hxlt.
  unfold set_pixel.
  destruct (getitem_in_range img y) as (row' & -> & Hrow'); [lia|].
  rewrite Hrow in Hrow'. injection Hrow' as <-.
  change (Ok row ≫= ?f) with (f row). cbv beta.
  rewrite setitem_in_range by lia.
  change (Ok ?r ≫= ?f) with (f r). cbv beta.
  rewrite setitem_in_range by lia.
  eexists. split; [done|]. intros y' x'. unfold sample.
  destruct (decide (y' = Z.to_nat y)) as [->|Hne].
  - rewrite list_lookup_insert_eq by done. rewrite Hrow. cbn.
    destruct (decide (x' = Z.to_nat x)) as [->|Hnex].
    + rewrite list_lookup_insert_eq by done. rewrite Hp. cbn.
      rewrite bool_decide_eq_true_2; [done|]. f_equal; lia.
    + rewrite list_lookup_insert_ne by done.
      destruct (row !! x') as [q|]; [|done]. cbn.
      rewrite bool_decide_eq_false_2; [done|]. intros [= _ Heq]. lia.
  - rewrite list_lookup_insert_ne by done.
    destruct (img !! y') as [row'|]; [|done]. cbn.
    destruct (row' !! x') as [q|]; [|done]. cbn.
    rewrite bool_decide_eq_false_2; [done|]. intros [= Heq _]. lia.
Qed.

Lemma foldM_set_pixel (v : Z) (cs : list (Z * Z)) (img : image) :
  Forall (λ c, 0 ≤ c.1 ∧ 0 ≤ c.2 ∧
               is_Some (sample img (Z.to_nat c.1) (Z.to_nat c.2))) cs →
  ∃ img',
    foldM (λ maxima coordinate, set_pixel maxima coordinate.1 coordinate.2 v) img cs
    = Ok img' ∧
    ∀ y x,
      sample img' y x
      = (λ p, if bool_decide ((Z.of_nat y, Z.of_nat x) ∈ cs) then v else p)
          <$> sample img y x.
Proof.
  revert img. induction cs as [|[cy cx] cs IH]; intros img Hall.
  - eexists. split; [done|]. intros y x. cbn.
    destruct (sample img y x); [|done]. cbn.
    rewrite bool_decide_eq_false_2; [done|]. apply not_elem_of_nil.
  - inversion Hall as [|? ? (Hy & Hx & Hin) Hrest]; subst. cbn in Hy, Hx, Hin.
    destruct (set_pixel_in_bounds img cy cx v Hy Hx Hin) as (img1 & Hset & Hsample).
    destruct (IH img1) as (img' & Hfold & Hsample').
    { eapply Forall_impl; [exact Hrest|]. intros c (? & ? & [p Hp]).
      split_and!; [done..|]. rewrite Hsample, Hp. by eexists. }
    exists img'. split.
    + cbn [foldM]. cbn [fst snd]. rewrite Hset. exact Hfold.
    + intros y x. rewrite Hsample', Hsample.
      destruct (sample img y x) as [p|]; [|done]. cbn. f_equal.
      destruct (decide ((Z.of_nat y, Z.of_nat x) = (cy, cx))) as [Heq|Hne].
      * rewrite (bool_decide_eq_true_2 _ Heq).
        rewrite (bool_decide_eq_true_2 (_ ∈ (cy, cx) :: cs))
          by (rewrite Heq; apply elem_of_cons; by left).
        by destruct (bool_decide _).
      * rewrite (bool_decide_eq_false_2 _ Hne).
        rewrite (bool_decide_ext (_ ∈ (cy, cx) :: cs) ((Z.of_nat y, Z.of_nat x) ∈ cs));
          [done|].
        rewrite elem_of_cons. tauto.
Qed.

(** When the detector reports positions inside the image,
    [circle_local_maxima] dilates a map of the shape of the image that is
    255 at the positions left after discarding the first [discard] of them
    and 0 everywhere else. *)
Lemma circle_local_maxima_marks
    (peak_local_max : image → Z → Z → Qc → list (Z * Z))
    (cv_dilate : image → kernel → Z → image)
    (img : image) (count discard : Z) (min_pct : Qc) (radius : Z) :
  Forall (λ c, 0 ≤ c.1 ∧ 0 ≤ c.2 ∧
               is_Some (sample img (Z.to_nat c.1) (Z.to_nat c.2)))
    (_get_local_maxima peak_local_max img (count + discard) radius min_pct) →
  ∃ maxima,
    circle_local_maxima peak_local_max cv_dilate img count discard min_pct radius
    = Ok (dilate cv_dilate maxima radius 1) ∧
    ∀ y x,
      sample maxima y x
      = (λ _ : Z,
           if bool_decide
                ((Z.of_nat y, Z.of_nat x)
                 ∈ slice_from
                     (_get_local_maxima peak_local_max img (count + discard) radius min_pct)
                     discard)
           then 255 else 0) <$> sample img y x.
Proof.
  intros Hall. unfold circle_local_maxima.
  set (coordinates := _get_local_maxima peak_local_max img (count + discard) radius min_pct)
    in *.
  destruct (foldM_set_pixel 255 (slice_from coordinates discard) (zeros_like img))
    as (maxima & Hfold & Hsample).
  { assert (Forall (λ c, 0 ≤ c.1 ∧ 0 ≤ c.2 ∧
                         is_Some (sample img (Z.to_nat c.1) (Z.to_nat c.2)))
              (slice_from coordinates discard)) as Hdrop.
    { unfold slice_from. destruct (discard <? 0); by apply Forall_drop. }
    eapply Forall_impl; [exact Hdrop|]. intros c (? & ? & [p Hp]).
    split_and!; [done..|]. unfold zeros_like. rewrite sample_fmap, Hp. by eexists. }
  exists maxima. split.
  - by rewrite Hfold.
  - intros y x. rewrite Hsample. unfold zeros_like. rewrite sample_fmap.
    by destruct (sample img y x).
Qed.

Lemma circle_local_maxima_marks_witness :
  ∃ maxima,
    circle_local_maxima (λ _ _ _ _, [(0, 1); (1, 0); (1, 2)]) (λ img _ _, img)
      [[5; 9; 1]; [8; 2; 7]] 2 1 (Q2Qc (1 # 20)) 1
    = Ok (dilate (λ img _ _, img) maxima 1 1) ∧
    ∀ y x,
      sample maxima y x
      = (λ _ : Z,
           if bool_decide
                ((Z.of_nat y, Z.of_nat x)
                 ∈ slice_from
                     (_get_local_maxima (λ _ _ _ _, [(0, 1); (1, 0); (1, 2)])
                        [[5; 9; 1]; [8; 2; 7]] (2 + 1) 1 (Q2Qc (1 # 20)))
                     1)
           then 255 else 0) <$> sample [[5; 9; 1]; [8; 2; 7]] y x.
Proof.
  apply (circle_local_maxima_marks (λ _ _ _ _, [(0, 1); (1, 0); (1, 2)]) (λ img _ _, img)
           [[5; 9; 1]; [8; 2; 7]] 2 1 (Q2Qc (1 # 20)) 1).
  repeat constructor; cbn; try lia; by eexists.
Defined.

Lemma shape_drawContours (canvas : image) (contours : list contour) (color : Z * Z * Z) :
  length <$> drawContours canvas contours color = length <$> canvas.
Proof.
  unfold drawContours. apply list_eq. intros y.
  rewrite !list_lookup_fmap, list_lookup_imap.
  destruct (canvas !! y) as [row|]; [|done]. cbn. by rewrite length_imap.
Qed.

Lemma shape_fmap_fmap (f : Z → Z) (img : image) :
  length <$> fmap (M:=list) (fmap (M:=list) f) img = length <$> img.
Proof.
  rewrite <- list_fmap_compose. apply list_fmap_ext.
  intros i l _. cbn. by rewrite length_fmap.
Qed.

(** For an image with samples and an erosion that keeps the shape of what it
    erodes, [get_size_mask] returns the erosion of a map of the shape of the
    image that is 0 on the pixels covered by a contour of the binarized
    image whose area lies strictly between [lower] and [upper], and 255
    elsewhere. *)
Lemma get_size_mask_draws
    (cv_erode : image → kernel → Z → image)
    (findContours_none : image → list contour) (contourArea : contour → Qc)
    (img : image) (erosions threshold lower upper : Z) :
  concat img ≠ [] →
  Forall (Forall (λ p, p ≤ 2147483647)) img →
  (∀ m k n, length <$> cv_erode m k n = length <$> m) →
  ∃ drawn,
    get_size_mask cv_erode findContours_none contourArea img erosions threshold lower upper
    = Ok (erode cv_erode drawn 4 erosions) ∧
    ∀ y x,
      sample drawn y x
      = (λ _ : Z,
           if bool_decide
                (Exists (λ c, (Z.of_nat x, Z.of_nat y) ∈ filled c ∧
                              (Qc_of_Z lower < contourArea c < Qc_of_Z upper)%Qc)
                   (findContours_none (binarize img threshold)))
           then 0 else 255) <$> sample img y x.
Proof.
  intros Hne Hrange Hshape. unfold get_size_mask, _get_mask.
  set (contours := get_contours_by_area findContours_none contourArea img threshold lower upper).
  set (drawn := drawContours (ones_times_255 img) contours (0, 255, 0)).
  cbn [foldM bind]. fold drawn.
  change (Ok ?r ≫= ?f) with (f r). cbv beta.
  destruct (apply_mask_Ok img (erode cv_erode drawn 4 erosions) Hne Hrange)
    as (masked & ->).
  { apply same_shape_spec. unfold erode.
    destruct ((4 >? 0) && (erosions >? 0)); [rewrite Hshape|];
      unfold drawn, ones_times_255; by rewrite shape_drawContours, shape_fmap_fmap. }
  exists drawn. split; [done|]. intros y x. unfold drawn.
  rewrite sample_drawContours. unfold ones_times_255. rewrite sample_fmap.
  rewrite <- option_fmap_compose. cbn [fst snd].
  destruct (sample img y x) as [p|]; [|done]. cbn. f_equal.
  erewrite bool_decide_ext; [done|]. unfold contours, get_contours_by_area.
  rewrite !Exists_exists. split.
  - intros (c & Hc & Hin). apply list_elem_of_filter in Hc as [Harea Hc].
    apply andb_true_iff in Harea as [Hlo Hhi]. apply Qc_ltb_lt in Hlo, Hhi.
    by exists c.
  - intros (c & Hc & Hin & Hlo & Hhi). exists c. split; [|done].
    apply list_elem_of_filter. split; [|done].
    apply andb_true_iff. by rewrite !Qc_ltb_lt.
Qed.

Lemma get_size_mask_draws_witness :
  ∃ drawn,
    get_size_mask (λ m _ _, m) (λ _, [blob_contour]) (λ _, Qc_of_Z 20)
      blob_image 0 128 0 (2 ^ 32)
    = Ok (erode (λ m _ _, m) drawn 4 0) ∧
    ∀ y x,
      sample drawn y x
      = (λ _ : Z,
           if bool_decide
                (Exists (λ c, (Z.of_nat x, Z.of_nat y) ∈ filled c ∧
                              (Qc_of_Z 0 < (λ _, Qc_of_Z 20) c < Qc_of_Z (2 ^ 32))%Qc)
                   ((λ _, [blob_contour]) (binarize blob_image 128)))
           then 0 else 255) <$> sample blob_image y x.
Proof.
  apply (get_size_mask_draws (λ m _ _, m) (λ _, [blob_contour]) (λ _, Qc_of_Z 20)
           blob_image 0 128 0 (2 ^ 32)).
  - discriminate.
  - repeat constructor; vm_compute; discriminate.
  - reflexivity.
Defined.

(** With a mask file and without particle detection, [get_fish_mask]
    returns the mask of the file as it is, for a brightfield and a
    fluorescence image of the shape of the mask and nothing to subtract. *)
Lemma get_fish_mask_mask_file
    (peak_local_max : image → Z → Z → Qc → list (Z * Z))
    (cv_erode cv_dilate cv_close : image → kernel → Z → image)
    (findContours_none : image → list contour) (contourArea : contour → Qc)
    (scale_sample : dtype → pyfloat → pyfloat → Z → Z)
    (rescale_sample : dtype * Z → Z → Z → Z)
    (t : dtype) (bf_img fl_img mask_img : image) :
  concat bf_img ≠ [] → Forall (Forall (λ p, p ≤ 2147483647)) bf_img →
  concat fl_img ≠ [] → Forall (Forall (λ p, p ≤ 2147483647)) fl_img →
  same_shape bf_img mask_img = true →
  same_shape fl_img mask_img = true →
  get_fish_mask peak_local_max cv_erode cv_dilate cv_close findContours_none contourArea
    scale_sample rescale_sample t bf_img fl_img false (Some mask_img) []
  = Ok mask_img.
Proof.
  intros Hbf Hbf_range Hfl Hfl_range Hbf_shape Hfl_shape.
  unfold get_fish_mask. rewrite decide_False by (intros H; by apply H).
  change (Ok ?r ≫= ?f) with (f r). cbv beta zeta.
  unfold _get_mask. cbn [foldM bind].
  change (Ok ?r ≫= ?f) with (f r). cbv beta.
  destruct (apply_mask_Ok bf_img mask_img Hbf Hbf_range Hbf_shape) as (m1 & ->).
  change (Ok ?r ≫= ?f) with (f r). cbv beta.
  change (Ok ?r ≫= ?f) with (f r). cbv beta.
  by destruct (apply_mask_Ok fl_img mask_img Hfl Hfl_range Hfl_shape) as (m2 & ->).
Qed.

Lemma get_fish_mask_mask_file_witness :
  get_fish_mask (λ _ _ _ _, []) (λ m _ _, m) (λ m _ _, m) (λ m _ _, m) (λ _, [])
    (λ _, 0%Qc) (np_scale_sample wrapping_cast) (λ _ _ p, p) UInt16
    [[4000; 120]; [90; 5000]] [[10; 300]; [7; 0]] false (Some [[255; 0]; [0; 255]]) []
  = Ok [[255; 0]; [0; 255]].
Proof.
  apply (get_fish_mask_mask_file (λ _ _ _ _, []) (λ m _ _, m) (λ m _ _, m) (λ m _ _, m)
           (λ _, []) (λ _, 0%Qc) (np_scale_sample wrapping_cast) (λ _ _ p, p) UInt16
           [[4000; 120]; [90; 5000]] [[10; 300]; [7; 0]] [[255; 0]; [0; 255]]).
  - discriminate.
  - repeat constructor; vm_compute; discriminate.
  - discriminate.
  - repeat constructor; vm_compute; discriminate.
  - reflexivity.
  - reflexivity.
Defined.

End ImageOpsProps.

Module AnalyzeProps.
Import ImageOps Analyze FloatProps ImageOpsProps.

(** ** Normalisation *)

Lemma Qc_ltb_of_Z (a b : Z) : Qc_ltb (Qc_of_Z a) (Qc_of_Z b) = bool_decide (a < b).
Proof.
  unfold Qc_ltb. destruct (Qc_of_Z a ?= Qc_of_Z b)%Qc eqn:Hc.
  - apply Qceq_alt, Z2Qc_inj in Hc. symmetry. apply bool_decide_eq_false. lia.
  - apply Qclt_alt, Z2Qc_inj_lt in Hc. symmetry. by apply bool_decide_eq_true.
  - apply Qcgt_alt, Z2Qc_inj_lt in Hc. symmetry. apply bool_decide_eq_false. lia.
Qed.

Lemma raw_of_score_positive (s : Z) : 0 < s → raw_of_score s = Score s.
Proof. intros Hs. unfold raw_of_score. by replace (s >? 0) with true by lia. Qed.

Lemma raw_of_score_not_positive (s : Z) : s ≤ 0 → raw_of_score s = Missing.
Proof. intros Hs. unfold raw_of_score. by replace (s >? 0) with false by lia. Qed.

(** A missing raw value never divides to anything but NaN; a zero control
    value is the one case in which the division raises. *)
Lemma floordiv_100_missing (control : pyfloat) :
  floordiv_100 Missing control = Ok NaN ∨
  (control = Fin 0%Qc ∧ floordiv_100 Missing control = Raise ZeroDivisionError).
Proof.
  destruct control as [q| | |]; cbn; auto.
  destruct (decide (q = 0%Qc)) as [->|]; auto.
Qed.

(** C4. A record whose score is zero or negative has a missing raw value,
    and [normalize] then stores NaN whatever the cap and whatever the
    control value of its plate: zero, nonzero, infinite or NaN. *)
Theorem normalize_missing_raw_stays_missing
    (image_score : string → Z) (img : Image)
    (control_values : gmap string pyfloat) (control : pyfloat) (cap : Z) :
  image_score (fl_filename img) ≤ 0 →
  control_values !! plate img = Some control →
  get_raw_value image_score img = Missing ∧
  ∃ printed,
    normalize image_score img control_values cap
      = Ok (set_normalized_value img NaN, printed).
Proof.
  intros Hscore Hcontrol.
  assert (get_raw_value image_score img = Missing) as Hraw
    by by apply raw_of_score_not_positive.
  split; [done|]. unfold normalize. rewrite Hcontrol, Hraw.
  destruct (floordiv_100_missing control) as [->|[-> ->]].
  - exists []. by destruct (cap >? 0).
  - by eexists.
Qed.

Lemma normalize_missing_raw_stays_missing_witness :
  get_raw_value (λ _, 0) (mkImage "P1_XY01_CH1.tif" "P1" 1 "T" None) = Missing ∧
  ∃ printed,
    normalize (λ _, 0) (mkImage "P1_XY01_CH1.tif" "P1" 1 "T" None)
      {["P1" := Fin 0%Qc]} 150
    = Ok (set_normalized_value (mkImage "P1_XY01_CH1.tif" "P1" 1 "T" None) NaN, printed).
Proof.
  apply (normalize_missing_raw_stays_missing (λ _, 0)
           (mkImage "P1_XY01_CH1.tif" "P1" 1 "T" None) {["P1" := Fin 0%Qc]} (Fin 0%Qc) 150).
  - cbn. lia.
  - reflexivity.
Defined.

(** The double-precision floor division never raises for a score; with a
    cap above zero the value is kept when it is below the cap and replaced
    by NaN otherwise. *)
Lemma normalize_score (image_score : string → Z) (img : Image)
    (control_values : gmap string pyfloat) (control : pyfloat) (cap : Z) :
  0 < image_score (fl_filename img) →
  control_values !! plate img = Some control →
  normalize image_score img control_values cap
  = Ok (set_normalized_value img
          (let value :=
             float_floor_divide
               (float_of_int (wrap64 (image_score (fl_filename img) * 100))) control in
           if cap >? 0 then if float_lt_int value cap then value else NaN else value),
        []).
Proof.
  intros Hpos Hcontrol. unfold normalize, get_raw_value.
  rewrite Hcontrol, (raw_of_score_positive _ Hpos). cbn [floordiv_100].
  by destruct (cap >? 0).
Qed.

Lemma float_lt_ge (val : pyfloat) (cap : Z) :
  float_lt_int val cap = false ↔ val = NaN ∨ float_ge_int val cap = true.
Proof.
  destruct val as [q| | |]; cbn.
  - destruct (Qc_ltb q (Qc_of_Z cap)); cbn.
    + split; [done|]. by intros [|].
    + split; [by right|done].
  - split; [by right|done].
  - split; [done|]. by intros [|].
  - split; [by left|done].
Qed.

(** C3, amended. Take a record with a positive score, so that its raw value
    is not missing, on a plate with a control value, and let [value] be what
    the floor division [raw * 100 // control] computes in double precision.
    [normalize] prints nothing.  With a cap above zero it stores NaN exactly
    when [value] is NaN itself or [value >= cap], and stores [value] when
    [value < cap]; with a cap of zero or below it always stores [value].
    For a score whose hundredfold is below [2 ** 52] and a control value
    that is a positive whole or half number, as the median of such scores
    is, [value] is the floor of the exact quotient. *)
Theorem normalize_cap_boundary
    (image_score : string → Z) (img : Image)
    (control_values : gmap string pyfloat) (control : pyfloat) (cap : Z) :
  0 < image_score (fl_filename img) →
  control_values !! plate img = Some control →
  ∃ value stored,
    floordiv_100 (get_raw_value image_score img) control = Ok value ∧
    normalize image_score img control_values cap
      = Ok (set_normalized_value img stored, []) ∧
    (0 < cap →
       (stored = NaN ↔ value = NaN ∨ float_ge_int value cap = true) ∧
       (float_lt_int value cap = true → stored = value)) ∧
    (cap ≤ 0 → stored = value) ∧
    (∀ k : Z,
       image_score (fl_filename img) * 100 < 2 ^ 52 → 0 < k →
       control = Fin (Qc_of_Z k / Qc_of_Z 2) →
       value
       = Fin (Qc_of_Z
                (Qfloor (Qc_of_Z (image_score (fl_filename img) * 100)
                         / (Qc_of_Z k / Qc_of_Z 2))%Qc))).
Proof.
  intros Hpos Hcontrol.
  set (s := image_score (fl_filename img)) in *.
  set (value := float_floor_divide (float_of_int (wrap64 (s * 100))) control).
  exists value, (if cap >? 0 then if float_lt_int value cap then value else NaN else value).
  split_and!.
  - unfold get_raw_value. fold s. by rewrite (raw_of_score_positive s Hpos).
  - by rewrite (normalize_score _ _ _ control) by done.
  - intros Hcap. replace (cap >? 0) with true by lia. split.
    + rewrite <- float_lt_ge. destruct (float_lt_int value cap) eqn:Hlt; [|done].
      split; [|done]. intros ->. by destruct cap.
    + by intros ->.
  - intros Hcap. by replace (cap >? 0) with false by lia.
  - intros k Hsmall Hk ->. unfold value.
    rewrite wrap64_small by lia.
    rewrite float_of_int_exact by lia.
    apply float_floor_divide_exact; lia.
Qed.

Lemma normalize_cap_boundary_witness :
  ∃ value stored,
    floordiv_100
      (get_raw_value (λ _, 300) (mkImage "P1_XY04_CH1.tif" "P1" 4 "T" None))
      (Fin (Qc_of_Z 275 / Qc_of_Z 2))
    = Ok value ∧
    normalize (λ _, 300) (mkImage "P1_XY04_CH1.tif" "P1" 4 "T" None)
      {["P1" := Fin (Qc_of_Z 275 / Qc_of_Z 2)]} 150
    = Ok (set_normalized_value (mkImage "P1_XY04_CH1.tif" "P1" 4 "T" None) stored, []) ∧
    (0 < 150 →
       (stored = NaN ↔ value = NaN ∨ float_ge_int value 150 = true) ∧
       (float_lt_int value 150 = true → stored = value)) ∧
    (150 ≤ 0 → stored = value) ∧
    (∀ k : Z,
       300 * 100 < 2 ^ 52 → 0 < k →
       Fin (Qc_of_Z 275 / Qc_of_Z 2) = Fin (Qc_of_Z k / Qc_of_Z 2) →
       value = Fin (Qc_of_Z (Qfloor (Qc_of_Z (300 * 100) / (Qc_of_Z k / Qc_of_Z 2))%Qc))).
Proof.
  apply (normalize_cap_boundary (λ _, 300) (mkImage "P1_XY04_CH1.tif" "P1" 4 "T" None)
           {["P1" := Fin (Qc_of_Z 275 / Qc_of_Z 2)]} (Fin (Qc_of_Z 275 / Qc_of_Z 2)) 150).
  - lia.
  - reflexivity.
Defined.

(** The values of end-to-end scenarios 1 and 2 of the design document: with
    a control median of 150, scores 100, 200, 75 and 300 normalise to 66,
    133, 50 and 200, and a cap of 150 discards the 200. *)
Example normalize_scenario_values :
  (λ s, floordiv_100 (raw_of_score s) (Fin (Qc_of_Z 150))) <$> [100; 200; 75; 300]
  = Ok ∘ Fin ∘ Qc_of_Z <$> [66; 133; 50; 200].
Proof. vm_compute. reflexivity. Qed.

Example normalize_scenario_cap :
  normalize (λ _, 300) (mkImage "P1_XY04_CH1.tif" "P1" 4 "T" None)
    {["P1" := Fin (Qc_of_Z 150)]} 150
  = Ok (set_normalized_value (mkImage "P1_XY04_CH1.tif" "P1" 4 "T" None) NaN, []).
Proof. vm_compute. reflexivity. Qed.

(** The division in double precision, where it differs from the exact
    one: a score of 360287970189641 with a control value of 1.0. *)
Example normalize_rounds_large_scores :
  floordiv_100 (Score 360287970189641) (Fin 1) = Ok (Fin (Qc_of_Z 36028797018964096)).
Proof. vm_compute. reflexivity. Qed.



(** What does hold for a zero control value: a record whose raw value is
    missing gets the diagnostic and NaN. *)
Lemma normalize_zero_control_missing_score
    (image_score : string → Z) (img : Image)
    (control_values : gmap string pyfloat) (cap : Z) :
  image_score (fl_filename img) ≤ 0 →
  control_values !! plate img = Some (Fin 0%Qc) →
  normalize image_score img control_values cap
  = Ok (set_normalized_value img NaN,
        [ErrorLine (plate img) (group img) Missing (Fin 0%Qc)]).
Proof.
  intros Hscore Hcontrol. unfold normalize, get_raw_value.
  rewrite Hcontrol, (raw_of_score_not_positive _ Hscore). reflexivity.
Qed.

(** ** The plate schematic *)

Lemma read_rows_headed (plate_ignore hs : list string) (rows : list (list string)) :
  length hs = length rows →
  Forall (λ h, h ∉ plate_ignore) hs →
  read_rows plate_ignore (zip_with cons hs rows)
  = zip_with cons (_clean <$> hs) (read_rows plate_ignore rows).
Proof.
  intros Hlen Hhs. revert rows Hlen.
  induction Hhs as [|h hs Hh _ IH]; intros [|row rows] Hlen; try done.
  cbn [zip_with]. unfold read_rows in *. rewrite !fmap_cons. cbn [zip_with].
  rewrite filter_cons_True by done. rewrite fmap_cons.
  f_equal. apply IH. by injection Hlen.
Qed.

Lemma traverse_del_first {A} (hs : list A) (rows : list (list A)) :
  length hs = length rows →
  traverse del_first (zip_with cons hs rows) = Ok rows.
Proof.
  revert rows. induction hs as [|h hs IH]; intros [|row rows] Hlen; try done.
  cbn. rewrite IH by by injection Hlen. reflexivity.
Qed.

Lemma length_read_rows (plate_ignore : list string) (rows : list (list string)) :
  length (read_rows plate_ignore rows) = length rows.
Proof. unfold read_rows. by rewrite length_fmap. Qed.

Lemma get_schematic_headed
    (LAYOUT_DEFAULT : list string) (header hs : list string) (rows : list (list string))
    (target_count : Z) (plate_ignore : list string) (flat : bool) :
  length hs = length rows →
  Forall (λ h, h ∉ with_empty plate_ignore) hs →
  count_cells (read_rows (with_empty plate_ignore) (header :: zip_with cons hs rows))
    ≠ target_count →
  get_schematic LAYOUT_DEFAULT (Some (header :: zip_with cons hs rows))
    target_count plate_ignore flat
  = if decide (count_cells (read_rows (with_empty plate_ignore) rows) = target_count)
    then get_schematic LAYOUT_DEFAULT (Some rows) target_count plate_ignore flat
    else Raise (UserError
           (mismatch (count_cells (read_rows (with_empty plate_ignore) rows)) target_count)).
Proof.
  intros Hlen Hhs Hcount. unfold get_schematic. cbv zeta.
  destruct (decide (count_cells (read_rows _ (header :: _)) ≠ target_count)) as [_|]; [|done].
  change (read_rows (with_empty plate_ignore) (header :: zip_with cons hs rows))
    with ((_clean <$> filter (λ well, well ∉ with_empty plate_ignore) header)
          :: read_rows (with_empty plate_ignore) (zip_with cons hs rows)).
  cbn [del_first]. rewrite read_rows_headed by done.
  change (Ok ?x ≫= ?f) with (f x). cbv beta.
  rewrite traverse_del_first by by rewrite length_fmap, length_read_rows.
  change (Ok ?x ≫= ?f) with (f x). cbv beta.
  destruct (decide (count_cells (read_rows (with_empty plate_ignore) rows) = target_count))
    as [Heq|Hne].
  - rewrite decide_False by (intros H; by apply H).
    rewrite (decide_False (P:=count_cells _ ≠ target_count)) by (intros H; by apply H).
    reflexivity.
  - by rewrite decide_True.
Qed.

Lemma get_schematic_matching
    (LAYOUT_DEFAULT : list string) (rows : list (list string))
    (target_count : Z) (plate_ignore : list string) (flat : bool) :
  count_cells (read_rows (with_empty plate_ignore) rows) = target_count →
  get_schematic LAYOUT_DEFAULT (Some rows) target_count plate_ignore flat
  = Ok (if flat then Flat (concat (read_rows (with_empty plate_ignore) rows))
        else Grid (read_rows (with_empty plate_ignore) rows)).
Proof.
  intros Hcount. unfold get_schematic. cbv zeta.
  by rewrite decide_False by (intros H; by apply H).
Qed.

(** Take the rows of an un-headered schematic [rows], put a header row on
    top and a label that is not ignored in front of every row.
    Unless the cell count of this headed schematic happens to equal the number
    of images already, [get_schematic] deletes the first row and the first
    cell that is not ignored of every remaining row, once: if [rows] then has
    [target_count] cells that are not ignored, the result is those cells,
    cleaned, in well order, which is also what [rows] itself gives; if not,
    the fatal user error is raised. *)
Theorem get_schematic_strips_header_once
    (LAYOUT_DEFAULT : list string) (header hs : list string) (rows : list (list string))
    (target_count : Z) (plate_ignore : list string) (flat : bool) :
  length hs = length rows →
  Forall (λ h, h ∉ with_empty plate_ignore) hs →
  count_cells (read_rows (with_empty plate_ignore) (header :: zip_with cons hs rows))
    ≠ target_count →
  (count_cells (read_rows (with_empty plate_ignore) rows) = target_count →
     get_schematic LAYOUT_DEFAULT (Some (header :: zip_with cons hs rows))
       target_count plate_ignore flat
     = Ok (if flat then Flat (concat (read_rows (with_empty plate_ignore) rows))
           else Grid (read_rows (with_empty plate_ignore) rows)) ∧
     get_schematic LAYOUT_DEFAULT (Some rows) target_count plate_ignore flat
     = Ok (if flat then Flat (concat (read_rows (with_empty plate_ignore) rows))
           else Grid (read_rows (with_empty plate_ignore) rows))) ∧
  (count_cells (read_rows (with_empty plate_ignore) rows) ≠ target_count →
     get_schematic LAYOUT_DEFAULT (Some (header :: zip_with cons hs rows))
       target_count plate_ignore flat
     = Raise (UserError
         (mismatch (count_cells (read_rows (with_empty plate_ignore) rows)) target_count))).
Proof.
  intros Hlen Hhs Hcount.
  rewrite (get_schematic_headed _ _ _ _ _ _ _ Hlen Hhs Hcount).
  split; intros Hrows.
  - rewrite decide_True by done. split; by apply get_schematic_matching.
  - by rewrite decide_False.
Qed.

Lemma get_schematic_strips_header_once_witness :
  (count_cells (read_rows (with_empty []) [["B"; "T"]; ["T"; "B"]]) = 4 →
     get_schematic [] (Some [[""; "1"; "2"]; ["A"; "B"; "T"]; ["B"; "T"; "B"]]) 4 [] true
     = Ok (Flat (concat (read_rows (with_empty []) [["B"; "T"]; ["T"; "B"]]))) ∧
     get_schematic [] (Some [["B"; "T"]; ["T"; "B"]]) 4 [] true
     = Ok (Flat (concat (read_rows (with_empty []) [["B"; "T"]; ["T"; "B"]])))) ∧
  (count_cells (read_rows (with_empty []) [["B"; "T"]; ["T"; "B"]]) ≠ 4 →
     get_schematic [] (Some [[""; "1"; "2"]; ["A"; "B"; "T"]; ["B"; "T"; "B"]]) 4 [] true
     = Raise (UserError
         (mismatch (count_cells (read_rows (with_empty []) [["B"; "T"]; ["T"; "B"]])) 4))).
Proof.
  apply (get_schematic_strips_header_once [] [""; "1"; "2"] ["A"; "B"]
           [["B"; "T"]; ["T"; "B"]] 4 [] true).
  - reflexivity.
  - apply (bool_decide_unpack _). vm_compute. exact I.
  - vm_compute. discriminate.
Defined.

Example get_schematic_headed_plate :
  get_schematic [] (Some [[""; "1"; "2"]; ["A"; "B"; "T"]; ["B"; "T"; "B"]]) 4 [] true
  = Ok (Flat ["B"; "T"; "T"; "B"]).
Proof. reflexivity. Qed.

(** C7. The code does not strip the header of a headed schematic that ends
    in a row of empty cells: without the first row and the first column it
    holds the two cells that match the two images, but the row of empty
    cells has no cell left to delete and [del row[0]] raises [IndexError]:
    neither the cells, which the comment of the code promises to try, nor
    the fatal user error that the other mismatches end in. *)
Lemma get_schematic_blank_row :
  concat ((λ row, filter (λ well, well ≠ "") (tail row))
            <$> tail [[""; "1"; "2"]; ["A"; "B"; "T"]; [""; ""; ""]])
    = ["B"; "T"] ∧
  get_schematic [] (Some [[""; "1"; "2"]; ["A"; "B"; "T"]; [""; ""; ""]]) 2 [] true
    = Raise IndexError.
Proof. split; reflexivity. Qed.

(** ** Control wells *)

Lemma filter_none {A} (P : A → Prop) `{∀ x, Decision (P x)} (l : list A) :
  Forall (λ x, ¬ P x) l → filter P l = [].
Proof.
  induction 1 as [|x l Hx _ IH]; [done|]. by rewrite filter_cons_False.
Qed.

Lemma calculate_control_values_none
    (image_score : string → Z) (images : list Image) (plate_control : list string) :
  Forall (λ img, group img ∉ plate_control) images →
  _calculate_control_values image_score images plate_control
  = Raise (UserError no_control_wells).
Proof.
  intros Hnone. unfold _calculate_control_values.
  rewrite (filter_none (λ img, group img ∈ plate_control)) by done.
  reflexivity.
Qed.

Lemma traverse_new_Image
    (xy_search : string → option (string * Z)) (wells : list (string * string)) :
  Forall (λ fg, is_Some (xy_search fg.1)) wells →
  ∃ images,
    traverse (λ fg, new_Image xy_search fg.1 fg.2) wells = Ok images ∧
    Forall2 (λ fg img, fl_filename img = fg.1 ∧ group img = fg.2 ∧
                       xy_search fg.1 = Some (plate img, xy img)) wells images.
Proof.
  induction 1 as [|[f g] wells [[p n] Hf] _ (images & Himages & Hall)].
  - exists []. by split.
  - cbn [traverse fst snd] in *. unfold new_Image at 1. rewrite Hf, Himages. cbn.
    eexists. split; [done|]. by constructor.
Qed.

Lemma quantify_none
    (xy_search : string → option (string * Z)) (image_score : string → Z)
    (pattern_search : string → bool)
    (imagefiles plate_control : list string) (cap : Z) (schematic : list string) :
  Forall (λ fg, included pattern_search plate_control fg.2 = true →
                is_Some (xy_search fg.1)) (zip imagefiles schematic) →
  Forall (λ fg, fg.2 ∉ plate_control) (zip imagefiles schematic) →
  quantify xy_search image_score pattern_search imagefiles plate_control cap schematic
  = Raise (UserError no_control_wells).
Proof.
  intros Hparse Hnone. unfold quantify.
  set (wells := filter _ (zip imagefiles schematic)).
  destruct (traverse_new_Image xy_search wells) as (images & -> & Hall).
  { apply Forall_forall. intros fg [Hincl Hin]%list_elem_of_filter.
    rewrite Forall_forall in Hparse. by apply Hparse. }
  cbn. rewrite calculate_control_values_none; [done|].
  assert (Forall (λ fg, fg.2 ∉ plate_control) wells) as Hwells.
  { apply Forall_forall. intros fg [_ Hin]%list_elem_of_filter.
    rewrite Forall_forall in Hnone. by apply Hnone. }
  clear -Hall Hwells.
  induction Hall as [|fg img wells images (_ & Hg & _) _ IH]; [done|].
  inversion Hwells; subst. constructor; [by rewrite Hg|by apply IH].
Qed.

(** A run in which the schematic is accepted, every file name that is
    quantified has its plate and position, and no well carries a control
    label fails with the fatal "no control wells" user error: [quantify]
    raises it, and so does [main].  A plate whose wells are all labelled
    "T", under the default [plate_control=['B']], is a case of this. *)
Theorem no_control_wells_is_fatal
    (xy_search : string → option (string * Z)) (image_score : string → Z)
    (pattern_search : string → bool) (LAYOUT_DEFAULT : list string)
    (imagefiles : list string) (cap : Z) (platefile : option (list (list string)))
    (plate_control plate_ignore wells : list string) :
  get_schematic LAYOUT_DEFAULT platefile (Z.of_nat (length imagefiles)) plate_ignore true
    = Ok (Flat wells) →
  Forall (λ fg, included pattern_search plate_control fg.2 = true →
                is_Some (xy_search fg.1)) (zip imagefiles wells) →
  Forall (λ fg, fg.2 ∉ plate_control) (zip imagefiles wells) →
  quantify xy_search image_score pattern_search imagefiles plate_control cap wells
    = Raise (UserError no_control_wells) ∧
  main xy_search image_score pattern_search LAYOUT_DEFAULT imagefiles cap platefile
    plate_control plate_ignore
    = Raise (UserError no_control_wells).
Proof.
  intros Hschematic Hparse Hnone.
  pose proof (quantify_none xy_search image_score pattern_search
                imagefiles plate_control cap wells Hparse Hnone) as Hquantify.
  split; [done|]. unfold main. rewrite Hschematic. cbn. by rewrite Hquantify.
Qed.

(** End-to-end scenario 4 of the design document. *)
Lemma no_control_wells_is_fatal_witness :
  quantify
    (xy_table [("P1_XY01_CH1.tif", ("P1", 1)); ("P1_XY02_CH1.tif", ("P1", 2))])
    (λ _, 100) (λ _, true) ["P1_XY01_CH1.tif"; "P1_XY02_CH1.tif"] ["B"] (-1) ["T"; "T"]
    = Raise (UserError no_control_wells) ∧
  main
    (xy_table [("P1_XY01_CH1.tif", ("P1", 1)); ("P1_XY02_CH1.tif", ("P1", 2))])
    (λ _, 100) (λ _, true) [] ["P1_XY01_CH1.tif"; "P1_XY02_CH1.tif"] (-1)
    (Some [["T"; "T"]]) ["B"] []
    = Raise (UserError no_control_wells).
Proof.
  apply (no_control_wells_is_fatal
           (xy_table [("P1_XY01_CH1.tif", ("P1", 1)); ("P1_XY02_CH1.tif", ("P1", 2))])
           (λ _, 100) (λ _, true) [] ["P1_XY01_CH1.tif"; "P1_XY02_CH1.tif"] (-1)
           (Some [["T"; "T"]]) ["B"] [] ["T"; "T"]).
  - reflexivity.
  - repeat constructor; intros _; vm_compute; eauto.
  - apply (bool_decide_unpack _). vm_compute. exact I.
Defined.

(** C8. The code does not raise the user error for a plate without control
    wells when another plate has them.  Plate P1 has a control well and a
    treated well, plate P2 a treated well only: the table of control values
    is not empty, so the user error is not raised, and normalising the well
    of P2 fails on the lookup of its plate, with a [KeyError] that nothing
    handles. *)
Lemma plate_without_control_wells_key_error :
  main
    (xy_table [("P1_XY01_CH1.tif", ("P1", 1)); ("P1_XY02_CH1.tif", ("P1", 2));
               ("P2_XY01_CH1.tif", ("P2", 1))])
    (λ _, 100) (λ _, true) []
    ["P1_XY01_CH1.tif"; "P1_XY02_CH1.tif"; "P2_XY01_CH1.tif"] (-1)
    (Some [["B"; "T"; "T"]]) ["B"] []
  = Raise (KeyError "P2").
Proof. vm_compute. reflexivity. Qed.

(** ** Scores of zero *)

(** C10, amended. A detected maximum around which fewer than 20 points are
    collected keeps none of them ([len(points) * 0.05] truncates to zero)
    and leaves the running total as it is, so the score is the score of the
    other maxima, whatever they contribute.  Such a maximum exists only
    when [score] is called with another radius than the 8 that
    [Image.get_raw_value] calls it with: with a radius of 8 no fewer than 58
    points are collected around a position of the image. *)
Theorem few_points_contribute_nothing
    (peak_local_max : image → Z → Z → Qc → list (Z * Z)) (img : image) (count radius : Z)
    (before after : list (Z * Z)) (c : Z * Z) (pts : list Z) :
  _get_local_maxima peak_local_max img count radius default_threshold_rel
    = before ++ c :: after →
  points img radius c.1 c.2 = Ok pts →
  (length pts < 20)%nat →
  relevant_points default_threshold_pct pts = [] ∧
  (∀ total, - 2 ^ 63 ≤ total < 2 ^ 63 →
     score_step img radius default_threshold_pct total c = Ok total) ∧
  score peak_local_max img count radius default_threshold_pct
    = score_from img radius default_threshold_pct (before ++ after) ∧
  (rectangular img → 0 ≤ c.1 < height img → 0 ≤ c.2 < width img → radius ≠ 8).
Proof.
  intros Hmaxima Hpts Hfew. split; [by apply relevant_points_few|].
  split; [intros total Htotal; by eapply score_step_few|]. split.
  - unfold score. rewrite Hmaxima. by eapply score_from_without_few.
  - intros Hrect Hcy Hcx ->.
    destruct (points_radius_8_many img c.1 c.2 pts Hrect Hcy Hcx Hpts) as [Hmany _].
    lia.
Qed.

(** A call of [score] with a radius of 2 on a 5×8 image with two maxima,
    whose discs of 13 points lie within the image. *)
Lemma few_points_contribute_nothing_witness :
  relevant_points default_threshold_pct [3; 1; 3; 2; 1; 3; 7; 3; 1; 1; 3; 2; 1] = [] ∧
  (∀ total, - 2 ^ 63 ≤ total < 2 ^ 63 →
     score_step
       [[1; 1; 1; 1; 1; 1; 1; 1]; [1; 2; 3; 2; 1; 3; 1; 1]; [1; 3; 9; 3; 3; 7; 3; 1];
        [1; 2; 3; 2; 2; 3; 2; 1]; [1; 1; 1; 1; 1; 1; 1; 1]]
       2 default_threshold_pct total (2, 5) = Ok total) ∧
  score (detected [(2, 2); (2, 5)])
    [[1; 1; 1; 1; 1; 1; 1; 1]; [1; 2; 3; 2; 1; 3; 1; 1]; [1; 3; 9; 3; 3; 7; 3; 1];
     [1; 2; 3; 2; 2; 3; 2; 1]; [1; 1; 1; 1; 1; 1; 1; 1]]
    10 2 default_threshold_pct
    = score_from
        [[1; 1; 1; 1; 1; 1; 1; 1]; [1; 2; 3; 2; 1; 3; 1; 1]; [1; 3; 9; 3; 3; 7; 3; 1];
         [1; 2; 3; 2; 2; 3; 2; 1]; [1; 1; 1; 1; 1; 1; 1; 1]]
        2 default_threshold_pct ([(2, 2)] ++ []) ∧
  (rectangular
     [[1; 1; 1; 1; 1; 1; 1; 1]; [1; 2; 3; 2; 1; 3; 1; 1]; [1; 3; 9; 3; 3; 7; 3; 1];
      [1; 2; 3; 2; 2; 3; 2; 1]; [1; 1; 1; 1; 1; 1; 1; 1]] →
   0 ≤ 2 < height
     [[1; 1; 1; 1; 1; 1; 1; 1]; [1; 2; 3; 2; 1; 3; 1; 1]; [1; 3; 9; 3; 3; 7; 3; 1];
      [1; 2; 3; 2; 2; 3; 2; 1]; [1; 1; 1; 1; 1; 1; 1; 1]] →
   0 ≤ 5 < width
     [[1; 1; 1; 1; 1; 1; 1; 1]; [1; 2; 3; 2; 1; 3; 1; 1]; [1; 3; 9; 3; 3; 7; 3; 1];
      [1; 2; 3; 2; 2; 3; 2; 1]; [1; 1; 1; 1; 1; 1; 1; 1]] →
   2 ≠ 8).
Proof.
  apply (few_points_contribute_nothing (detected [(2, 2); (2, 5)])
           [[1; 1; 1; 1; 1; 1; 1; 1]; [1; 2; 3; 2; 1; 3; 1; 1]; [1; 3; 9; 3; 3; 7; 3; 1];
            [1; 2; 3; 2; 2; 3; 2; 1]; [1; 1; 1; 1; 1; 1; 1; 1]]
           10 2 [(2, 2)] [] (2, 5) [3; 1; 3; 2; 1; 3; 7; 3; 1; 1; 3; 2; 1]).
  - reflexivity.
  - vm_compute. reflexivity.
  - cbn. lia.
Defined.

(** The same call, evaluated: neither maximum keeps a point
    and the score is 0. *)
Example score_radius_2 :
  score (detected [(2, 2); (2, 5)])
    [[1; 1; 1; 1; 1; 1; 1; 1]; [1; 2; 3; 2; 1; 3; 1; 1]; [1; 3; 9; 3; 3; 7; 3; 1];
     [1; 2; 3; 2; 2; 3; 2; 1]; [1; 1; 1; 1; 1; 1; 1; 1]]
    10 2 default_threshold_pct
  = Ok 0.
Proof. vm_compute. reflexivity. Qed.

(** C10, as stated, fails in its consequence for the raw value of a well:
    [Image.get_raw_value] calls [score] with its default radius of 8, and
    with that radius there is no image and no position in it around which
    fewer than 20 points are collected. *)
Lemma no_small_neighbourhood_at_default_radius :
  ¬ ∃ (img : image) (cy cx : Z) (pts : list Z),
      rectangular img ∧ 0 ≤ cy < height img ∧ 0 ≤ cx < width img ∧
      points img 8 cy cx = Ok pts ∧ (length pts < 20)%nat.
Proof.
  intros (img & cy & cx & pts & Hrect & Hcy & Hcx & Hpts & Hfew).
  destruct (points_radius_8_many img cy cx pts Hrect Hcy Hcx Hpts) as [Hmany _].
  lia.
Qed.

(** ** End-to-end scenarios of the design document *)

(** Scenario 1: two control wells with scores 100 and 200 (median 150) and
    two treated wells with scores 75 and 300, without a cap. *)
Example scenario_1 :
  main
    (xy_table [("P1_XY01_CH1.tif", ("P1", 1)); ("P1_XY02_CH1.tif", ("P1", 2));
               ("P1_XY03_CH1.tif", ("P1", 3)); ("P1_XY04_CH1.tif", ("P1", 4))])
    (score_table [("P1_XY01_CH1.tif", 100); ("P1_XY02_CH1.tif", 200);
                  ("P1_XY03_CH1.tif", 75); ("P1_XY04_CH1.tif", 300)])
    (λ _, true) []
    ["P1_XY01_CH1.tif"; "P1_XY02_CH1.tif"; "P1_XY03_CH1.tif"; "P1_XY04_CH1.tif"] (-1)
    (Some [["B"; "B"; "T"; "T"]]) ["B"] []
  = Ok ([("B", [Some (Fin (Qc_of_Z 66)); Some (Fin (Qc_of_Z 133))]);
         ("T", [Some (Fin (Qc_of_Z 50)); Some (Fin (Qc_of_Z 200))])], []).
Proof. vm_compute. reflexivity. Qed.

(** Scenario 2: the same wells with a cap of 150. *)
Example scenario_2 :
  main
    (xy_table [("P1_XY01_CH1.tif", ("P1", 1)); ("P1_XY02_CH1.tif", ("P1", 2));
               ("P1_XY03_CH1.tif", ("P1", 3)); ("P1_XY04_CH1.tif", ("P1", 4))])
    (score_table [("P1_XY01_CH1.tif", 100); ("P1_XY02_CH1.tif", 200);
                  ("P1_XY03_CH1.tif", 75); ("P1_XY04_CH1.tif", 300)])
    (λ _, true) []
    ["P1_XY01_CH1.tif"; "P1_XY02_CH1.tif"; "P1_XY03_CH1.tif"; "P1_XY04_CH1.tif"] 150
    (Some [["B"; "B"; "T"; "T"]]) ["B"] []
  = Ok ([("B", [Some (Fin (Qc_of_Z 66)); Some (Fin (Qc_of_Z 133))]);
         ("T", [Some (Fin (Qc_of_Z 50)); Some NaN])], []).
Proof. vm_compute. reflexivity. Qed.

(** Scenario 3: a file name without the [_XYnn_] pattern is a fatal user
    error, raised when the records are built. *)
Example scenario_3 :
  main
    (xy_table [("P1_XY01_CH1.tif", ("P1", 1))]) (λ _, 100) (λ _, true) []
    ["P1_XY01_CH1.tif"; "well2.tif"] (-1) (Some [["B"; "T"]]) ["B"] []
  = Raise (UserError (missing_xy "well2.tif")).
Proof. vm_compute. reflexivity. Qed.

(** ** The table of control values *)

Lemma foldl_insert_lookup {V} (f : string → V) (l : list string)
    (m : gmap string V) (p : string) :
  foldl (λ m q, <[q := f q]> m) m l !! p
  = if decide (p ∈ l) then Some (f p) else m !! p.
Proof.
  revert m. induction l as [|q l IH]; intros m; [done|].
  cbn [foldl]. rewrite IH.
  destruct (decide (p ∈ l)) as [Hin|Hnotin].
  - by rewrite decide_True by by right.
  - destruct (decide (p = q)) as [->|Hne].
    + rewrite decide_True by by left. by rewrite lookup_insert_eq.
    + rewrite decide_False by (intros [?|?]%elem_of_cons; done).
      by rewrite lookup_insert_ne.
Qed.

Lemma calculate_control_values_entries
    (image_score : string → Z) (images : list Image) (plate_control : list string) :
  Exists (λ img, group img ∈ plate_control) images →
  ∃ ctrl_vals,
    _calculate_control_values image_score images plate_control = Ok ctrl_vals ∧
    ∀ p,
      ctrl_vals !! p
      = if decide (Exists (λ img, group img ∈ plate_control ∧ plate img = p) images)
        then Some (nanmedian
               (get_raw_value image_score
                  <$> filter (λ img, plate img = p)
                        (filter (λ img, group img ∈ plate_control) images)))
        else None.
Proof.
  intros Hsome. unfold _calculate_control_values.
  set (ctrl_imgs := filter (λ img, group img ∈ plate_control) images).
  set (ctrl_vals := foldl _ ∅ _).
  assert (∀ p, p ∈ remove_dups (plate <$> ctrl_imgs)
               ↔ Exists (λ img, group img ∈ plate_control ∧ plate img = p) images)
    as Hplates.
  { intros p. rewrite elem_of_remove_dups, list_elem_of_fmap, Exists_exists.
    unfold ctrl_imgs. split.
    - intros (img & -> & [Hgroup Himg]%list_elem_of_filter). by exists img.
    - intros (img & Himg & Hgroup & <-). exists img.
      split; [done|]. by apply list_elem_of_filter. }
  assert (∀ p, ctrl_vals !! p
      = if decide (Exists (λ img, group img ∈ plate_control ∧ plate img = p) images)
        then Some (nanmedian
               (get_raw_value image_score <$> filter (λ img, plate img = p) ctrl_imgs))
        else None) as Hlookup.
  { intros p. unfold ctrl_vals.
    rewrite (foldl_insert_lookup
      (λ q, nanmedian (get_raw_value image_score <$> filter (λ img, plate img = q) ctrl_imgs))).
    destruct (decide (p ∈ _)) as [Hin|Hnotin].
    - by rewrite decide_True by by apply Hplates.
    - rewrite decide_False by by rewrite <- Hplates. apply lookup_empty. }
  rewrite decide_False; [by exists ctrl_vals|].
  intros Hempty. apply Exists_exists in Hsome as (img & Himg & Hgroup).
  specialize (Hlookup (plate img)). rewrite Hempty, lookup_empty in Hlookup.
  rewrite decide_True in Hlookup; [done|].
  apply Exists_exists. by exists img.
Qed.

(** When some quantified well is a control well, the table holds, for
    every plate with a control well, the median of the raw values of its
    control wells that are not missing (NaN when all are), and nothing for
    a plate without control wells. *)
Lemma calculate_control_values_lookup
    (image_score : string → Z) (images : list Image) (plate_control : list string) :
  Exists (λ img, group img ∈ plate_control) images →
  ∃ ctrl_vals,
    _calculate_control_values image_score images plate_control = Ok ctrl_vals ∧
    ∀ p,
      ctrl_vals !! p
      = if decide (Exists (λ img, group img ∈ plate_control ∧ plate img = p) images)
        then Some (nanmedian
               (get_raw_value image_score
                  <$> filter (λ img, plate img = p)
                        (filter (λ img, group img ∈ plate_control) images)))
        else None.
Proof. apply calculate_control_values_entries. Qed.

Lemma floordiv_100_raises (raw : raw_value) (control : pyfloat) (e : Py.exn) :
  floordiv_100 raw control = Raise e → e = ZeroDivisionError.
Proof.
  destruct raw, control as [q| | |]; cbn; try done;
    destruct (decide (q = 0%Qc)); by intros [= <-].
Qed.

Lemma normalize_with_entry
    (image_score : string → Z) (img : Image)
    (control_values : gmap string pyfloat) (cap : Z) :
  is_Some (control_values !! plate img) →
  ∃ normalized, normalize image_score img control_values cap = Ok normalized.
Proof.
  intros [control Hcontrol]. unfold normalize. rewrite Hcontrol.
  destruct (floordiv_100 _ control) as [val|e] eqn:Hdiv.
  - destruct (cap >? 0); by eexists.
  - apply floordiv_100_raises in Hdiv as ->. by eexists.
Qed.

Lemma traverse_normalize_key_error
    (image_score : string → Z) (images : list Image)
    (control_values : gmap string pyfloat) (cap : Z) :
  Exists (λ img, control_values !! plate img = None) images →
  ∃ p, control_values !! p = None ∧
       traverse (λ image, normalize image_score image control_values cap) images
       = Raise (KeyError p).
Proof.
  induction images as [|img images IH]; intros Hmissing; [by apply Exists_nil in Hmissing|].
  cbn [traverse].
  destruct (control_values !! plate img) as [control|] eqn:Hcontrol.
  - destruct (normalize_with_entry image_score img control_values cap) as [normalized ->];
      [by rewrite Hcontrol|].
    apply Exists_cons in Hmissing as [Hhead|Htail]; [congruence|].
    destruct (IH Htail) as (p & Hp & ->). by exists p.
  - exists (plate img). split; [done|]. unfold normalize. by rewrite Hcontrol.
Qed.

(** When some wells are control wells but a quantified well lies on a plate
    that has none, the table of control values is built, the user error is
    not raised, and the normalisation stops with a [KeyError] for a plate
    without an entry. *)
Lemma plate_without_entry_key_error
    (image_score : string → Z) (images : list Image) (plate_control : list string)
    (cap : Z) :
  Exists (λ img, group img ∈ plate_control) images →
  Exists (λ img, ¬ Exists (λ c, group c ∈ plate_control ∧ plate c = plate img) images)
    images →
  ∃ ctrl_vals p,
    _calculate_control_values image_score images plate_control = Ok ctrl_vals ∧
    ctrl_vals !! p = None ∧
    traverse (λ image, normalize image_score image ctrl_vals cap) images
    = Raise (KeyError p).
Proof.
  intros Hsome Hwithout.
  destruct (calculate_control_values_entries image_score images plate_control Hsome)
    as (ctrl_vals & Hvals & Hlookup).
  destruct (traverse_normalize_key_error image_score images ctrl_vals cap) as (p & Hp & Hraise).
  { eapply Exists_impl; [exact Hwithout|]. intros img Himg.
    rewrite Hlookup. by rewrite decide_False. }
  by exists ctrl_vals, p.
Qed.

(** ** Instances of the facts about the table of control values *)

Lemma normalize_zero_control_missing_score_witness :
  normalize (λ _, 0) (mkImage "P1_XY03_CH1.tif" "P1" 3 "T" None) {["P1" := Fin 0%Qc]} (-1)
  = Ok (set_normalized_value (mkImage "P1_XY03_CH1.tif" "P1" 3 "T" None) NaN,
        [ErrorLine "P1" "T" Missing (Fin 0%Qc)]).
Proof.
  apply (normalize_zero_control_missing_score (λ _, 0)
           (mkImage "P1_XY03_CH1.tif" "P1" 3 "T" None) {["P1" := Fin 0%Qc]} (-1)).
  - cbn. lia.
  - reflexivity.
Defined.

Lemma calculate_control_values_lookup_witness :
  ∃ ctrl_vals,
    _calculate_control_values
      (score_table [("P1_XY01_CH1.tif", 100); ("P1_XY02_CH1.tif", 200)])
      [mkImage "P1_XY01_CH1.tif" "P1" 1 "B" None; mkImage "P1_XY02_CH1.tif" "P1" 2 "B" None;
       mkImage "P2_XY01_CH1.tif" "P2" 1 "T" None] ["B"]
    = Ok ctrl_vals ∧
    ctrl_vals !! "P1" = Some (median [100; 200]) ∧ ctrl_vals !! "P2" = None.
Proof.
  destruct (calculate_control_values_lookup
              (score_table [("P1_XY01_CH1.tif", 100); ("P1_XY02_CH1.tif", 200)])
              [mkImage "P1_XY01_CH1.tif" "P1" 1 "B" None;
               mkImage "P1_XY02_CH1.tif" "P1" 2 "B" None;
               mkImage "P2_XY01_CH1.tif" "P2" 1 "T" None] ["B"])
    as (ctrl_vals & Hvals & Hlookup).
  - apply (bool_decide_unpack _). vm_compute. exact I.
  - exists ctrl_vals. split; [exact Hvals|]. split.
    + rewrite Hlookup. rewrite decide_True; [reflexivity|].
      apply (bool_decide_unpack _). vm_compute. exact I.
    + rewrite Hlookup. rewrite decide_False; [reflexivity|].
      apply (bool_decide_unpack _). vm_compute. exact I.
Defined.

Lemma plate_without_entry_key_error_witness :
  ∃ ctrl_vals p,
    _calculate_control_values (λ _, 100)
      [mkImage "P1_XY01_CH1.tif" "P1" 1 "B" None; mkImage "P2_XY01_CH1.tif" "P2" 1 "T" None]
      ["B"]
    = Ok ctrl_vals ∧
    ctrl_vals !! p = None ∧
    traverse (λ image, normalize (λ _, 100) image ctrl_vals (-1))
      [mkImage "P1_XY01_CH1.tif" "P1" 1 "B" None; mkImage "P2_XY01_CH1.tif" "P2" 1 "T" None]
    = Raise (KeyError p).
Proof.
  apply (plate_without_entry_key_error (λ _, 100)
           [mkImage "P1_XY01_CH1.tif" "P1" 1 "B" None;
            mkImage "P2_XY01_CH1.tif" "P2" 1 "T" None] ["B"] (-1)).
  - apply (bool_decide_unpack _). vm_compute. exact I.
  - apply (bool_decide_unpack _). vm_compute. exact I.
Defined.

(** ** What [normalize] returns *)

Lemma float_floor_divide_integral (x y : pyfloat) :
  (∃ z, float_floor_divide x y = Fin (Qc_of_Z z)) ∨ float_floor_divide x y = PInf ∨
  float_floor_divide x y = NInf ∨ float_floor_divide x y = NaN.
Proof.
  assert (∀ s, inf_of_sign s = PInf ∨ inf_of_sign s = NInf ∨ inf_of_sign s = NaN)
    as Hinf.
  { intros s. unfold inf_of_sign. destruct (0 <? s); [by auto|].
    destruct (s <? 0); by auto. }
  assert (Fin 0 = Fin (Qc_of_Z 0)) as Hzero by by rewrite Z2Qc_inj_0.
  assert (Fin (-1) = Fin (Qc_of_Z (-1))) as Hminus
    by (f_equal; by apply Qc_is_canon).
  unfold float_floor_divide.
  destruct x as [a| | |], y as [b| | |]; try by auto.
  - destruct (decide (b = 0%Qc)); [right; apply Hinf|].
    cbv zeta. destruct (if _ : bool then _ else _) as [d| | |]; try by auto.
    destruct (decide (d = 0%Qc)); [by eauto|].
    destruct (Qc_ltb _ _); by eauto.
  - destruct (_ && _); by eauto.
  - destruct (_ && _); by eauto.
Qed.

Lemma floordiv_100_integral (raw : raw_value) (control : pyfloat) (val : pyfloat) :
  floordiv_100 raw control = Ok val →
  (∃ z, val = Fin (Qc_of_Z z)) ∨ val = PInf ∨ val = NInf ∨ val = NaN.
Proof.
  destruct raw as [s|]; cbn.
  - intros [= <-]. apply float_floor_divide_integral.
  - destruct control as [q| | |]; [|by intros [= <-]; eauto..].
    destruct (decide (q = 0%Qc)); [done|]. intros [= <-]. by eauto.
Qed.

(** The outcomes of [normalize] once the raw value of the record is
    there: a [KeyError] when the table has no entry for the plate of the
    record, and with an entry the record with its normalised value set, a
    whole number, an infinity or NaN, and at most the one diagnostic
    line. *)
Lemma normalize_cases
    (image_score : string → Z) (img : Image)
    (control_values : gmap string pyfloat) (cap : Z) :
  (control_values !! plate img = None ∧
   normalize image_score img control_values cap = Raise (KeyError (plate img))) ∨
  (∃ control stored printed,
     control_values !! plate img = Some control ∧
     normalize image_score img control_values cap
       = Ok (set_normalized_value img stored, printed) ∧
     ((∃ z, stored = Fin (Qc_of_Z z)) ∨ stored = PInf ∨ stored = NInf ∨ stored = NaN) ∧
     (printed = [] ∨
      printed = [ErrorLine (plate img) (group img) (get_raw_value image_score img) control])).
Proof.
  unfold normalize. destruct (control_values !! plate img) as [control|]; [right|by left].
  exists control.
  destruct (floordiv_100 _ control) as [val|e] eqn:Hdiv.
  - pose proof (floordiv_100_integral _ _ _ Hdiv) as Hval.
    destruct (cap >? 0).
    + destruct (float_lt_int val cap); eexists _, _; split_and!; eauto.
    + eexists _, _; split_and!; eauto.
  - apply floordiv_100_raises in Hdiv as ->.
    eexists _, _; split_and!; eauto.
Qed.

(** ** What [get_schematic] returns *)

Lemma length_concat_cells (schematic : list (list string)) :
  Z.of_nat (length (concat schematic)) = count_cells schematic.
Proof.
  unfold count_cells. induction schematic as [|row schematic IH]; [done|].
  cbn. rewrite length_app. cbn in IH. lia.
Qed.

(** Whatever [get_schematic] returns for a plate file has exactly
    [target_count] cells: the flat list has that length, the rows add up to
    it. *)
Lemma get_schematic_cell_count
    (LAYOUT_DEFAULT : list string) (rows : list (list string))
    (target_count : Z) (plate_ignore : list string) (flat : bool) (s : schematic) :
  get_schematic LAYOUT_DEFAULT (Some rows) target_count plate_ignore flat = Ok s →
  match s with
  | Flat wells => Z.of_nat (length wells) = target_count
  | Grid grid => count_cells grid = target_count
  end.
Proof.
  unfold get_schematic. cbv zeta.
  set (cells := read_rows (with_empty plate_ignore) rows).
  assert (∀ grid : list (list string), count_cells grid = target_count →
            Ok (if flat then Flat (concat grid) else Grid grid) = Ok s →
            match s with
            | Flat wells => Z.of_nat (length wells) = target_count
            | Grid grid => count_cells grid = target_count
            end) as Hpack.
  { intros grid Hcount [= <-]. destruct flat; [|done]. by rewrite length_concat_cells. }
  destruct (decide (count_cells cells ≠ target_count)) as [Hne|Heq].
  - destruct (del_first cells) as [cells'|]; [|done].
    change (Ok cells' ≫= ?f) with (f cells'). cbv beta.
    destruct (traverse del_first cells') as [stripped|]; [|done].
    change (Ok stripped ≫= ?f) with (f stripped). cbv beta.
    destruct (decide (count_cells stripped ≠ target_count)) as [|Heq]; [done|].
    apply Hpack. by destruct (decide (count_cells stripped = target_count)).
  - apply Hpack. by destruct (decide (count_cells cells = target_count)).
Qed.

Lemma get_schematic_cell_count_witness :
  match Flat ["B"; "T"; "T"; "B"] with
  | Flat wells => Z.of_nat (length wells) = 4
  | Grid grid => count_cells grid = 4
  end.
Proof.
  apply (get_schematic_cell_count [] [[""; "1"; "2"]; ["A"; "B"; "T"]; ["B"; "T"; "B"]]
           4 [] true (Flat ["B"; "T"; "T"; "B"])).
  reflexivity.
Defined.

Lemma traverse_del_first_empty_row {A} (rows : list (list A)) :
  Exists (λ row, row = []) rows → traverse del_first rows = Raise IndexError.
Proof.
  induction 1 as [row rows ->|row rows _ IH]; [done|].
  cbn. destruct row; [done|]. cbn. by rewrite IH.
Qed.

(** When the cell count does not match the number of images and the file
    is empty, or one of its rows after the first has no cell that is not
    ignored (a blank line, a row of empty cells), stripping the header
    fails on a deletion from an empty list: [get_schematic] raises
    [IndexError], not the user error. *)
Lemma get_schematic_nothing_to_strip
    (LAYOUT_DEFAULT : list string) (rows : list (list string))
    (target_count : Z) (plate_ignore : list string) (flat : bool) :
  count_cells (read_rows (with_empty plate_ignore) rows) ≠ target_count →
  rows = [] ∨
  Exists (λ row, Forall (λ well, well ∈ with_empty plate_ignore) row) (tail rows) →
  get_schematic LAYOUT_DEFAULT (Some rows) target_count plate_ignore flat
  = Raise IndexError.
Proof.
  intros Hcount Hblank. unfold get_schematic. cbv zeta.
  rewrite decide_True by done.
  destruct Hblank as [->|Hblank]; [done|].
  destruct rows as [|header rows]; [done|].
  change (read_rows (with_empty plate_ignore) (header :: rows))
    with ((_clean <$> filter (λ well, well ∉ with_empty plate_ignore) header)
          :: read_rows (with_empty plate_ignore) rows).
  cbn [del_first tail] in *. change (Ok ?x ≫= ?f) with (f x). cbv beta.
  rewrite traverse_del_first_empty_row; [done|].
  unfold read_rows. apply Exists_fmap.
  eapply Exists_impl; [exact Hblank|]. intros row Hrow. cbn.
  rewrite (filter_none (λ well, well ∉ with_empty plate_ignore)); [done|].
  eapply Forall_impl; [exact Hrow|]. cbn. tauto.
Qed.

Lemma get_schematic_nothing_to_strip_witness :
  get_schematic [] (Some [[""; "1"; "2"]; ["A"; "B"; "T"]; [""; ""; ""]]) 2 [] true
  = Raise IndexError.
Proof.
  apply (get_schematic_nothing_to_strip []
           [[""; "1"; "2"]; ["A"; "B"; "T"]; [""; ""; ""]] 2 [] true).
  - vm_compute. discriminate.
  - right. apply (bool_decide_unpack _). vm_compute. exact I.
Defined.

(** ** What [quantify] and [main] return *)

Lemma traverse_Ok_Forall2 {A B} (f : A → Py.result B) (l : list A) (ys : list B) :
  traverse f l = Ok ys → Forall2 (λ x y, f x = Ok y) l ys.
Proof.
  revert ys. induction l as [|x l IH]; intros ys; cbn.
  - intros [= <-]. constructor.
  - destruct (f x) as [y|] eqn:Hx; [|done]. cbn.
    destruct (traverse f l) as [ys'|]; [|done]. cbn.
    intros [= <-]. constructor; [done|by apply IH].
Qed.

Lemma traverse_first_failure {A B} (f : A → Py.result B) (pre post : list A) (x : A)
    (e : Py.exn) :
  Forall (λ x, ∃ y, f x = Ok y) pre → f x = Raise e →
  traverse f (pre ++ x :: post) = Raise e.
Proof.
  intros Hpre Hx. induction Hpre as [|x' pre [y Hy] _ IH]; cbn.
  - by rewrite Hx.
  - by rewrite Hy, IH.
Qed.

Lemma normalize_Ok_fields
    (image_score : string → Z) (img img' : Image)
    (control_values : gmap string pyfloat) (cap : Z) (printed : list line) :
  normalize image_score img control_values cap = Ok (img', printed) →
  fl_filename img' = fl_filename img ∧ plate img' = plate img ∧ xy img' = xy img ∧
  group img' = group img ∧ is_Some (normalized_value img') ∧
  is_Some (control_values !! plate img).
Proof.
  destruct (normalize_cases image_score img control_values cap)
    as [[_ ->]|(control & stored & printed' & Hcontrol & -> & _)]; [done|].
  intros [= <- <-]. rewrite Hcontrol. cbn. split_and!; eauto.
Qed.

Lemma quantify_Ok_records
    (xy_search : string → option (string * Z)) (image_score : string → Z)
    (pattern_search : string → bool)
    (imagefiles plate_control : list string) (cap : Z) (schematic : list string)
    (images : list Image) (printed : list line) :
  quantify xy_search image_score pattern_search imagefiles plate_control cap schematic
    = Ok (images, printed) →
  Forall2 (λ fg img,
      fl_filename img = fg.1 ∧ group img = fg.2 ∧
      xy_search fg.1 = Some (plate img, xy img) ∧
      is_Some (normalized_value img) ∧
      Exists (λ c, group c ∈ plate_control ∧ plate c = plate img) images)
    (filter (λ fg, included pattern_search plate_control fg.2 = true)
       (zip imagefiles schematic))
    images.
Proof.
  unfold quantify. set (wells := filter _ (zip imagefiles schematic)).
  destruct (traverse _ wells) as [records|] eqn:Hrecords; [|done].
  change (Ok records ≫= ?f) with (f records). cbv beta.
  destruct (_calculate_control_values image_score records plate_control)
    as [ctrl_vals|] eqn:Hvals; [|done].
  change (Ok ctrl_vals ≫= ?f) with (f ctrl_vals). cbv beta.
  destruct (traverse _ records) as [normalized|] eqn:Hnormalized; [|done].
  change (Ok normalized ≫= ?f) with (f normalized). cbv beta.
  intros [= <- <-].
  apply traverse_Ok_Forall2 in Hrecords, Hnormalized.
  assert (Exists (λ img, group img ∈ plate_control) records) as Hsome.
  { destruct (decide (Exists (λ img, group img ∈ plate_control) records)) as [|Hnone];
      [done|].
    rewrite calculate_control_values_none in Hvals; [done|].
    apply Forall_forall. intros img Himg Hgroup. apply Hnone, Exists_exists. eauto. }
  destruct (calculate_control_values_entries image_score records plate_control Hsome)
    as (ctrl_vals' & Hvals' & Hlookup).
  rewrite Hvals in Hvals'. injection Hvals' as <-.
  assert (∀ p, Exists (λ c, group c ∈ plate_control ∧ plate c = p) records →
               Exists (λ c, group c ∈ plate_control ∧ plate c = p) (fst <$> normalized))
    as Hcontrols.
  { intros p. clear -Hnormalized.
    induction Hnormalized as [|r [n out] records normalized Hn _ IH].
    - by intros ?%Exists_nil.
    - apply normalize_Ok_fields in Hn as (_ & Hp & _ & Hg & _). cbn in Hp, Hg.
      intros [[? ?]|?]%Exists_cons; cbn.
      + left. by rewrite Hp, Hg.
      + right. by apply IH. }
  assert (∀ Q : string → Prop, (∀ p, is_Some (ctrl_vals !! p) → Q p) →
      Forall2 (λ fg img,
          fl_filename img = fg.1 ∧ group img = fg.2 ∧
          xy_search fg.1 = Some (plate img, xy img) ∧
          is_Some (normalized_value img) ∧ Q (plate img))
        wells (fst <$> normalized)) as Haux.
  { intros Q Hentries. clear -Hrecords Hnormalized Hentries.
    revert normalized Hnormalized.
    induction Hrecords as [|[f g] r wells records Hr _ IH]; intros normalized Hnormalized.
    - inversion Hnormalized. constructor.
    - inversion Hnormalized as [|? [n out] ? normalized' Hn Htail]; subst.
      cbn [fmap list_fmap fst]. constructor; [|by apply IH].
      apply normalize_Ok_fields in Hn as (Hf & Hp & Hxy & Hg & Hv & Hentry).
      cbn [fst snd] in *. unfold new_Image in Hr.
      destruct (xy_search f) as [[p k]|] eqn:Hsearch; [|done].
      injection Hr as <-. cbn in *. rewrite Hf, Hg, Hp, Hxy.
      split_and!; try done. by apply Hentries. }
  apply (Haux (λ p, Exists (λ c, group c ∈ plate_control ∧ plate c = p)
                      (fst <$> normalized))).
  intros p Hp. apply Hcontrols. rewrite Hlookup in Hp.
  destruct (decide (Exists _ records)); [done|by destruct Hp].
Qed.

(** When [quantify] returns, it returns one record for every well whose
    label is a control label or matches the pattern, in the order of the
    input files: the record carries the file name and the label of the
    well, the plate and position found in the file name, and a normalised
    value; and the plate of every record has control wells. *)
Lemma quantify_records
    (xy_search : string → option (string * Z)) (image_score : string → Z)
    (pattern_search : string → bool)
    (imagefiles plate_control : list string) (cap : Z) (schematic : list string)
    (images : list Image) (printed : list line) :
  quantify xy_search image_score pattern_search imagefiles plate_control cap schematic
    = Ok (images, printed) →
  Forall2 (λ fg img,
      fl_filename img = fg.1 ∧ group img = fg.2 ∧
      xy_search fg.1 = Some (plate img, xy img) ∧
      is_Some (normalized_value img) ∧
      Exists (λ c, group c ∈ plate_control ∧ plate c = plate img) images)
    (filter (λ fg, included pattern_search plate_control fg.2 = true)
       (zip imagefiles schematic))
    images.
Proof. apply quantify_Ok_records. Qed.

Lemma quantify_records_witness :
  ∃ images printed,
    quantify
      (xy_table [("P1_XY01_CH1.tif", ("P1", 1)); ("P1_XY02_CH1.tif", ("P1", 2))])
      (score_table [("P1_XY01_CH1.tif", 100); ("P1_XY02_CH1.tif", 75)])
      (λ _, true) ["P1_XY01_CH1.tif"; "P1_XY02_CH1.tif"] ["B"] (-1) ["B"; "T"]
    = Ok (images, printed) ∧
    Forall2 (λ fg img,
        fl_filename img = fg.1 ∧ group img = fg.2 ∧
        xy_table [("P1_XY01_CH1.tif", ("P1", 1)); ("P1_XY02_CH1.tif", ("P1", 2))] fg.1
          = Some (plate img, xy img) ∧
        is_Some (normalized_value img) ∧
        Exists (λ c, group c ∈ ["B"] ∧ plate c = plate img) images)
      (filter (λ fg, included (λ _, true) ["B"] fg.2 = true)
         (zip ["P1_XY01_CH1.tif"; "P1_XY02_CH1.tif"] ["B"; "T"]))
      images.
Proof.
  eexists _, _. split; [vm_compute; reflexivity|].
  apply (quantify_records
           (xy_table [("P1_XY01_CH1.tif", ("P1", 1)); ("P1_XY02_CH1.tif", ("P1", 2))])
           (score_table [("P1_XY01_CH1.tif", 100); ("P1_XY02_CH1.tif", 75)])
           (λ _, true) ["P1_XY01_CH1.tif"; "P1_XY02_CH1.tif"] ["B"] (-1) ["B"; "T"] _ []).
  vm_compute. reflexivity.
Defined.

(** A file name without plate and position stops [quantify] with the fatal
    user error that names the file, before any score is computed; it is the
    first such file among the wells that are quantified that is named.
    Wells that are left out by their label are not looked at. *)
Lemma quantify_missing_xy
    (xy_search : string → option (string * Z)) (image_score : string → Z)
    (pattern_search : string → bool)
    (imagefiles plate_control : list string) (cap : Z) (schematic : list string)
    (pre post : list (string * string)) (f g : string) :
  filter (λ fg, included pattern_search plate_control fg.2 = true)
    (zip imagefiles schematic) = pre ++ (f, g) :: post →
  Forall (λ fg, is_Some (xy_search fg.1)) pre →
  xy_search f = None →
  quantify xy_search image_score pattern_search imagefiles plate_control cap schematic
  = Raise (UserError (missing_xy f)).
Proof.
  intros Hwells Hpre Hf. unfold quantify. rewrite Hwells.
  rewrite (traverse_first_failure _ pre post (f, g) (UserError (missing_xy f))); [done| |].
  - eapply Forall_impl; [exact Hpre|]. intros [f' g'] [[p k] Hfg]. cbn in *.
    unfold new_Image. rewrite Hfg. by eexists.
  - unfold new_Image. cbn. by rewrite Hf.
Qed.

Lemma quantify_missing_xy_witness :
  quantify (xy_table [("P1_XY01_CH1.tif", ("P1", 1))]) (λ _, 100) (λ g, bool_decide (g = "T"))
    ["well0.tif"; "P1_XY01_CH1.tif"; "well2.tif"; "well3.tif"] ["B"] (-1)
    ["X"; "B"; "T"; "T"]
  = Raise (UserError (missing_xy "well2.tif")).
Proof.
  apply (quantify_missing_xy (xy_table [("P1_XY01_CH1.tif", ("P1", 1))]) (λ _, 100)
           (λ g, bool_decide (g = "T"))
           ["well0.tif"; "P1_XY01_CH1.tif"; "well2.tif"; "well3.tif"] ["B"] (-1)
           ["X"; "B"; "T"; "T"] [("P1_XY01_CH1.tif", "B")] [("well3.tif", "T")]
           "well2.tif" "T").
  - reflexivity.
  - repeat constructor. vm_compute. eauto.
  - reflexivity.
Defined.

Lemma elem_of_dedup (l : list string) (x : string) : x ∈ dedup l ↔ x ∈ l.
Proof.
  induction l as [|y l IH]; [done|]. cbn [dedup].
  rewrite !elem_of_cons, list_elem_of_filter, IH.
  destruct (decide (x = y)); tauto.
Qed.

Lemma NoDup_dedup (l : list string) : NoDup (dedup l).
Proof.
  induction l as [|y l IH]; [constructor|]. cbn [dedup]. constructor.
  - intros [Hne _]%list_elem_of_filter. done.
  - by apply NoDup_filter.
Qed.

Lemma sum_indicator (keys : list string) (k0 : string) :
  NoDup keys → k0 ∈ keys →
  sum_list_with (λ k, if decide (k0 = k) then 1 else 0)%nat keys = 1%nat.
Proof.
  induction 1 as [|k keys Hk _ IH]; [by intros ?%elem_of_nil|].
  cbn. intros [->|Hin]%elem_of_cons.
  - rewrite decide_True by done.
    assert (sum_list_with (λ k0, if decide (k = k0) then 1 else 0)%nat keys = 0%nat) as ->;
      [|done].
    clear IH. induction keys as [|k' keys IH]; [done|]. cbn.
    rewrite decide_False by (intros ->; apply Hk; by left).
    apply IH. intros Hin. apply Hk. by right.
  - rewrite decide_False by (intros <-; done). by rewrite IH.
Qed.

(** Records that all carry one of a list of distinct labels are split by
    these labels without loss and without repetition. *)
Lemma length_by_group (keys : list string) (images : list Image) :
  NoDup keys → Forall (λ img, group img ∈ keys) images →
  sum_list_with (λ g, length (filter (λ img, group img = g) images)) keys
  = length images.
Proof.
  intros Hkeys. induction 1 as [|img images Himg _ IH].
  - clear Hkeys. induction keys as [|k keys IHk]; [done|]. cbn. apply IHk.
  - assert (sum_list_with (λ g, length (filter (λ img, group img = g) (img :: images))) keys
            = (sum_list_with (λ k, if decide (group img = k) then 1 else 0) keys
               + sum_list_with (λ g, length (filter (λ img, group img = g) images)) keys)%nat)
      as ->.
    { clear. induction keys as [|k keys IHk]; [done|]. cbn [sum_list_with].
      rewrite IHk, filter_cons. destruct (decide (group img = k)); cbn [length]; lia. }
    rewrite IH, (sum_indicator keys (group img) Hkeys Himg). done.
Qed.

Lemma elem_of_zip_snd {A B} (l : list A) (k : list B) (x : A * B) :
  x ∈ zip l k → x.2 ∈ k.
Proof.
  revert k. induction l as [|a l IH]; intros [|b k]; cbn; try by intros ?%elem_of_nil.
  intros [->|Hin]%elem_of_cons; [by left|]. right. by apply IH.
Qed.

(** When [main] returns, the result set has one entry for each label of
    the schematic that is a control label or matches the pattern, in the
    order in which the labels first occur and without repetition; the entry
    of a label lists the normalised values of the records with this label,
    in the order of the input files; and every record that was quantified is
    listed exactly once. *)
Lemma main_result_set
    (xy_search : string → option (string * Z)) (image_score : string → Z)
    (pattern_search : string → bool) (LAYOUT_DEFAULT : list string)
    (imagefiles : list string) (cap : Z) (platefile : option (list (list string)))
    (plate_control plate_ignore : list string)
    (results : list (string * list (option pyfloat))) (printed : list line) :
  main xy_search image_score pattern_search LAYOUT_DEFAULT imagefiles cap platefile
    plate_control plate_ignore = Ok (results, printed) →
  ∃ wells images,
    get_schematic LAYOUT_DEFAULT platefile (Z.of_nat (length imagefiles)) plate_ignore true
      = Ok (Flat wells) ∧
    quantify xy_search image_score pattern_search imagefiles plate_control cap wells
      = Ok (images, printed) ∧
    fst <$> results = filter (λ g, included pattern_search plate_control g = true)
                        (dedup wells) ∧
    NoDup (fst <$> results) ∧
    Forall (λ entry,
        entry.2 = normalized_value <$> filter (λ img, group img = entry.1) images)
      results ∧
    sum_list_with (λ entry, length entry.2) results = length images.
Proof.
  unfold main.
  destruct (get_schematic _ _ _ _ _) as [s|] eqn:Hschematic; [|done].
  assert (∃ wells, s = Flat wells) as [wells ->].
  { unfold get_schematic in Hschematic. destruct platefile as [rows|].
    - cbv zeta in Hschematic.
      destruct (if decide _ then _ else _) as [grid|]; [|done].
      injection Hschematic as <-. by eexists.
    - injection Hschematic as <-. by eexists. }
  change (Ok (Flat wells) ≫= ?f) with (f (Flat wells)). cbv beta iota.
  destruct (quantify _ _ _ _ _ _ _) as [[images out]|] eqn:Hquantify; [|done].
  change (Ok (images, out) ≫= ?f) with (f (images, out)). cbv beta zeta.
  cbn [fst snd]. intros [= <- <-].
  exists wells, images. split; [done|]. split; [done|].
  set (keys := filter _ (dedup wells)).
  assert (NoDup keys) as Hkeys by apply NoDup_filter, NoDup_dedup.
  rewrite <- list_fmap_compose.
  assert ((fst ∘ (λ g : string,
             (g, normalized_value <$> filter (λ img, group img = g) images))) <$> keys
          = keys) as Hfst.
  { rewrite <- (list_fmap_id keys) at 2. by apply list_fmap_ext. }
  rewrite Hfst. split; [done|]. split; [done|]. split.
  - apply Forall_fmap, Forall_forall. by intros g _.
  - apply quantify_Ok_records in Hquantify.
    rewrite <- (length_by_group keys images Hkeys).
    + clear. induction keys as [|k keys IH]; [done|]. cbn.
      by rewrite length_fmap, IH.
    + eapply Forall2_Forall_r; [exact Hquantify|].
      apply Forall_forall. intros fg [Hincl Hin]%list_elem_of_filter img (_ & -> & _).
      apply list_elem_of_filter. split; [done|].
      apply elem_of_dedup. by eapply elem_of_zip_snd.
Qed.

Lemma main_result_set_witness :
  ∃ wells images,
    get_schematic [] (Some [["B"; "B"; "T"; "T"]]) 4 [] true = Ok (Flat wells) ∧
    quantify
      (xy_table [("P1_XY01_CH1.tif", ("P1", 1)); ("P1_XY02_CH1.tif", ("P1", 2));
                 ("P1_XY03_CH1.tif", ("P1", 3)); ("P1_XY04_CH1.tif", ("P1", 4))])
      (score_table [("P1_XY01_CH1.tif", 100); ("P1_XY02_CH1.tif", 200);
                    ("P1_XY03_CH1.tif", 75); ("P1_XY04_CH1.tif", 300)])
      (λ _, true)
      ["P1_XY01_CH1.tif"; "P1_XY02_CH1.tif"; "P1_XY03_CH1.tif"; "P1_XY04_CH1.tif"]
      ["B"] 150 wells
    = Ok (images, []) ∧
    fst <$> [("B", [Some (Fin (Qc_of_Z 66)); Some (Fin (Qc_of_Z 133))]);
             ("T", [Some (Fin (Qc_of_Z 50)); Some NaN])]
    = filter (λ g, included (λ _, true) ["B"] g = true) (dedup wells) ∧
    NoDup (fst <$> [("B", [Some (Fin (Qc_of_Z 66)); Some (Fin (Qc_of_Z 133))]);
                    ("T", [Some (Fin (Qc_of_Z 50)); Some NaN])]) ∧
    Forall (λ entry,
        entry.2 = normalized_value <$> filter (λ img, group img = entry.1) images)
      [("B", [Some (Fin (Qc_of_Z 66)); Some (Fin (Qc_of_Z 133))]);
       ("T", [Some (Fin (Qc_of_Z 50)); Some NaN])] ∧
    sum_list_with (λ entry, length entry.2)
      [("B", [Some (Fin (Qc_of_Z 66)); Some (Fin (Qc_of_Z 133))]);
       ("T", [Some (Fin (Qc_of_Z 50)); Some NaN])]
    = length images.
Proof.
  apply (main_result_set
           (xy_table [("P1_XY01_CH1.tif", ("P1", 1)); ("P1_XY02_CH1.tif", ("P1", 2));
                      ("P1_XY03_CH1.tif", ("P1", 3)); ("P1_XY04_CH1.tif", ("P1", 4))])
           (score_table [("P1_XY01_CH1.tif", 100); ("P1_XY02_CH1.tif", 200);
                         ("P1_XY03_CH1.tif", 75); ("P1_XY04_CH1.tif", 300)])
           (λ _, true) []
           ["P1_XY01_CH1.tif"; "P1_XY02_CH1.tif"; "P1_XY03_CH1.tif"; "P1_XY04_CH1.tif"]
           150 (Some [["B"; "B"; "T"; "T"]]) ["B"] []).
  vm_compute. reflexivity.
Defined.

(** ** Cleaning a label *)

Lemma lstrip_suffix (l : list Ascii.ascii) :
  ∃ spaces, l = spaces ++ lstrip l ∧ Forall (λ c, c = Ascii.Space) spaces.
Proof.
  induction l as [|c l (spaces & IH & Hspaces)]; [by exists []|]. cbn.
  destruct (decide (c = Ascii.Space)) as [->|].
  - exists (Ascii.Space :: spaces). split; [by rewrite IH at 1|by constructor].
  - by exists [].
Qed.

Lemma head_lstrip (l : list Ascii.ascii) : head (lstrip l) ≠ Some Ascii.Space.
Proof.
  induction l as [|c l IH]; [done|]. cbn.
  destruct (decide (c = Ascii.Space)); [done|]. cbn. congruence.
Qed.

Lemma lstrip_id (l : list Ascii.ascii) : head l ≠ Some Ascii.Space → lstrip l = l.
Proof.
  destruct l as [|c l]; [done|]. cbn. intros Hc.
  destruct (decide (c = Ascii.Space)) as [->|]; done.
Qed.

Lemma head_strip (l : list Ascii.ascii) :
  head l ≠ Some Ascii.Space →
  head (reverse (lstrip (reverse l))) ≠ Some Ascii.Space.
Proof.
  intros Hl. destruct (lstrip_suffix (reverse l)) as (spaces & Hl' & _).
  apply (f_equal reverse) in Hl'.
  rewrite reverse_involutive, reverse_app in Hl'.
  destruct (reverse (lstrip (reverse l))) as [|c kept]; [done|].
  rewrite Hl' in Hl. done.
Qed.

Lemma clean_chars (s : string) :
  String.list_ascii_of_string (_clean s)
  = reverse (lstrip (reverse (lstrip
      (filter (λ c, isprintable c = true) (String.list_ascii_of_string s))))).
Proof. unfold _clean. apply String.list_ascii_of_string_of_list_ascii. Qed.

(** The cleaned label consists of printable characters only, neither starts
    nor ends with a space, and cleaning it again changes nothing. *)
Lemma clean_is_clean (s : string) :
  Forall (λ c, isprintable c = true) (String.list_ascii_of_string (_clean s)) ∧
  head (String.list_ascii_of_string (_clean s)) ≠ Some Ascii.Space ∧
  last (String.list_ascii_of_string (_clean s)) ≠ Some Ascii.Space ∧
  _clean (_clean s) = _clean s.
Proof.
  pose proof (clean_chars s) as Hchars.
  set (t := _clean s) in *.
  set (printable := filter (λ c, isprintable c = true) (String.list_ascii_of_string s)) in *.
  set (stripped := reverse (lstrip (reverse (lstrip printable)))) in *.
  assert (Forall (λ c, isprintable c = true) printable) as Hprintable.
  { apply Forall_forall. by intros c [? _]%list_elem_of_filter. }
  assert (Forall (λ c, isprintable c = true) stripped) as Hstripped.
  { unfold stripped. apply Forall_reverse.
    destruct (lstrip_suffix (reverse (lstrip printable))) as (sp & Hsp & _).
    assert (Forall (λ c, isprintable c = true) (reverse (lstrip printable))) as Hrev.
    { apply Forall_reverse.
      destruct (lstrip_suffix printable) as (sp' & Hsp' & _).
      rewrite Hsp' in Hprintable. by apply Forall_app in Hprintable as [_ ?]. }
    rewrite Hsp in Hrev. by apply Forall_app in Hrev as [_ ?]. }
  assert (head stripped ≠ Some Ascii.Space) as Hhead
    by apply head_strip, head_lstrip.
  assert (last stripped ≠ Some Ascii.Space) as Hlast.
  { unfold stripped. rewrite last_reverse. apply head_lstrip. }
  rewrite Hchars. split; [done|]. split; [done|]. split; [done|].
  rewrite <- (String.string_of_list_ascii_of_string t) at 2.
  unfold _clean. rewrite Hchars. f_equal.
  assert (filter (λ c, isprintable c = true) stripped = stripped) as ->.
  { clear -Hstripped. induction Hstripped as [|c l Hc _ IH]; [done|].
    by rewrite filter_cons_True, IH. }
  rewrite (lstrip_id stripped Hhead).
  rewrite lstrip_id; [by rewrite reverse_involutive|].
  by rewrite head_reverse.
Qed.

(** ** The file name pattern *)

Lemma string_of_list_ascii_app (a b : list ascii) :
  String.string_of_list_ascii (a ++ b)
  = String.string_of_list_ascii a +:+ String.string_of_list_ascii b.
Proof. induction a as [|c a IH]; [done|]. cbn. by rewrite IH. Qed.

Lemma list_ascii_of_string_app (a b : string) :
  String.list_ascii_of_string (a +:+ b)
  = String.list_ascii_of_string a ++ String.list_ascii_of_string b.
Proof.
  induction a as [|c a IH]; [done|].
  change (c :: String.list_ascii_of_string (a +:+ b)
          = c :: (String.list_ascii_of_string a ++ String.list_ascii_of_string b)).
  by rewrite IH.
Qed.

Lemma match_xy_Some (s : list ascii) (n : Z) :
  match_xy s = Some n →
  ∃ d1 d2 post,
    s = "_"%char :: "X"%char :: "Y"%char :: d1 :: d2 :: "_"%char :: post ∧
    is_digit d1 = true ∧ is_digit d2 = true ∧
    n = 10 * digit_value d1 + digit_value d2.
Proof.
  unfold match_xy. intros Hs.
  destruct s as [|u1 [|cx [|cy [|d1 [|d2 [|u2 post]]]]]]; try done.
  destruct (bool_decide _) eqn:Hlit; [|done].
  apply bool_decide_eq_true in Hlit as (-> & -> & -> & ->).
  destruct (is_digit d1) eqn:Hd1; [|done].
  destruct (is_digit d2) eqn:Hd2; [|done].
  injection Hs as <-. by exists d1, d2, post.
Qed.

Lemma match_xy_digits (d1 d2 : ascii) (post : list ascii) :
  is_digit d1 = true → is_digit d2 = true →
  match_xy ("_"%char :: "X"%char :: "Y"%char :: d1 :: d2 :: "_"%char :: post)
  = Some (10 * digit_value d1 + digit_value d2).
Proof.
  intros Hd1 Hd2. unfold match_xy. rewrite Hd1, Hd2.
  by rewrite bool_decide_eq_true_2.
Qed.

Lemma digit_value_range (d : ascii) : is_digit d = true → 0 ≤ digit_value d ≤ 9.
Proof.
  unfold is_digit, digit_value. cbv zeta. intros Hd.
  apply andb_true_iff in Hd as [Hlo Hhi].
  apply Nat.leb_le in Hlo, Hhi. lia.
Qed.

Lemma is_digit_alnum (d : ascii) : is_digit d = true → is_alnum d = true.
Proof. unfold is_digit, is_alnum. cbv zeta. intros ->. by rewrite orb_true_r. Qed.

Lemma match_here_sound (s run : list ascii) (n : Z) :
  match_here s = Some (run, n) →
  run ≠ [] ∧ Forall (λ c, is_alnum c = true) run ∧
  ∃ rest, s = run ++ rest ∧ match_xy rest = Some n.
Proof.
  revert run. induction s as [|c s IH]; intros run Hs; [done|].
  cbn [match_here] in Hs.
  destruct (is_alnum c) eqn:Hc; [|done].
  destruct (match_here s) as [[run' n']|].
  - injection Hs as <- <-.
    destruct (IH run' eq_refl) as (_ & Hrun & rest & -> & Hrest).
    split_and!; [done|by constructor|]. by exists rest.
  - destruct (match_xy s) as [n'|] eqn:Hxy; [|done]. injection Hs as <- <-.
    split_and!; [done|by repeat constructor|]. by exists s.
Qed.

Lemma search_sound (s run : list ascii) (n : Z) :
  search s = Some (run, n) →
  run ≠ [] ∧ Forall (λ c, is_alnum c = true) run ∧
  ∃ pre rest, s = pre ++ run ++ rest ∧ match_xy rest = Some n.
Proof.
  induction s as [|c s IH]; intros Hs.
  - cbn in Hs. done.
  - cbn [search] in Hs.
    destruct (match_here (c :: s)) as [m|] eqn:Hhere.
    + injection Hs as ->.
      destruct (match_here_sound _ _ _ Hhere) as (Hne & Hrun & rest & Heq & Hrest).
      split_and!; [done..|]. by exists [], rest.
    + destruct (IH Hs) as (Hne & Hrun & pre & rest & -> & Hrest).
      split_and!; [done..|]. by exists (c :: pre), rest.
Qed.

Lemma match_here_run (run rest : list ascii) (n : Z) :
  run ≠ [] → Forall (λ c, is_alnum c = true) run → match_xy rest = Some n →
  match_here (run ++ rest) = Some (run, n).
Proof.
  intros Hne Hrun Hrest.
  assert (match_here rest = None) as Hnone.
  { destruct (match_xy_Some _ _ Hrest) as (d1 & d2 & post & -> & _). done. }
  induction Hrun as [|c run Hc Hrun IH]; [done|].
  cbn [app match_here]. rewrite Hc.
  destruct run as [|c' run].
  - cbn [app]. by rewrite Hnone, Hrest.
  - by rewrite IH.
Qed.

Lemma match_xy_head (s : list ascii) (n : Z) :
  match_xy s = Some n → head s = Some "_"%char.
Proof. intros Hs. by destruct (match_xy_Some _ _ Hs) as (d1 & d2 & post & -> & _). Qed.

Lemma match_here_no_underscore (pre rest : list ascii) :
  pre ≠ [] → "_"%char ∉ pre →
  (∀ c, last pre = Some c → is_alnum c = false) →
  match_here (pre ++ rest) = None.
Proof.
  induction pre as [|c pre IH]; intros Hne Hunder Hlast; [done|].
  cbn [app match_here].
  destruct (is_alnum c) eqn:Hc; [|done].
  destruct pre as [|c' pre].
  - by rewrite (Hlast c eq_refl) in Hc.
  - rewrite IH; [|done|..].
    + destruct (match_xy ((c' :: pre) ++ rest)) as [n|] eqn:Hxy; [|done].
      apply match_xy_head in Hxy. injection Hxy as ->.
      exfalso. apply Hunder. apply elem_of_cons. right. apply elem_of_cons. by left.
    + intros Hin. apply Hunder. apply elem_of_cons. by right.
    + intros c0 Hc0. apply Hlast. by rewrite last_cons, Hc0.
Qed.

Lemma search_after_prefix (pre run rest : list ascii) (n : Z) :
  "_"%char ∉ pre →
  (∀ c, last pre = Some c → is_alnum c = false) →
  run ≠ [] → Forall (λ c, is_alnum c = true) run → match_xy rest = Some n →
  search (pre ++ run ++ rest) = Some (run, n).
Proof.
  intros Hunder Hlast Hne Hrun Hrest.
  induction pre as [|c pre IH].
  - cbn [app]. destruct run as [|c run]; [done|].
    change (search ((c :: run) ++ rest)) with
      (match match_here ((c :: run) ++ rest) with
       | Some m => Some m
       | None => search (run ++ rest)
       end).
    by rewrite (match_here_run (c :: run) rest n).
  - change (search ((c :: pre) ++ run ++ rest)) with
      (match match_here ((c :: pre) ++ run ++ rest) with
       | Some m => Some m
       | None => search (pre ++ run ++ rest)
       end).
    rewrite match_here_no_underscore; [|done..].
    apply IH.
    + intros Hin. apply Hunder. apply elem_of_cons. by right.
    + intros c0 Hc0. apply Hlast. destruct pre; [done|]. by rewrite last_cons, Hc0.
Qed.

Lemma is_digit_of_nat (d : ascii) :
  is_digit d = true → ∃ k : nat, (k < 10)%nat ∧ d = ascii_of_nat (48 + k).
Proof.
  unfold is_digit. cbv zeta. intros Hd.
  apply andb_true_iff in Hd as [Hlo Hhi]. apply Nat.leb_le in Hlo, Hhi.
  exists (nat_of_ascii d - 48)%nat. split; [lia|].
  replace (48 + (nat_of_ascii d - 48))%nat with (nat_of_ascii d) by lia.
  by rewrite ascii_nat_embedding.
Qed.

Lemma format_02d_digits (d1 d2 : ascii) :
  is_digit d1 = true → is_digit d2 = true →
  format_02d (10 * digit_value d1 + digit_value d2) = String d1 (String d2 "").
Proof.
  intros Hd1 Hd2.
  destruct (is_digit_of_nat d1 Hd1) as (k1 & Hk1 & ->).
  destruct (is_digit_of_nat d2 Hd2) as (k2 & Hk2 & ->).
  do 10 (destruct k1 as [|k1];
    [do 10 (destruct k2 as [|k2]; [vm_compute; reflexivity|]); lia|]).
  lia.
Qed.

Lemma new_Image_Ok (f g : string) (img : Image) :
  new_Image re_xy_search f g = Ok img →
  fl_filename img = f ∧ group img = g ∧ normalized_value img = None ∧
  ∃ pre run d1 d2 post,
    String.list_ascii_of_string f
    = pre ++ run ++ "_"%char :: "X"%char :: "Y"%char :: d1 :: d2 :: "_"%char :: post ∧
    run ≠ [] ∧ Forall (λ c, is_alnum c = true) run ∧
    is_digit d1 = true ∧ is_digit d2 = true ∧
    plate img = String.string_of_list_ascii run ∧
    xy img = 10 * digit_value d1 + digit_value d2.
Proof.
  unfold new_Image, re_xy_search. intros Hnew.
  destruct (search (String.list_ascii_of_string f)) as [[run n]|] eqn:Hsearch; [|done].
  cbn in Hnew. injection Hnew as <-. cbn.
  destruct (search_sound _ _ _ Hsearch) as (Hne & Hrun & pre & rest & Hf & Hrest).
  destruct (match_xy_Some _ _ Hrest) as (d1 & d2 & post & -> & Hd1 & Hd2 & ->).
  split_and!; [done..|]. by exists pre, run, d1, d2, post.
Qed.

(** A record is created only for a file name that contains a plate name, a
    nonempty run of ASCII letters and digits, followed by [_XY], a position
    of two digits and [_]: the record holds that plate name and the
    position, from 0 to 99, and the file name contains the record's
    [v_file_prefix] followed by [_]. *)
Lemma new_Image_parses_file_name (f g : string) (img : Image) :
  new_Image re_xy_search f g = Ok img →
  fl_filename img = f ∧ group img = g ∧ normalized_value img = None ∧
  plate img ≠ "" ∧
  Forall (λ c, is_alnum c = true) (String.list_ascii_of_string (plate img)) ∧
  0 ≤ xy img ≤ 99 ∧
  ∃ pre post, f = pre +:+ v_file_prefix img +:+ "_" +:+ post.
Proof.
  intros Hnew.
  destruct (new_Image_Ok f g img Hnew)
    as (Hf & Hg & Hnv & pre & run & d1 & d2 & post & Hlist & Hne & Hrun & Hd1 & Hd2
        & Hplate & Hxy).
  pose proof (digit_value_range d1 Hd1). pose proof (digit_value_range d2 Hd2).
  refine (conj Hf (conj Hg (conj Hnv (conj _ (conj _ (conj _ _)))))); [| |lia|].
  - rewrite Hplate. by destruct run.
  - by rewrite Hplate, String.list_ascii_of_string_of_list_ascii.
  - exists (String.string_of_list_ascii pre), (String.string_of_list_ascii post).
    rewrite <- (String.string_of_list_ascii_of_string f).
    rewrite <- (String.string_of_list_ascii_of_string
                  (String.string_of_list_ascii pre +:+ _)).
    f_equal. unfold v_file_prefix.
    rewrite Hlist, Hplate, Hxy, (format_02d_digits d1 d2 Hd1 Hd2).
    rewrite !list_ascii_of_string_app, !String.list_ascii_of_string_of_list_ascii.
    by rewrite <- !app_assoc.
Qed.

Lemma new_Image_parses_file_name_witness :
  ∃ img,
    new_Image re_xy_search "scans/Plate7_XY03_CH1.tif" "B" = Ok img ∧
    fl_filename img = "scans/Plate7_XY03_CH1.tif" ∧ group img = "B" ∧
    normalized_value img = None ∧
    plate img ≠ "" ∧
    Forall (λ c, is_alnum c = true) (String.list_ascii_of_string (plate img)) ∧
    0 ≤ xy img ≤ 99 ∧
    ∃ pre post, "scans/Plate7_XY03_CH1.tif" = pre +:+ v_file_prefix img +:+ "_" +:+ post.
Proof.
  eexists. split; [vm_compute; reflexivity|].
  apply (new_Image_parses_file_name "scans/Plate7_XY03_CH1.tif" "B").
  vm_compute. reflexivity.
Defined.

(** The names of the images written to the log directory can be read back:
    a name made of a directory part without [_] that does not end in a
    letter or digit, the [v_file_prefix] of a record, [_] and anything
    gives the plate name and the position of the record. *)
Lemma log_file_name_round_trip (f g : string) (img : Image) (dir rest : string) :
  new_Image re_xy_search f g = Ok img →
  "_"%char ∉ String.list_ascii_of_string dir →
  (∀ c, last (String.list_ascii_of_string dir) = Some c → is_alnum c = false) →
  re_xy_search (dir +:+ v_file_prefix img +:+ "_" +:+ rest) = Some (plate img, xy img).
Proof.
  intros Hnew Hunder Hlast.
  destruct (new_Image_Ok f g img Hnew)
    as (_ & _ & _ & pre & run & d1 & d2 & post & _ & Hne & Hrun & Hd1 & Hd2
        & Hplate & Hxy).
  unfold re_xy_search, v_file_prefix.
  rewrite Hplate, Hxy, (format_02d_digits d1 d2 Hd1 Hd2).
  rewrite !list_ascii_of_string_app, !String.list_ascii_of_string_of_list_ascii.
  rewrite <- !app_assoc.
  rewrite (search_after_prefix _ run _ (10 * digit_value d1 + digit_value d2));
    [done|done|done|done|done|].
  by apply match_xy_digits.
Qed.

Lemma log_file_name_round_trip_witness :
  ∃ img,
    new_Image re_xy_search "scans/Plate7_XY03_CH1.tif" "B" = Ok img ∧
    re_xy_search ("log/imageops/" +:+ v_file_prefix img +:+ "_" +:+ "1700000000000.png")
    = Some (plate img, xy img).
Proof.
  eexists. split; [vm_compute; reflexivity|].
  apply (log_file_name_round_trip "scans/Plate7_XY03_CH1.tif" "B").
  - vm_compute. reflexivity.
  - apply (bool_decide_unpack _). vm_compute. exact I.
  - intros c [= <-]. vm_compute. reflexivity.
Defined.

(** ** The control value of a plate *)

Lemma half_between (lo hi a b : Qc) :
  (lo ≤ a ≤ hi)%Qc → (lo ≤ b ≤ hi)%Qc → (lo ≤ (a + b) / 2 ≤ hi)%Qc.
Proof.
  intros [Ha1 Ha2] [Hb1 Hb2].
  assert (∀ x : Qc, x = ((x + x) / 2)%Qc) as Hhalf by (intros x; by field).
  assert (0 ≤ / 2)%Qc as Hpos by done.
  split.
  - rewrite (Hhalf lo). unfold Qcdiv. apply Qcmult_le_compat_r; [|done].
    by apply Qcplus_le_compat.
  - rewrite (Hhalf hi). unfold Qcdiv. apply Qcmult_le_compat_r; [|done].
    by apply Qcplus_le_compat.
Qed.

Lemma median_between (l : list Z) (lo hi : Z) :
  l ≠ [] → Forall (λ x, lo ≤ x ≤ hi) l → 0 ≤ lo → hi < 2 ^ 52 →
  ∃ q, median l = Fin q ∧ (Qc_of_Z lo ≤ q ≤ Qc_of_Z hi)%Qc.
Proof.
  intros Hne Hall Hlo Hhi. rewrite median_exact.
  2:{ eapply Forall_impl; [exact Hall|]. cbn. lia. }
  unfold sorted. cbv zeta.
  pose proof (merge_sort_Permutation Z.le l) as Hperm.
  set (s := merge_sort Z.le l) in *.
  assert (Forall (λ x, lo ≤ x ≤ hi) s) as Hs by by rewrite Hperm.
  assert (length s ≠ 0%nat) as Hlen.
  { rewrite Hperm. by destruct l. }
  assert (∀ i a, s !! i = Some a → (Qc_of_Z lo ≤ Qc_of_Z a ≤ Qc_of_Z hi)%Qc) as Hin.
  { intros i a Ha. rewrite <- !Z2Qc_inj_le. exact (Forall_lookup_1 _ _ _ _ Hs Ha). }
  rewrite decide_False by done.
  assert (length s / 2 < length s)%nat as Hhalf by (apply Nat.div_lt; lia).
  destruct (lookup_lt_is_Some_2 s (length s / 2)) as [b Hb]; [done|].
  destruct (Nat.even (length s)).
  - destruct (lookup_lt_is_Some_2 s (length s / 2 - 1)) as [a Ha]; [lia|].
    rewrite Ha, Hb. eexists. split; [done|]. rewrite Z2Qc_inj_2.
    apply half_between; by eapply Hin.
  - rewrite Hb. eexists. split; [done|]. by eapply Hin.
Qed.

Lemma calculate_control_values_between
    (image_score : string → Z) (images : list Image) (plate_control : list string)
    (p : string) (lo hi : Z) :
  Exists (λ img, group img ∈ plate_control ∧ plate img = p ∧
                 0 < image_score (fl_filename img)) images →
  (∀ img, img ∈ images → group img ∈ plate_control → plate img = p →
          0 < image_score (fl_filename img) →
          lo ≤ image_score (fl_filename img) ≤ hi) →
  hi < 2 ^ 52 →
  ∃ ctrl_vals q,
    _calculate_control_values image_score images plate_control = Ok ctrl_vals ∧
    ctrl_vals !! p = Some (Fin q) ∧
    (Qc_of_Z (Z.max lo 1) ≤ q ≤ Qc_of_Z hi)%Qc.
Proof.
  intros Hsome Hrange Hhi.
  apply Exists_exists in Hsome as (img0 & Himg0 & Hgroup0 & Hplate0 & Hpos0).
  destruct (calculate_control_values_entries image_score images plate_control)
    as (ctrl_vals & Hcalc & Hlookup).
  { apply Exists_exists. by exists img0. }
  specialize (Hlookup p). rewrite decide_True in Hlookup.
  2:{ apply Exists_exists. by exists img0. }
  set (scores := omap (λ r, match r with Score s => Some s | Missing => None end)
         (get_raw_value image_score
            <$> filter (λ img, plate img = p)
                  (filter (λ img, group img ∈ plate_control) images))).
  destruct (median_between scores (Z.max lo 1) hi) as (q & Hq & Hbounds);
    [| |lia|done|].
  - assert (image_score (fl_filename img0) ∈ scores) as Hin; [|by destruct scores; inversion Hin].
    apply list_elem_of_omap. exists (get_raw_value image_score img0). split.
    + apply list_elem_of_fmap. exists img0. split; [done|].
      apply list_elem_of_filter. split; [done|]. by apply list_elem_of_filter.
    + unfold get_raw_value. by rewrite raw_of_score_positive.
  - apply Forall_forall. intros s Hs.
    apply list_elem_of_omap in Hs as (r & Hr & Hs).
    apply list_elem_of_fmap in Hr as (img & -> & Himg).
    apply list_elem_of_filter in Himg as [Hplate Himg].
    apply list_elem_of_filter in Himg as [Hgroup Himg].
    unfold get_raw_value, raw_of_score in Hs.
    destruct (image_score (fl_filename img) >? 0) eqn:Hpos; [|done].
    injection Hs as <-.
    assert (lo ≤ image_score (fl_filename img) ≤ hi) by (apply Hrange; [done..|lia]).
    lia.
  - exists ctrl_vals, q. split_and!; [done| |apply Hbounds..].
    rewrite Hlookup. unfold nanmedian. fold scores. by rewrite Hq.
Qed.

(** The control value of a plate lies between the smallest and the largest
    positive score of the plate's control wells, when there is one and the
    scores are below [2 ** 52], so that they and the mean of two of them
    are doubles. *)
Lemma control_value_between
    (image_score : string → Z) (images : list Image) (plate_control : list string)
    (p : string) (lo hi : Z) :
  Exists (λ img, group img ∈ plate_control ∧ plate img = p ∧
                 0 < image_score (fl_filename img)) images →
  (∀ img, img ∈ images → group img ∈ plate_control → plate img = p →
          0 < image_score (fl_filename img) →
          lo ≤ image_score (fl_filename img) ≤ hi) →
  hi < 2 ^ 52 →
  ∃ ctrl_vals q,
    _calculate_control_values image_score images plate_control = Ok ctrl_vals ∧
    ctrl_vals !! p = Some (Fin q) ∧
    (Qc_of_Z (Z.max lo 1) ≤ q ≤ Qc_of_Z hi)%Qc.
Proof. apply calculate_control_values_between. Qed.

Lemma div_self_100 (s : Z) : s ≠ 0 → (Qc_of_Z (s * 100) / Qc_of_Z s)%Qc = Qc_of_Z 100.
Proof.
  intros Hs. rewrite Z2Qc_inj_mul. field.
  intros H0. apply Hs. rewrite <- Z2Qc_inj_0 in H0. by apply Z2Qc_inj in H0.
Qed.

(** When the control wells of a plate all have the same positive score (in
    particular when the plate has a single control well), that score is the
    control value of the plate and each of these wells is normalised to
    exactly 100, for a cap that is switched off or above 100.  The
    hundredfold of the score is below [2 ** 52], so that it is a double. *)
Lemma equal_controls_normalize_to_100
    (image_score : string → Z) (images : list Image) (plate_control : list string)
    (img : Image) (s cap : Z) :
  img ∈ images → group img ∈ plate_control →
  (∀ i, i ∈ images → group i ∈ plate_control → plate i = plate img →
        image_score (fl_filename i) = s) →
  0 < s → s * 100 < 2 ^ 52 →
  cap ≤ 0 ∨ 100 < cap →
  ∃ ctrl_vals,
    _calculate_control_values image_score images plate_control = Ok ctrl_vals ∧
    ctrl_vals !! plate img = Some (Fin (Qc_of_Z s)) ∧
    normalize image_score img ctrl_vals cap
    = Ok (set_normalized_value img (Fin (Qc_of_Z 100)), []).
Proof.
  intros Himg Hgroup Hequal Hpos Hfits Hcap.
  destruct (calculate_control_values_between image_score images plate_control
              (plate img) s s) as (ctrl_vals & q & Hcalc & Hlookup & Hlo & Hhi).
  { apply Exists_exists. exists img. split_and!; [done..|].
    by rewrite (Hequal img). }
  { intros i Hi Hgi Hpi _. rewrite (Hequal i); [lia|done..]. }
  { lia. }
  replace (Z.max s 1) with s in Hlo by lia.
  assert (q = Qc_of_Z s) as -> by by apply Qcle_antisym.
  exists ctrl_vals. split_and!; [done..|].
  rewrite (normalize_score _ _ _ (Fin (Qc_of_Z s))); [|by rewrite (Hequal img)|done].
  rewrite (Hequal img) by done. cbv zeta.
  rewrite wrap64_small by lia. rewrite float_of_int_exact by lia.
  assert (float_floor_divide (Fin (Qc_of_Z (s * 100))) (Fin (Qc_of_Z s))
          = Fin (Qc_of_Z 100)) as ->.
  { assert (Qc_of_Z s = Qc_of_Z (2 * s) / Qc_of_Z 2)%Qc as Hs.
    { rewrite Z2Qc_inj_mul. field. apply Qc_of_Z_ne_0. lia. }
    rewrite Hs. rewrite float_floor_divide_exact by lia.
    by rewrite <- Hs, div_self_100, Qc_floor_Z by lia. }
  cbn [float_lt_int]. rewrite Qc_ltb_of_Z.
  destruct (cap >? 0) eqn:Hc; [|done].
  by rewrite bool_decide_eq_true_2 by lia.
Qed.

Lemma control_value_between_witness :
  ∃ ctrl_vals q,
    _calculate_control_values
      (score_table [("P1_XY01_CH1.tif", 100); ("P1_XY02_CH1.tif", 200);
                    ("P1_XY04_CH1.tif", 900)])
      [mkImage "P1_XY01_CH1.tif" "P1" 1 "B" None; mkImage "P1_XY02_CH1.tif" "P1" 2 "B" None;
       mkImage "P1_XY03_CH1.tif" "P1" 3 "B" None; mkImage "P1_XY04_CH1.tif" "P1" 4 "T" None]
      ["B"]
    = Ok ctrl_vals ∧
    ctrl_vals !! "P1" = Some (Fin q) ∧
    (Qc_of_Z 100 ≤ q ≤ Qc_of_Z 200)%Qc.
Proof.
  apply (control_value_between
           (score_table [("P1_XY01_CH1.tif", 100); ("P1_XY02_CH1.tif", 200);
                         ("P1_XY04_CH1.tif", 900)])
           [mkImage "P1_XY01_CH1.tif" "P1" 1 "B" None;
            mkImage "P1_XY02_CH1.tif" "P1" 2 "B" None;
            mkImage "P1_XY03_CH1.tif" "P1" 3 "B" None;
            mkImage "P1_XY04_CH1.tif" "P1" 4 "T" None]
           ["B"] "P1" 100 200).
  - apply (bool_decide_unpack _). vm_compute. exact I.
  - refine (proj1 (Forall_forall
      (λ img, group img ∈ ["B"] → plate img = "P1" →
              0 < score_table [("P1_XY01_CH1.tif", 100); ("P1_XY02_CH1.tif", 200);
                               ("P1_XY04_CH1.tif", 900)] (fl_filename img) →
              100 ≤ score_table [("P1_XY01_CH1.tif", 100); ("P1_XY02_CH1.tif", 200);
                                 ("P1_XY04_CH1.tif", 900)] (fl_filename img) ≤ 200) _) _).
    apply (bool_decide_unpack _). vm_compute. exact I.
  - lia.
Defined.

Lemma equal_controls_normalize_to_100_witness :
  ∃ ctrl_vals,
    _calculate_control_values
      (score_table [("P1_XY01_CH1.tif", 500); ("P1_XY02_CH1.tif", 250)])
      [mkImage "P1_XY01_CH1.tif" "P1" 1 "B" None; mkImage "P1_XY02_CH1.tif" "P1" 2 "T" None]
      ["B"]
    = Ok ctrl_vals ∧
    ctrl_vals !! "P1" = Some (Fin (Qc_of_Z 500)) ∧
    normalize (score_table [("P1_XY01_CH1.tif", 500); ("P1_XY02_CH1.tif", 250)])
      (mkImage "P1_XY01_CH1.tif" "P1" 1 "B" None) ctrl_vals (-1)
    = Ok (set_normalized_value (mkImage "P1_XY01_CH1.tif" "P1" 1 "B" None)
            (Fin (Qc_of_Z 100)), []).
Proof.
  apply (equal_controls_normalize_to_100
           (score_table [("P1_XY01_CH1.tif", 500); ("P1_XY02_CH1.tif", 250)])
           [mkImage "P1_XY01_CH1.tif" "P1" 1 "B" None;
            mkImage "P1_XY02_CH1.tif" "P1" 2 "T" None]
           ["B"] (mkImage "P1_XY01_CH1.tif" "P1" 1 "B" None) 500 (-1)).
  - apply elem_of_cons. by left.
  - apply elem_of_cons. by left.
  - refine (proj1 (Forall_forall
      (λ i, group i ∈ ["B"] → plate i = "P1" →
            score_table [("P1_XY01_CH1.tif", 500); ("P1_XY02_CH1.tif", 250)] (fl_filename i)
            = 500) _) _).
    apply (bool_decide_unpack _). vm_compute. exact I.
  - lia.
  - lia.
  - left. lia.
Defined.

(** ** The raw value of a masked image *)

Lemma apply_mask_nothing_kept (img mask : image) :
  concat img ≠ [] →
  Forall (Forall (λ p, 0 ≤ p ≤ 2147483647)) img →
  same_shape img mask = true →
  Forall (Forall (λ m, m ≠ 255)) mask →
  apply_mask img mask = Ok (zeros_like img).
Proof.
  intros Hne Hrange Hshape Hmask.
  destruct (get_bit_depth_Ok img Hne) as (t & Hdepth).
  { eapply Forall_impl; [exact Hrange|]. intros row Hrow.
    eapply Forall_impl; [exact Hrow|]. cbn. lia. }
  unfold apply_mask. rewrite Hdepth. cbn. unfold elementwise. rewrite Hshape.
  f_equal. apply same_shape_spec in Hshape. clear Hne Hdepth.
  revert mask Hshape Hmask.
  induction Hrange as [|row img Hrow _ IH]; intros [|mrow mask] Hshape Hmask;
    [done..|].
  injection Hshape as Hlen Hshape. inversion Hmask as [|? ? Hmrow Hmask']; subst.
  cbn [zip_with]. unfold zeros_like. rewrite fmap_cons. f_equal; [|by apply IH].
  clear IH Hshape Hmask Hmask'. revert mrow Hlen Hmrow.
  induction Hrow as [|p row Hp _ IHrow]; intros [|m mrow] Hlen Hmrow; [done..|].
  injection Hlen as Hlen. inversion Hmrow as [|? ? Hm Hmrow']; subst.
  cbn [zip_with]. rewrite fmap_cons. f_equal; [|by apply IHrow].
  replace (m =? 255) with false by lia. lia.
Qed.

(** A mask without any white pixel gives the raw value [np.nan]: nothing of
    the image is left to score, and a score of 0 counts as missing.  The
    maxima are those the detector reports for the image that is 0
    everywhere. *)
Lemma raw_value_of_empty_mask
    (peak_local_max : image → Z → Z → Qc → list (Z * Z)) (fl_img mask : image) :
  concat fl_img ≠ [] →
  rectangular fl_img →
  Forall (Forall (λ p, 0 ≤ p ≤ 2147483647)) fl_img →
  same_shape fl_img mask = true →
  Forall (Forall (λ m, m ≠ 255)) mask →
  (length (_get_local_maxima peak_local_max (zeros_like fl_img) 10 8 default_threshold_rel)
   ≤ 10)%nat →
  Forall (λ c, 0 ≤ c.1 ∧ c.1 + 8 < height fl_img ∧ 0 ≤ c.2 ∧ c.2 + 8 < width fl_img)
    (_get_local_maxima peak_local_max (zeros_like fl_img) 10 8 default_threshold_rel) →
  raw_value_of peak_local_max fl_img mask = Ok Missing.
Proof.
  intros Hne Hrect Hrange Hshape Hmask Hcount Hinside.
  unfold raw_value_of. rewrite (apply_mask_nothing_kept fl_img mask) by done.
  change (Ok ?r ≫= ?f) with (f r). cbv beta.
  set (black := zeros_like fl_img) in *.
  assert (Forall (Forall (λ p, p = 0)) black) as Hblack.
  { unfold black, zeros_like. apply Forall_fmap, Forall_true. intros row.
    by apply Forall_fmap, Forall_true. }
  assert (height black = height fl_img) as Hheight.
  { unfold height, black, zeros_like. by rewrite length_fmap. }
  assert (width black = width fl_img) as Hwidth.
  { unfold width, black, zeros_like. destruct fl_img; [done|].
    rewrite fmap_cons. by rewrite length_fmap. }
  assert (rectangular black) as Hrect'.
  { unfold rectangular. rewrite Hwidth. unfold black, zeros_like.
    apply Forall_fmap. eapply Forall_impl; [exact Hrect|].
    intros row Hrow. cbn. by rewrite length_fmap. }
  destruct (score_from_exact black 8
              (_get_local_maxima peak_local_max black 10 8 default_threshold_rel) 0)
    as (kept & Hscore & _ & Hkept); [done|lia| | |lia| |].
  { eapply Forall_impl; [exact Hblack|]. intros row Hrow.
    eapply Forall_impl; [exact Hrow|]. cbn. lia. }
  { by rewrite Hheight, Hwidth. }
  { assert (Z.of_nat (length (_get_local_maxima peak_local_max black 10 8
                                default_threshold_rel)) ≤ 10) by lia.
    nia. }
  unfold score, score_from. rewrite Hscore.
  change (Ok ?r ≫= ?f) with (f r). cbv beta.
  assert (Zsum (Zsum <$> kept) = 0) as ->; [|done].
  assert (Forall (λ k, Zsum k = 0) kept) as Hzero.
  { eapply Forall2_Forall_r; [exact Hkept|]. apply Forall_true.
    intros c k (positions & pts & rest & _ & _ & Hpts & Hperm & _).
    assert (Forall (λ p, p = 0) pts) as Hzero.
    { eapply Forall2_Forall_r; [exact Hpts|]. apply Forall_true.
      intros xy p Hp. exact (pixel_Ok_Forall _ _ _ _ _ Hblack Hp). }
    rewrite Hperm in Hzero. apply Forall_app in Hzero as [Hk _].
    clear -Hk. induction Hk as [|p k -> _ IH]; [done|]. by rewrite Zsum_cons, IH. }
  clear -Hzero. induction Hzero as [|k kept Hk _ IH]; [done|].
  rewrite fmap_cons, Zsum_cons. lia.
Qed.

Lemma raw_value_of_empty_mask_witness :
  raw_value_of (λ _ _ _ _, [(3, 3)]) (replicate 12 (replicate 12 700))
    (replicate 12 (replicate 12 0))
  = Ok Missing.
Proof.
  apply (raw_value_of_empty_mask (λ _ _ _ _, [(3, 3)]) (replicate 12 (replicate 12 700))
           (replicate 12 (replicate 12 0))).
  - discriminate.
  - apply (bool_decide_unpack _). vm_compute. exact I.
  - apply (bool_decide_unpack _). vm_compute. exact I.
  - reflexivity.
  - apply (bool_decide_unpack _). vm_compute. exact I.
  - vm_compute. lia.
  - apply (bool_decide_unpack _). vm_compute. exact I.
Defined.

(** ** The default layout *)

Lemma zip_take_length {A B} (l : list A) (k : list B) :
  zip (take (length k) l) k = zip l k.
Proof.
  revert k. induction l as [|a l IH]; intros [|b k]; [done..|].
  cbn. by rewrite IH.
Qed.

(** Without a plate file the number of images is not compared with the
    number of wells of the default layout: the image files beyond the last
    well of the layout have no influence on the result, neither on the
    values nor on whether the run fails. *)
Lemma main_default_layout_surplus
    (xy_search : string → option (string * Z)) (image_score : string → Z)
    (pattern_search : string → bool) (LAYOUT_DEFAULT : list string)
    (imagefiles : list string) (cap : Z) (plate_control plate_ignore : list string) :
  main xy_search image_score pattern_search LAYOUT_DEFAULT imagefiles cap None
    plate_control plate_ignore
  = main xy_search image_score pattern_search LAYOUT_DEFAULT
      (take (length LAYOUT_DEFAULT) imagefiles) cap None plate_control plate_ignore.
Proof.
  unfold main. cbn [get_schematic].
  change (Ok ?r ≫= ?f) with (f r). cbv beta iota zeta.
  unfold quantify. by rewrite zip_take_length.
Qed.

(** ** A control value of zero *)




(** ** A control value that is NaN *)

(** C3, as stated, fails where the control value of the plate is NaN, which
    it is when the control wells of the plate are all missing: the value
    computed for a well with a score is NaN, which is not [>= cap], and with
    a cap above zero the stored value is NaN all the same. *)
Lemma normalize_nan_control_capped :
  quantify re_xy_search (score_table [("P1_XY02_CH1.tif", 100)]) (λ _, true)
    ["P1_XY01_CH1.tif"; "P1_XY02_CH1.tif"] ["B"] 150 ["B"; "T"]
  = Ok ([mkImage "P1_XY01_CH1.tif" "P1" 1 "B" (Some NaN);
         mkImage "P1_XY02_CH1.tif" "P1" 2 "T" (Some NaN)], []) ∧
  _calculate_control_values (score_table [("P1_XY02_CH1.tif", 100)])
    [mkImage "P1_XY01_CH1.tif" "P1" 1 "B" None; mkImage "P1_XY02_CH1.tif" "P1" 2 "T" None]
    ["B"]
  = Ok {["P1" := NaN]} ∧
  floordiv_100 (Score 100) NaN = Ok NaN ∧
  float_ge_int NaN 150 = false.
Proof. vm_compute. done. Qed.

(** A label with characters beyond ASCII: the micro sign, code point 181,
    is printable and kept; the no-break space before the label, 160, and
    the carriage return after it, 13, are not, and the space that is left
    at the end is stripped. *)
Example clean_keeps_micro_sign :
  _clean (String.string_of_list_ascii
            ([Ascii.ascii_of_nat 160] ++ String.list_ascii_of_string "10"
             ++ [Ascii.ascii_of_nat 181] ++ String.list_ascii_of_string "M "
             ++ [Ascii.ascii_of_nat 13]))
  = String.string_of_list_ascii
      (String.list_ascii_of_string "10" ++ [Ascii.ascii_of_nat 181]
       ++ String.list_ascii_of_string "M").
Proof. vm_compute. reflexivity. Qed.

(** ** Detected maxima and the raw value *)

(** With the radius of 8 that [Image.get_raw_value] scores with, detected
    maxima give a raw value that is not missing: on an image without
    negative samples, with at least one and at most ten maxima that lie 8
    pixels inside the lower and right borders and have positive samples,
    the score is positive. *)
Lemma detected_maxima_give_a_raw_value
    (peak_local_max : image → Z → Z → Qc → list (Z * Z)) (img : image) :
  rectangular img →
  Forall (Forall (λ p, 0 ≤ p < 2 ^ 32)) img →
  _get_local_maxima peak_local_max img 10 8 default_threshold_rel ≠ [] →
  (length (_get_local_maxima peak_local_max img 10 8 default_threshold_rel) ≤ 10)%nat →
  Forall (λ c, 0 ≤ c.1 ∧ c.1 + 8 < height img ∧ 0 ≤ c.2 ∧ c.2 + 8 < width img)
    (_get_local_maxima peak_local_max img 10 8 default_threshold_rel) →
  Forall (λ c, ∃ p, pixel img c.1 c.2 = Ok p ∧ 0 < p)
    (_get_local_maxima peak_local_max img 10 8 default_threshold_rel) →
  ∃ total,
    score peak_local_max img 10 8 default_threshold_pct = Ok total ∧
    0 < total ∧
    raw_of_score total = Score total.
Proof.
  intros Hrect Hrange Hne Hcount Hmargin Hpeak.
  destruct (score_positive_at_radius_8 peak_local_max img Hrect Hrange Hne Hcount
              Hmargin Hpeak) as (total & Hscore & Hpos).
  exists total. split; [done|]. split; [done|]. by apply raw_of_score_positive.
Qed.

Lemma detected_maxima_give_a_raw_value_witness :
  ∃ total,
    score (detected [(8, 8)]) rim_image 10 8 default_threshold_pct = Ok total ∧
    0 < total ∧
    raw_of_score total = Score total.
Proof.
  apply (detected_maxima_give_a_raw_value (detected [(8, 8)]) rim_image).
  - apply (bool_decide_unpack _). vm_compute. exact I.
  - apply (bool_decide_unpack _). vm_compute. exact I.
  - discriminate.
  - cbn. lia.
  - repeat constructor; vm_compute; discriminate.
  - repeat constructor. exists 2000. split; [reflexivity|lia].
Defined.

End AnalyzeProps.
